(** * Byte-level recursive convolutional autoencoder: a model of [byte.py]

    The development follows the layout of the script: the dataset loader
    ([UTF8File]), the layers and their shape discipline ([ExpandConv1d],
    [Residual], [ByteCNNEncoder], [ByteCNNDecoder]), and the orchestrator
    ([ByteCNN]) with its training, evaluation, inspection and loading
    entry points.  Python exceptions are values of [pyerr]; a computation
    that may raise returns a [result]. *)

From Stdlib Require Import ZArith QArith Qround Qpower List Lia Bool String Ascii.
From stdpp Require Import base gmap strings list.

Import ListNotations.
Open Scope Z_scope.

(* ===================================================================== *)
(** ** Exceptions and fallible computations                               *)
(* ===================================================================== *)

Inductive pyerr : Type :=
| NameError
| SyntaxError
| ValueError
| AssertionError
| AttributeError
| ZeroDivisionError
| OverflowError
| IndexError
| KeyError
| IOError
| RuntimeError.

Inductive result (A : Type) : Type :=
| Ok (a : A)
| Raise (e : pyerr).

Arguments Ok {A} a.
Arguments Raise {A} e.

Definition rbind {A B} (c : result A) (k : A -> result B) : result B :=
  match c with
  | Ok a => k a
  | Raise e => Raise e
  end.

Notation "'let!' x ':=' c 'in' k" := (rbind c (fun x => k))
  (at level 10, x name, c at level 100, k at level 200).

Fixpoint rmapM {A B} (f : A -> result B) (l : list A) : result (list B) :=
  match l with
  | [] => Ok []
  | a :: l' => let! b := f a in let! bs := rmapM f l' in Ok (b :: bs)
  end.

(* ===================================================================== *)
(** ** Floating-point values used by the script                           *)
(* ===================================================================== *)

(** Every finite double is a rational; the script only inspects the
    results of [np.log2], [np.ceil] and [2 ** _] through [int] and [==],
    so finite floats are carried as [Q] and compared exactly. *)

(** Python's [int(f)]: truncation toward zero. *)
Definition py_int (f : Q) : Z :=
  if Qle_bool 0 f then Qfloor f else Qceiling f.

(** [float(r)] for an integer [r]. *)
Definition py_float (r : Z) : Q := inject_Z r.

(** [np.ceil]. *)
Definition np_ceil (f : Q) : Q := inject_Z (Qceiling f).

(** [2 ** f] for the integer-valued float that [np.ceil] returns. *)
Definition pow2_float (f : Q) : Q := Qpower 2 (Qfloor f).

(* ===================================================================== *)
(** ** Dataset loader: [UTF8File]                                         *)
(* ===================================================================== *)

Module UTF8File.

Definition EOS : Z := 0.
Definition EMPTY : Z := 7.

(** A padded line, and a bucket of lines of one length.  The dict
    [lines_by_len] is kept as an association list in order of first
    insertion: of the order in which [items()] lists the buckets, the
    properties below use only that it is a fixed function of the file. *)
Definition row := list Z.
Definition buckets := list (Z * list row).

Section Loader.
(** [np.log2] on a positive length. *)
Variable np_log2 : Z -> Q.

(** Lines 76-77: the bytes of the stripped line, then [EOS], then
    [EMPTY] repeated [int(2 ** ceil(log2(len))) - len] times (a
    negative count repeats nothing). *)
Definition pad_line (content : list Z) : row :=
  let bytes_ := content ++ [EOS] in
  let len := Z.of_nat (length bytes_) in
  bytes_ ++
    repeat EMPTY
      (Z.to_nat (py_int (pow2_float (np_ceil (np_log2 len))) - len)).

(** [lines_by_len[k].append(bytes_)] on a [defaultdict(list)]. *)
Fixpoint bucket_append (k : Z) (r : row) (d : buckets) : buckets :=
  match d with
  | [] => [(k, [r])]
  | (k', rs) :: d' =>
      if k =? k' then (k', rs ++ [r]) :: d'
      else (k', rs) :: bucket_append k r d'
  end.

(** Lines 73-78.  A file is given by its lines, each as the list of the
    UTF-8 bytes of [line.strip()]. *)
Definition read_lines (file : list (list Z)) : buckets :=
  fold_left
    (fun d content =>
       let bytes_ := pad_line content in
       bucket_append (Z.of_nat (length bytes_)) bytes_ d)
    file [].
End Loader.

(** *** The random generators of [numpy]

    [np.random.RandomState(seed)] and the module-level generator behind
    [np.random.permutation] / [np.random.shuffle] are library code; the
    loader is modelled over any implementation of them. *)
Record np_random : Type := {
  rng_state : Type;
  RandomState : Z -> rng_state;
  permutation : Z -> rng_state -> list Z * rng_state;
  shuffle : forall A : Type, list A -> rng_state -> list A * rng_state
}.

Arguments shuffle _ {A} _ _.

Section Batching.
Variable R : np_random.

(** The object built by [__init__]: [self.rng] and [self.lines]
    ([self.cuda] only selects the device of the yielded tensors). *)
Record t : Type := {
  rng : rng_state R;
  lines : buckets
}.

Definition batch := list row.

(** [np.array_split(ary, k)] for [k > 0]: the first [n % k] sections
    hold [n // k + 1] rows, the others [n // k]. *)
Definition section_sizes (n k : nat) : list nat :=
  (repeat (S (n / k)) (n mod k) ++ repeat (n / k) (k - n mod k))%nat.

Fixpoint split_sizes {A} (ary : list A) (sizes : list nat) : list (list A) :=
  match sizes with
  | [] => []
  | s :: sizes' => firstn s ary :: split_sizes (skipn s ary) sizes'
  end.

Definition array_split {A} (ary : list A) (k : nat) : list (list A) :=
  split_sizes ary (section_sizes (length ary) k).

(** [np.split(ary, k)]: equal division or [ValueError]. *)
Definition np_split {A} (ary : list A) (k : Z) : result (list (list A)) :=
  if k =? 0 then Raise ZeroDivisionError
  else if negb (Z.of_nat (length ary) mod k =? 0) then Raise ValueError
  else if k <=? 0 then Raise ValueError
  else Ok (array_split ary (Z.to_nat k)).

(** [data[inds]]: row selection by an index array; negative indices
    count from the end, anything else out of range raises. *)
Definition take_rows (data : list row) (inds : list Z) : result batch :=
  let n := Z.of_nat (length data) in
  rmapM (fun i =>
           if (0 <=? i) && (i <? n) then Ok (nth (Z.to_nat i) data [])
           else if (- n <=? i) && (i <? 0) then Ok (nth (Z.to_nat (n + i)) data [])
           else Raise IndexError) inds.

Fixpoint lookup_bucket (len_ : Z) (d : buckets) : result (list row) :=
  match d with
  | [] => Raise KeyError
  | (k, rs) :: d' => if len_ =? k then Ok rs else lookup_bucket len_ d'
  end.

(** Lines 88-91: evaluation mode. *)
Fixpoint eval_batches (d : buckets) (bsz : Z) : result (list batch) :=
  match d with
  | [] => Ok []
  | (len_, data) :: d' =>
      if bsz =? 0 then Raise ZeroDivisionError
      else
        let chunks :=
          array_split data
            (Z.to_nat (Z.max 1 (Z.of_nat (length data) / bsz))) in
        let! rest := eval_batches d' bsz in
        Ok (chunks ++ rest)
  end.

(** Lines 93-101: the index batches of every bucket, drawn from the
    module-level generator whose state is threaded through. *)
Fixpoint batch_indices (d : buckets) (bsz : Z) (g : rng_state R)
  : result (list (Z * list Z)) * rng_state R :=
  match d with
  | [] => (Ok [], g)
  | (len_, data) :: d' =>
      if bsz =? 0 then (Raise ZeroDivisionError, g)
      else
        let n := Z.of_nat (length data) in
        let num_batches := n / bsz in
        if num_batches =? 0 then batch_indices d' bsz g
        else
          let (all_inds, g1) := permutation R n g in
          let all_inds := firstn (Z.to_nat (bsz * num_batches)) all_inds in
          match np_split all_inds num_batches with
          | Raise e => (Raise e, g1)
          | Ok parts =>
              let (rest, g2) := batch_indices d' bsz g1 in
              (let! rest := rest in
               Ok (map (fun inds => (len_, inds)) parts ++ rest), g2)
          end
  end.

(** [iter_epoch]: the batches yielded, in order, and the state in
    which the module-level generator is left. *)
Definition iter_epoch (self : t) (bsz : Z) (evaluation : bool)
    (g : rng_state R) : result (list batch) * rng_state R :=
  if evaluation then (eval_batches (lines self) bsz, g)
  else
    match batch_indices (lines self) bsz g with
    | (Raise e, g1) => (Raise e, g1)
    | (Ok batch_inds, g1) =>
        let (batch_inds, g2) := shuffle R batch_inds g1 in
        (rmapM (fun '(len_, inds) =>
                  let! data := lookup_bucket len_ (lines self) in
                  take_rows data inds) batch_inds, g2)
    end.

(** [get_num_batches]. *)
Definition get_num_batches (self : t) (bsz : Z) : result Z :=
  fold_left
    (fun acc '(_, data) =>
       let! s := acc in
       if bsz =? 0 then Raise ZeroDivisionError
       else Ok (s + Z.of_nat (length data) / bsz))
    (lines self) (Ok 0).
End Batching.

Arguments rng {R} _.
Arguments lines {R} _.

(** [UTF8File(path, cuda, rng)] with an integer seed. *)
Definition init (np_log2 : Z -> Q) (R : np_random)
    (file : list (list Z)) (seed : Z) : t R :=
  {| rng := RandomState R seed; lines := read_lines np_log2 file |}.

End UTF8File.

(* ===================================================================== *)
(** ** Tensor shapes and the layers of the network                        *)
(* ===================================================================== *)

(** The layers are followed at the level of tensor shapes: what each
    [forward] does to the sizes of its argument, and when it raises for a
    size it cannot take.  The weights are not part of a shape; the one
    layer whose [forward] looks at the values it is given, the
    embedding, is followed on the values. *)
Module Shape.

Definition shape := list Z.

Definition numel (s : shape) : Z := fold_right Z.mul 1 s.

Definition size (s : shape) (i : nat) : Z := nth i s 0.

(** [x.size(-1)]. *)
Definition size_last (s : shape) : Z := List.last s 0.

(** [x.view(d0, d1, ...)] with every size given. *)
Definition view (s dims : shape) : result shape :=
  if numel s =? numel dims then Ok dims else Raise RuntimeError.

(** [x.view(bsz, -1)]: the second size is inferred. *)
Definition view_flat (s : shape) (bsz : Z) : result shape :=
  if bsz <=? 0 then Raise RuntimeError
  else if numel s mod bsz =? 0 then Ok [bsz; numel s / bsz]
  else Raise RuntimeError.

(** [x.transpose(1, 2)] and [x.transpose(2, 3)]. *)
Definition transpose_1_2 (s : shape) : result shape :=
  match s with
  | a :: b :: c :: s' => Ok (a :: c :: b :: s')
  | _ => Raise RuntimeError
  end.

Definition transpose_2_3 (s : shape) : result shape :=
  match s with
  | a :: b :: c :: d :: s' => Ok (a :: b :: d :: c :: s')
  | _ => Raise RuntimeError
  end.

(** A [LongTensor] of two sizes, given by its rows, and its sizes. *)
Definition indices := list (list Z).

Definition sizes_of (x : indices) : shape :=
  [Z.of_nat (length x); Z.of_nat (length (hd [] x))].

(** [nn.Embedding(num_embeddings, embedding_dim, padding_idx)] and its
    [forward]: every entry of [x] selects a row of the table, so an
    entry outside [range(num_embeddings)] is refused; the result has
    the sizes of [x] followed by [embedding_dim]. *)
Record embedding_table : Type := {
  num_embeddings : Z;
  embedding_dim : Z;
  padding_idx : Z
}.

Definition in_table (t : embedding_table) (x : indices) : bool :=
  forallb (forallb (fun c => (0 <=? c) && (c <? num_embeddings t))) x.

Definition lookup (t : embedding_table) (x : indices) : result shape :=
  if in_table t x then Ok (sizes_of x ++ [embedding_dim t])
  else Raise RuntimeError.

(** [out += residual]: the in-place addition expands [residual] to the
    sizes of [out].  Aligned from the last size, every size of
    [residual] must equal that of [out] or be 1, and [residual] may not
    have more sizes than [out]; [out] keeps its sizes. *)
Fixpoint expands_to (residual_rev out_rev : shape) : bool :=
  match residual_rev, out_rev with
  | [], _ => true
  | _ :: _, [] => false
  | a :: r', b :: o' => ((a =? b) || (a =? 1)) && expands_to r' o'
  end.

Definition iadd (out residual : shape) : result shape :=
  if expands_to (rev residual) (rev out) then Ok out
  else Raise RuntimeError.

Inductive layer : Type :=
| Conv1d (in_channels out_channels kernel_size stride padding : Z)
| ExpandConv1d (in_channels out_channels kernel_size stride padding : Z)
| Linear (in_features out_features : Z)
| ReLU
| MaxPool1d (kernel_size : Z)
| Residual (layer_proto : layer) (out_relu : bool).

Definition conv1d_shape (cin cout k st p : Z) (s : shape) : result shape :=
  match s with
  | [N; C; L] =>
      if (C =? cin) && (0 <? st) && (0 <=? L + 2 * p - k)
      then Ok [N; cout; (L + 2 * p - k) / st + 1]
      else Raise RuntimeError
  | _ => Raise RuntimeError
  end.

(** [nn.Linear] acts on the last size, whatever the sizes before it. *)
Definition linear_shape (fin fout : Z) (s : shape) : result shape :=
  match rev s with
  | f :: before_rev =>
      if f =? fin then Ok (rev before_rev ++ [fout]) else Raise RuntimeError
  | [] => Raise RuntimeError
  end.

(** [forward] of each layer, on shapes.  [ExpandConv1d.forward] is
    lines 127-132; [Residual.forward] is lines 143-154: [layer1] and
    [layer2] are two instances of [layer_proto], and [out += residual]
    adds the argument to the output of [layer2] in place. *)
Fixpoint forward (l : layer) (s : shape) : result shape :=
  match l with
  | Conv1d cin cout k st p => conv1d_shape cin cout k st p s
  | ExpandConv1d cin cout k st p =>
      let! x := conv1d_shape cin cout k st p s in
      let bsz := size x 0 in
      let c := size x 1 in
      let l := size x 2 in
      let! x := view x [bsz; c / 2; 2; l] in
      let! x := transpose_2_3 x in
      view x [bsz; c / 2; 2 * l]
  | Linear fin fout => linear_shape fin fout s
  | ReLU => Ok s
  | MaxPool1d k =>
      match s with
      | [N; C; L] =>
          if (0 <? k) && (k <=? L) then Ok [N; C; (L - k) / k + 1]
          else Raise RuntimeError
      | _ => Raise RuntimeError
      end
  | Residual layer_proto out_relu =>
      let residual := s in
      let! out := forward layer_proto s in
      let! out := forward layer_proto out in
      iadd out residual
  end.

(** [nn.Sequential]. *)
Fixpoint sequential (ls : list layer) (s : shape) : result shape :=
  match ls with
  | [] => Ok s
  | l :: ls' => let! s' := forward l s in sequential ls' s'
  end.

(** [for _ in xrange(k): x = f(x)]. *)
Fixpoint repeat_apply (k : nat) (f : shape -> result shape) (s : shape)
  : result shape :=
  match k with
  | O => Ok s
  | S k' => let! s' := f s in repeat_apply k' f s'
  end.

(** [residual_list = lambda proto, k: [Residual(proto) for _ in xrange(k)]]. *)
Definition residual_list (proto : layer) (k : Z) : list layer :=
  repeat (Residual proto true) (Z.to_nat k).

Definition conv_proto (emsize : Z) : layer := Conv1d emsize emsize 3 1 1.
Definition expand_proto (emsize : Z) : layer :=
  ExpandConv1d emsize (emsize * 2) 3 1 1.
Definition linear_proto (emsize : Z) : layer :=
  Linear (emsize * 4) (emsize * 4).

End Shape.

Module ByteCNNEncoder.
Import Shape.

Record t : Type := {
  n : Z;
  emsize : Z;
  embedding : embedding_table;
  prefix : list layer;
  recurrent : list layer;
  postfix : list layer
}.

(** [__init__], lines 158-173.  [nn.Embedding] checks that
    [padding_idx] names a row of its table, so a table of at most
    [EMPTY] rows cannot be built. *)
Definition init (n emsize : Z) : result t :=
  if negb (n mod 2 =? 0) then Raise AssertionError
  else if negb (UTF8File.EMPTY <? emsize) then Raise AssertionError
  else
    Ok {| n := n;
          emsize := emsize;
          embedding := {| num_embeddings := emsize;
                          embedding_dim := emsize;
                          padding_idx := UTF8File.EMPTY |};
          prefix := residual_list (conv_proto emsize) (n / 2);
          recurrent := residual_list (conv_proto emsize) (n / 2)
                         ++ [MaxPool1d 2];
          postfix := residual_list (linear_proto emsize) (n / 2 - 1)
                       ++ [Residual (linear_proto emsize) false] |}.

Definition is_nil {A} (l : list A) : bool :=
  match l with [] => true | _ :: _ => false end.

(** [forward], lines 175-183, on a batch of byte sequences.
    [transpose(1, 2)] returns a view of the looked-up tensor, which is
    contiguous only when one of the two sizes it swaps is 1; an empty
    [nn.Sequential] returns its argument, and every layer returns a new
    contiguous tensor.  [x.view(bsz, -1)] needs a contiguous [x]. *)
Definition forward (self : t) (x : indices) (r : Z) : result shape :=
  let! x := lookup (embedding self) x in
  let! x := transpose_1_2 x in
  let contiguous := (size x 1 =? 1) || (size x 2 =? 1) in
  let! x := sequential (prefix self) x in
  let contiguous := contiguous || negb (is_nil (prefix self)) in
  let k := Z.to_nat (r - 2) in
  let! x := repeat_apply k (sequential (recurrent self)) x in
  let contiguous :=
    contiguous || (negb (k =? 0)%nat && negb (is_nil (recurrent self))) in
  let bsz := size x 0 in
  let! x := if contiguous then view_flat x bsz else Raise RuntimeError in
  sequential (postfix self) x.

End ByteCNNEncoder.

Module ByteCNNDecoder.
Import Shape.

Record t : Type := {
  n : Z;
  emsize : Z;
  prefix : list layer;
  recurrent : list layer;
  postfix : list layer
}.

(** [__init__], lines 193-208. *)
Definition init (n emsize : Z) : result t :=
  if negb (n mod 2 =? 0) then Raise AssertionError
  else
    Ok {| n := n;
          emsize := emsize;
          prefix := residual_list (linear_proto emsize) (n / 2);
          recurrent := [expand_proto emsize; ReLU; conv_proto emsize; ReLU]
                         ++ residual_list (conv_proto emsize) (n / 2 - 1);
          postfix := residual_list (conv_proto emsize) (n / 2) |}.

(** [forward], lines 210-217. *)
Definition forward (self : t) (x : shape) (r : Z) : result shape :=
  let! x := sequential (prefix self) x in
  let! x := view x [size x 0; emsize self; 4] in
  let! x := repeat_apply (Z.to_nat (r - 2)) (sequential (recurrent self)) x in
  sequential (postfix self) x.

End ByteCNNDecoder.

(* ===================================================================== *)
(** ** Python strings: [chr], [repr], [strip], [split]                    *)
(* ===================================================================== *)

Module PyStr.
(** [chr(c)]: a one-byte string, or [ValueError] outside [range(256)]. *)
Definition chr (c : Z) : result ascii :=
  if (0 <=? c) && (c <? 256) then Ok (ascii_of_N (Z.to_N c))
  else Raise ValueError.

Definition DQUOTE : ascii := ascii_of_N 34.

Definition hex_digit (d : N) : ascii :=
  if (d <? 10)%N then ascii_of_N (48 + d) else ascii_of_N (87 + d).

(** [repr] of a byte string (Python 2): single quotes unless the text
    holds a single quote and no double quote; backslash escapes for the
    quote, the backslash, tab, newline and carriage return; [\xNN] for
    the other bytes outside the printable ASCII range. *)
Definition repr_char (quote c : ascii) : list ascii :=
  let code := N_of_ascii c in
  if (Ascii.eqb c quote || Ascii.eqb c "\"%char)%bool then ["\"%char; c]
  else if (code =? 9)%N then ["\"%char; "t"%char]
  else if (code =? 10)%N then ["\"%char; "n"%char]
  else if (code =? 13)%N then ["\"%char; "r"%char]
  else if ((code <? 32) || (127 <=? code))%N
       then ["\"%char; "x"%char; hex_digit (code / 16); hex_digit (code mod 16)]
  else [c].

Definition repr (s : list ascii) : string :=
  let quote :=
    if (existsb (Ascii.eqb "'"%char) s && negb (existsb (Ascii.eqb DQUOTE) s))%bool
    then DQUOTE else "'"%char in
  string_of_list_ascii
    ((quote :: flat_map (repr_char quote) s) ++ [quote]).

Definition is_space (c : ascii) : bool :=
  let code := N_of_ascii c in
  ((code =? 32) || ((9 <=? code) && (code <=? 13)))%N.

Fixpoint lstrip (s : list ascii) : list ascii :=
  match s with
  | c :: s' => if is_space c then lstrip s' else s
  | [] => []
  end.

(** [s.strip()]. *)
Definition strip (s : list ascii) : list ascii :=
  rev (lstrip (rev (lstrip s))).

(** [s.split('=', 1)]: one or two pieces. *)
Fixpoint split_eq_1 (s : list ascii) : list ascii * option (list ascii) :=
  match s with
  | [] => ([], None)
  | c :: s' =>
      if Ascii.eqb c "="%char then ([], Some s')
      else let (k, v) := split_eq_1 s' in (c :: k, v)
  end.

End PyStr.

(* ===================================================================== *)
(** ** The orchestrator: [ByteCNN]                                        *)
(* ===================================================================== *)

Module ByteCNN.

(** A batch of byte sequences [src] (one list per sequence), and the
    decoder's output [tgt] of sizes (batch, classes, length), read
    through its indexing function. *)
Definition batch := list (list Z).

Record tensor3 : Type := {
  size0 : nat;
  size1 : nat;
  size2 : nat;
  item : nat -> nat -> nat -> Q
}.

Definition shape_of (src : batch) : Shape.shape :=
  [Z.of_nat (length src); Z.of_nat (length (hd [] src))].

(** [tgt.transpose(1, 2).contiguous().view(-1, tgt.size(1))]: one row
    of class scores per (sequence, position). *)
Definition score_rows (tgt : tensor3) : list (list Q) :=
  flat_map
    (fun b => map (fun l => map (fun c => item tgt b c l)
                                (seq 0 (size1 tgt)))
                  (seq 0 (size2 tgt)))
    (seq 0 (size0 tgt)).

(** Index of the first largest entry. *)
Fixpoint argmax_from (best : Q) (besti i : Z) (xs : list Q) : Z :=
  match xs with
  | [] => besti
  | x :: xs' =>
      if Qlt_le_dec best x then argmax_from x i (i + 1) xs'
      else argmax_from best besti (i + 1) xs'
  end.

Definition argmax (xs : list Q) : Z :=
  match xs with
  | [] => 0
  | x :: xs' => argmax_from x 0 1 xs'
  end.

(** [_, predictions = tgt.data.max(dim=1)]. *)
Definition max_dim1 (tgt : tensor3) : list (list Z) :=
  map (fun b => map (fun l => argmax (map (fun c => item tgt b c l)
                                          (seq 0 (size1 tgt))))
                    (seq 0 (size2 tgt)))
      (seq 0 (size0 tgt)).

(** [mask = (src.data != UTF8File.EMPTY)]. *)
Definition pad_mask (src : batch) : list (list bool) :=
  map (map (fun c => negb (c =? UTF8File.EMPTY))) src.

Definition same_sizes {A B} (x : list (list A)) (m : list (list B)) : bool :=
  (length x =? length m)%nat
  && forallb (fun '(r, mr) => (length r =? length mr)%nat) (combine x m).

(** [x[mask]]: the entries under a true mask bit, row after row. *)
Definition masked_select (x : list (list Z)) (mask : list (list bool))
  : result (list Z) :=
  if same_sizes x mask
  then Ok (flat_map
             (fun '(r, mr) =>
                map fst (List.filter snd (combine r mr)))
             (combine x mask))
  else Raise RuntimeError.

(** [(a != b).sum()] and [mask.sum()]. *)
Definition count_ne (a b : list Z) : Z :=
  Z.of_nat (length (List.filter (fun '(x, y) => negb (x =? y)) (combine a b))).

Definition mask_sum (mask : list (list bool)) : Z :=
  Z.of_nat (length (List.filter (fun b : bool => b) (concat mask))).

(** Totals over the batches of a stream. *)
Definition Qsum (l : list Q) : Q := fold_right Qplus 0%Q l.
Definition Zsum (l : list Z) : Z := fold_right Z.add 0 l.

(** [num_recurrences], lines 185-189, on the shape of [x].  [np.log2]
    of a zero length is minus infinity, which [int] rejects. *)
Definition num_recurrences (np_log2 : Z -> Q) (x : Shape.shape) : result Z :=
  let L := Shape.size_last x in
  if L <=? 0 then Raise OverflowError
  else
    let rfloat := np_log2 L in
    let r := py_int rfloat in
    if Qeq_bool (py_float r) rfloat then Ok r else Raise AssertionError.

(** Sizes through [ByteCNN.forward], lines 232-236. *)
Definition forward_shape (np_log2 : Z -> Q)
    (encoder : ByteCNNEncoder.t) (decoder : ByteCNNDecoder.t)
    (x : batch) : result Shape.shape :=
  let! r := num_recurrences np_log2 (shape_of x) in
  let! x := ByteCNNEncoder.forward encoder x r in
  ByteCNNDecoder.forward decoder x r.

Section Criterion.
(** The negative log-softmax of one row of class scores at a class. *)
Variable nll : list Q -> Z -> Q.

(** [nn.CrossEntropyLoss(ignore_index=...)] with its default
    averaging, as the library documents it: rows whose target is
    [ignore_index] are skipped, the others must name a class, and the
    sum is divided by the number of rows kept (when there is one). *)
Fixpoint nll_loop (ignore_index : Z) (input : list (list Q))
    (target : list Z) (total : Q) (count : Z) : result (Q * Z) :=
  match input, target with
  | [], [] => Ok (total, count)
  | x :: input', t :: target' =>
      if t =? ignore_index then nll_loop ignore_index input' target' total count
      else if (0 <=? t) && (t <? Z.of_nat (length x))
           then nll_loop ignore_index input' target'
                  (total + nll x t)%Q (count + 1)
      else Raise RuntimeError
  | _, _ => Raise RuntimeError
  end.

Definition CrossEntropyLoss (ignore_index : Z) (input : list (list Q))
    (target : list Z) : result Q :=
  let! tc := nll_loop ignore_index input target 0%Q 0 in
  Ok (if snd tc =? 0 then fst tc else (fst tc / inject_Z (snd tc))%Q).

(** [self.criterion], line 230. *)
Definition criterion : list (list Q) -> list Z -> result Q :=
  CrossEntropyLoss UTF8File.EMPTY.
End Criterion.

(** The running [total_loss] of [eval_on]: the integer [0] it starts
    as, or the loss variable it becomes once a batch loss is added. *)
Inductive py_loss : Type :=
| IntZero
| LossVar (v : Q).

Record eval_state : Type := {
  errs : Z;
  samples : Z;
  total_loss : py_loss;
  batch_cnt : Z
}.

Record metrics : Type := { loss : Q; acc : Q }.

Record train_out (params : Type) : Type := {
  losses : list Q;
  err_rates : list Q;
  trained : params;
  logged : list (Z * Q * Q)
}.

Arguments losses {params} _.
Arguments err_rates {params} _.
Arguments trained {params} _.
Arguments logged {params} _.

(** [pred.index(v)]. *)
Fixpoint index (v : Z) (pred : list Z) : option nat :=
  match pred with
  | [] => None
  | c :: pred' =>
      if c =? v then Some O else option_map S (index v pred')
  end.

(** Line 298: cut at the first [EOS] when there is one. *)
Definition cut_at_eos (pred : list Z) : list Z :=
  match index UTF8File.EOS pred with
  | Some i => firstn i pred
  | None => pred
  end.

(** Lines 297-299 for one predicted sequence. *)
Definition render (pred : list Z) : result string :=
  let pred := cut_at_eos pred in
  let! chars := rmapM PyStr.chr pred in
  Ok (PyStr.repr chars).

Section Passes.
Variable np_log2 : Z -> Q.
Variable nll : list Q -> Z -> Q.
(** The weights, [self.decoder(self.encoder(src, r), r)] under given
    weights, and one [backward] / [optimizer.step()] round. *)
Variable params : Type.
Variable net : params -> batch -> Z -> result tensor3.
Variable optimizer_step : params -> batch -> params.

(** The forward part shared by the three passes: [r], then [tgt]. *)
Definition run_net (self : params) (src : batch) : result tensor3 :=
  let! r := num_recurrences np_log2 (shape_of src) in
  net self src r.

Definition batch_loss (tgt : tensor3) (src : batch) : result Q :=
  criterion nll (score_rows tgt) (concat src).

(** [(predictions[mask] != src.data[mask]).sum()] and [mask.sum()]. *)
Definition batch_errors (tgt : tensor3) (src : batch) : result (Z * Z) :=
  let predictions := max_dim1 tgt in
  let mask := pad_mask src in
  let! p := masked_select predictions mask in
  let! s := masked_select src mask in
  Ok (count_ne p s, mask_sum mask).

(** What one batch contributes in [eval_on]: its loss, its number of
    wrong predictions and its number of counted positions. *)
Definition batch_stats (self : params) (src : batch) : result (Q * (Z * Z)) :=
  let! tgt := run_net self src in
  let! l := batch_loss tgt src in
  let! em := batch_errors tgt src in
  Ok (l, em).

(** [train_on], lines 238-261.  [logger] defaults to [None], for
    which [logger.train_log] is an attribute error. *)
Fixpoint train_loop (batch_iterator : list batch) (batch_no : Z)
    (self : params) (ls es : list Q) (logger : option (list (Z * Q * Q)))
  : result (train_out params) :=
  match batch_iterator with
  | [] =>
      Ok {| losses := ls; err_rates := es; trained := self;
            logged := match logger with Some lg => lg | None => [] end |}
  | src :: rest =>
      let! tgt := run_net self src in
      let! loss := batch_loss tgt src in
      let self' := optimizer_step self src in
      let! em := batch_errors tgt src in
      let! err_rate :=
        if snd em =? 0 then Raise ZeroDivisionError
        else Ok (100 * inject_Z (fst em) / inject_Z (snd em))%Q in
      match logger with
      | None => Raise AttributeError
      | Some lg =>
          train_loop rest (batch_no + 1) self'
            (ls ++ [loss]) (es ++ [err_rate])
            (Some (lg ++ [(batch_no, loss, (100 - err_rate)%Q)]))
      end
  end.

Definition train_on (self : params) (batch_iterator : list batch)
    (logger : option (list (Z * Q * Q))) : result (train_out params) :=
  train_loop batch_iterator 0 self [] [] logger.

(** [eval_on], lines 263-283. *)
Definition eval_step (self : params) (st : eval_state) (src : batch)
  : result eval_state :=
  let! tgt := run_net self src in
  let! l := batch_loss tgt src in
  let! em := batch_errors tgt src in
  Ok {| errs := errs st + fst em;
        samples := samples st + snd em;
        total_loss := match total_loss st with
                      | IntZero => LossVar l
                      | LossVar t => LossVar (t + l)%Q
                      end;
        batch_cnt := batch_cnt st + 1 |}.

Fixpoint eval_loop (self : params) (batch_iterator : list batch)
    (st : eval_state) : result eval_state :=
  match batch_iterator with
  | [] => Ok st
  | src :: rest =>
      let! st' := eval_step self st src in
      eval_loop self rest st'
  end.

Definition eval_result (st : eval_state) : result metrics :=
  let! l :=
    match total_loss st with
    | IntZero => Raise AttributeError
    | LossVar t =>
        if batch_cnt st =? 0 then Raise ZeroDivisionError
        else Ok (t / inject_Z (batch_cnt st))%Q
    end in
  let! a :=
    if samples st =? 0 then Raise ZeroDivisionError
    else Ok (100 - 100 * inject_Z (errs st) / inject_Z (samples st))%Q in
  Ok {| loss := l; acc := a |}.

Definition eval_on (self : params) (batch_iterator : list batch)
  : result metrics :=
  let! st := eval_loop self batch_iterator
               {| errs := 0; samples := 0; total_loss := IntZero;
                  batch_cnt := 0 |} in
  eval_result st.

(** [try_on], lines 285-301. *)
Fixpoint try_on (self : params) (batch_iterator : list batch)
  : result (list string) :=
  match batch_iterator with
  | [] => Ok []
  | src :: rest =>
      let! tgt := run_net self src in
      let predictions := max_dim1 tgt in
      let! decoded := rmapM render predictions in
      let! more := try_on self rest in
      Ok (decoded ++ more)
  end.
End Passes.

(** *** [load_model], lines 303-326 *)

(** Names bound at module level when [load_model] can be called: the
    imports of lines 4-18 and the definitions of the script. *)
Definition module_globals : list string :=
  ["argparse"; "codecs"; "pprint"; "time"; "defaultdict"; "chain";
   "np"; "torch"; "nn"; "optim"; "Variable"; "Logger"; "parser"; "args";
   "UTF8File"; "UTF8Corpus"; "ExpandConv1d"; "Residual";
   "ByteCNNEncoder"; "ByteCNNDecoder"; "ByteCNN"]%string.

(** [p[key]] on a [defaultdict(str)]: a missing key is first bound to
    the empty string. *)
Definition defaultdict_get (p : gmap string string) (key : string)
  : string * gmap string string :=
  match p !! key with
  | Some v => (v, p)
  | None => (EmptyString, <[key := EmptyString]> p)
  end.

(** [dict(line.strip().split('=', 1) for line in f)]. *)
Fixpoint parse_info (f : list string) (d : gmap string string)
  : result (gmap string string) :=
  match f with
  | [] => Ok d
  | line :: f' =>
      match PyStr.split_eq_1 (PyStr.strip (list_ascii_of_string line)) with
      | (_, None) => Raise ValueError
      | (k, Some v) =>
          parse_info f'
            (<[string_of_list_ascii k := string_of_list_ascii v]> d)
      end
  end.

Section Loading.
(** Python values, [eval] in the module's scope, a call
    [model_class( **model_kwargs)], and [torch.load] followed by
    [load_state_dict] on the file at a path. *)
Variable pyobj : Type.
Variable model : Type.
Variable py_eval : string -> result pyobj.
Variable call : pyobj -> pyobj -> result model.
Variable load_state_dict : model -> string -> result model.
(** [open(path, 'r')] read line by line. *)
Variable open_lines : string -> result (list string).

Definition load_model (globals : list string) (path : string)
  : result model :=
  if negb (existsb (String.eqb "os") globals) then Raise NameError
  else
    let model_pt := (path ++ "/model.pt")%string in
    let model_info := (path ++ "/model.info")%string in
    let! f := open_lines model_info in
    let! d := parse_info f ∅ in
    let p := d in
    let (v, p) := defaultdict_get p "model_class" in
    let! model_class := py_eval v in
    let p := delete "model_class"%string p in
    let (v, p) := defaultdict_get p "model_kwargs" in
    let! model_kwargs := py_eval ("dict(" ++ v ++ ")")%string in
    let p := delete "model_kwargs"%string p in
    if (0 <? size p)%nat then Raise ValueError
    else
      let (v, p) := defaultdict_get p "model_class" in
      if negb (String.eqb v "ByteCNN") then Raise AssertionError
      else
        let! m := call model_class model_kwargs in
        load_state_dict m model_pt.
End Loading.

End ByteCNN.

(* ===================================================================== *)
(** ** Reference implementations of the library functions                 *)
(* ===================================================================== *)

(** Concrete stand-ins for [np.log2] and for the generator of
    [np.random], on which the statements below are run. *)
Module Reference.

(** A base-2 logarithm that is exact on the powers of two and linear
    between two consecutive ones. *)
Definition pl_log2 (L : Z) : Q :=
  let k := Z.log2 L in
  Qmake (k * 2 ^ k + (L - 2 ^ k)) (Z.to_pos (2 ^ k)).

(** [np.log2] as doubles have it, for a positive integer below [2^53]
    (which a double holds exactly): the logarithm is computed to 64
    binary digits after the point, by repeated squaring of the
    significand in 128-bit fixed point, and rounded to the nearest
    number of 53 significant bits, ties to even. *)
Fixpoint log2_digits (P : Z) (bits : nat) (y acc : Z) : Z :=
  match bits with
  | O => acc
  | S bits' =>
      let y2 := y * y / 2 ^ P in
      if 2 ^ (P + 1) <=? y2 then log2_digits P bits' (y2 / 2) (2 * acc + 1)
      else log2_digits P bits' y2 (2 * acc)
  end.

(** [m / 2^F], rounded to 53 significant bits. *)
Definition round_double (m F : Z) : Q :=
  let drop := Z.log2 m - 52 in
  if drop <=? 0 then Qmake m (Z.to_pos (2 ^ F))
  else
    let q := m / 2 ^ drop in
    let rem := m mod 2 ^ drop in
    let half := 2 ^ (drop - 1) in
    let q' :=
      if (half <? rem) || ((rem =? half) && Z.odd q) then q + 1 else q in
    Qmake (q' * 2 ^ drop) (Z.to_pos (2 ^ F)).

Definition double_log2 (L : Z) : Q :=
  let k := Z.log2 L in
  let y := L * 2 ^ 128 / 2 ^ k in
  round_double (k * 2 ^ 64 + log2_digits 128 64 y 0) 64.

(** A linear congruential generator driving a Fisher-Yates shuffle. *)
Definition lcg_next (s : Z) : Z := (1103515245 * s + 12345) mod 2 ^ 31.

Fixpoint fisher_yates {A} (i : nat) (l : list A) (s : Z) : list A * Z :=
  match i with
  | O => (l, s)
  | S i' =>
      let s' := lcg_next s in
      let j := Z.to_nat (s' mod Z.of_nat (S i')) in
      match l !! i, l !! j with
      | Some x, Some y => fisher_yates i' (<[i := y]> (<[j := x]> l)) s'
      | _, _ => (l, s')
      end
  end.

Definition lcg_shuffle {A} (l : list A) (s : Z) : list A * Z :=
  fisher_yates (length l - 1) l s.

Definition lcg : UTF8File.np_random :=
  {| UTF8File.rng_state := Z;
     UTF8File.RandomState := fun seed => seed mod 2 ^ 31;
     UTF8File.permutation :=
       fun n s => lcg_shuffle (map Z.of_nat (seq 0 (Z.to_nat n))) s;
     UTF8File.shuffle := fun A l s => lcg_shuffle l s |}.

(** A network that scores class 0 highest everywhere, over an alphabet of
    256 classes, and a loss term that is 1 for every counted position. *)
Definition zero_net (_ : unit) (src : ByteCNN.batch) (_ : Z)
  : result ByteCNN.tensor3 :=
  Ok {| ByteCNN.size0 := length src;
        ByteCNN.size1 := 256;
        ByteCNN.size2 := length (hd [] src);
        ByteCNN.item := fun _ c _ => match c with O => 1%Q | _ => 0%Q end |}.

Definition unit_nll (_ : list Q) (_ : Z) : Q := 1%Q.

(** The descriptor saved for the default model: one [key=value] line for
    each of the two required keys, each ended by a newline. *)
Definition newline : string := String (ascii_of_N 10) EmptyString.

Definition model_info : list string :=
  [("model_class=ByteCNN" ++ newline)%string;
   ("model_kwargs=n=8,emsize=256" ++ newline)%string].

End Reference.

(* ===================================================================== *)
(** ** The rest of the script                                             *)
(* ===================================================================== *)

(** What the loader expects of [np.random]: [permutation(n)] lists
    [0 .. n-1] in some order, and [shuffle] reorders its argument. *)
Module NumpyLaws.

Definition lawful (R : UTF8File.np_random) : Prop :=
  (forall (n : Z) (g : UTF8File.rng_state R),
      Permutation (fst (UTF8File.permutation R n g))
                  (map Z.of_nat (seq 0 (Z.to_nat n))))
  /\ (forall (A : Type) (l : list A) (g : UTF8File.rng_state R),
        Permutation (fst (UTF8File.shuffle R l g)) l).

End NumpyLaws.

(** [ExpandConv1d.forward], lines 127-132, on the values held.  A
    contiguous tensor is its sizes and its entries in row-major order. *)
Module ExpandConv1d.

Record tensor : Type := { dims : list nat; data : list Q }.

Definition numel (d : list nat) : nat := fold_right Nat.mul 1%nat d.

(** [x.view(d0, d1, ...)]: the same entries under other sizes. *)
Definition view (x : tensor) (dims' : list nat) : result tensor :=
  if (numel (dims x) =? numel dims')%nat
  then Ok {| dims := dims'; data := data x |}
  else Raise RuntimeError.

(** [x.transpose(2, 3).contiguous()] on a tensor of four sizes: entry
    [(a, b, i, j)] of the result is entry [(a, b, j, i)] of [x]. *)
Definition transpose_2_3 (x : tensor) : result tensor :=
  match dims x with
  | [A; B; C; D] =>
      Ok {| dims := [A; B; D; C];
            data :=
              map (fun idx =>
                     let j := (idx mod C)%nat in
                     let i := ((idx / C) mod D)%nat in
                     let ab := (idx / (C * D))%nat in
                     nth ((ab * C + j) * D + i)%nat (data x) 0%Q)
                  (seq 0 (A * B * D * C)) |}
  | _ => Raise RuntimeError
  end.

(** Entry [(b, ch, i)] of a tensor of three sizes. *)
Definition item (x : tensor) (b ch i : nat) : Q :=
  match dims x with
  | [_; C; L] => nth ((b * C + ch) * L + i)%nat (data x) 0%Q
  | _ => 0%Q
  end.

(** [forward], with the convolution [self.conv1d] as a parameter. *)
Definition forward (conv1d : tensor -> result tensor) (x : tensor)
  : result tensor :=
  let! x := conv1d x in
  match dims x with
  | [bsz; c; l] =>
      let! x := view x [bsz; c / 2; 2; l]%nat in
      let! x := transpose_2_3 x in
      view x [bsz; c / 2; 2 * l]%nat
  | _ => Raise ValueError
  end.

End ExpandConv1d.

(** The characters a terminal shows as themselves: ASCII 32 to 126. *)
Module Printable.

Definition printable (c : ascii) : bool :=
  ((32 <=? N_of_ascii c) && (N_of_ascii c <? 127))%N.

Definition quoted (s : string) : Prop :=
  exists q body,
    (q = "'"%char \/ q = PyStr.DQUOTE)
    /\ list_ascii_of_string s = q :: body ++ [q].

End Printable.

(** A [key=value] line of a descriptor, as [load_model] reads it back. *)
Module Descriptor.

(** Neither the first nor the last character is white space. *)
Definition trimmed (s : list ascii) : Prop :=
  match s with
  | [] => True
  | c :: _ => PyStr.is_space c = false /\ PyStr.is_space (List.last s c) = false
  end.

Definition line_of (kv : list ascii * list ascii) : string :=
  string_of_list_ascii
    (fst kv ++ "="%char :: snd kv ++ [ascii_of_N 10]).

End Descriptor.

(* ===================================================================== *)
(** * Properties                                                          *)
(* ===================================================================== *)

(** ** Floats that hold integers *)

Lemma py_int_comp (x y : Q) : (x == y)%Q -> py_int x = py_int y.
Proof.
  intros Hxy. unfold py_int.
  assert (Hb : Qle_bool 0 x = Qle_bool 0 y).
  { destruct (Qle_bool 0 x) eqn:Hx, (Qle_bool 0 y) eqn:Hy; trivial.
    - apply Qle_bool_iff in Hx. rewrite Hxy in Hx.
      apply Qle_bool_iff in Hx. congruence.
    - apply Qle_bool_iff in Hy. rewrite <- Hxy in Hy.
      apply Qle_bool_iff in Hy. congruence. }
  rewrite Hb. destruct (Qle_bool 0 y).
  - now apply Qfloor_comp.
  - now apply Qceiling_comp.
Qed.

Lemma py_int_inject (z : Z) : py_int (inject_Z z) = z.
Proof.
  unfold py_int. destruct (Qle_bool 0 (inject_Z z)).
  - apply Qfloor_Z.
  - apply Qceiling_Z.
Qed.

Lemma Qfloor_between (q : Q) (k : Z) :
  (inject_Z k <= q)%Q -> (q < inject_Z (k + 1))%Q -> Qfloor q = k.
Proof.
  intros Hlo Hhi.
  assert (H1 : (k <= Qfloor q)%Z).
  { rewrite <- (Qfloor_Z k). now apply Qfloor_resp_le. }
  assert (H2 : (Qfloor q < k + 1)%Z).
  { rewrite Zlt_Qlt. eapply Qle_lt_trans; [apply Qfloor_le | exact Hhi]. }
  lia.
Qed.

Lemma Qceiling_between (q : Q) (k : Z) :
  (inject_Z (k - 1) < q)%Q -> (q <= inject_Z k)%Q -> Qceiling q = k.
Proof.
  intros Hlo Hhi.
  assert (H1 : (Qceiling q <= k)%Z).
  { rewrite <- (Qceiling_Z k). now apply Qceiling_resp_le. }
  assert (H2 : (k - 1 < Qceiling q)%Z).
  { rewrite Zlt_Qlt. eapply Qlt_le_trans; [exact Hlo | apply Qle_ceiling]. }
  lia.
Qed.

Lemma py_int_between (q : Q) (k : Z) :
  0 <= k -> (inject_Z k <= q)%Q -> (q < inject_Z (k + 1))%Q -> py_int q = k.
Proof.
  intros Hk Hlo Hhi. unfold py_int.
  assert (Hq : Qle_bool 0 q = true).
  { apply Qle_bool_iff. eapply Qle_trans; [| exact Hlo].
    change 0%Q with (inject_Z 0). now rewrite <- Zle_Qle. }
  rewrite Hq. now apply Qfloor_between.
Qed.

Lemma pow2_float_inject (e : Z) :
  0 <= e -> (pow2_float (inject_Z e) == inject_Z (2 ^ e))%Q.
Proof.
  intros He. unfold pow2_float. rewrite Qfloor_Z.
  destruct e as [| p | p]; [reflexivity | | lia].
  change (2%Q) with (2 # 1). rewrite Qpower_decomp_pos.
  unfold Qeq. cbn [Qnum Qden inject_Z].
  rewrite Pos2Z.inj_pow, Z.pow_1_l by lia. reflexivity.
Qed.

(** ** What the script needs of [np.log2]

    For a length [L >= 1] the script relies on two properties of the
    double returned by [np.log2]: it is the exact integer on a power of
    two, and it grows strictly with [L].  Both hold for a logarithm with
    an error below one unit in the last place as long as lengths stay
    under about [2 ^ 45]; the bound is the exponent [E] below. *)
Section Log2Accuracy.
Variable np_log2 : Z -> Q.
Variable E : Z.

Hypothesis np_log2_pow2 :
  forall k, 0 <= k <= E -> (np_log2 (2 ^ k) == inject_Z k)%Q.
Hypothesis np_log2_incr :
  forall a b, 1 <= a < b -> b <= 2 ^ E -> (np_log2 a < np_log2 b)%Q.

Lemma np_log2_bracket (L k : Z) :
  0 <= k -> 2 ^ k < L < 2 ^ (k + 1) -> L <= 2 ^ E ->
  (inject_Z k < np_log2 L)%Q /\ (np_log2 L < inject_Z (k + 1))%Q.
Proof.
  intros Hk [Hlo Hhi] HE.
  assert (Hpos : 0 < 2 ^ k) by (apply Z.pow_pos_nonneg; lia).
  assert (HE0 : 0 <= E).
  { destruct (Z.lt_ge_cases E 0) as [Hn |]; [| lia].
    rewrite (Z.pow_neg_r 2 E Hn) in HE. lia. }
  assert (HkE : k < E).
  { apply (Z.pow_lt_mono_r_iff 2 k E); lia. }
  split.
  - rewrite <- (np_log2_pow2 k) by lia.
    apply np_log2_incr; lia.
  - rewrite <- (np_log2_pow2 (k + 1)) by lia.
    apply np_log2_incr; [lia |].
    apply Z.pow_le_mono_r; lia.
Qed.

Lemma num_recurrences_pow2 (x : Shape.shape) (k : Z) :
  0 <= k <= E -> Shape.size_last x = 2 ^ k ->
  ByteCNN.num_recurrences np_log2 x = Ok k.
Proof.
  intros Hk HL. unfold ByteCNN.num_recurrences. rewrite HL.
  assert (Hpos : 0 < 2 ^ k) by (apply Z.pow_pos_nonneg; lia).
  destruct (Z.leb_spec (2 ^ k) 0) as [Hneg |_]; [lia |].
  rewrite (py_int_comp _ _ (np_log2_pow2 k Hk)), py_int_inject.
  unfold py_float.
  assert (Heq : Qeq_bool (inject_Z k) (np_log2 (2 ^ k)) = true).
  { apply Qeq_bool_iff. symmetry. now apply np_log2_pow2. }
  now rewrite Heq.
Qed.

Lemma num_recurrences_not_pow2 (x : Shape.shape) :
  1 <= Shape.size_last x <= 2 ^ E ->
  (forall k, 0 <= k -> Shape.size_last x <> 2 ^ k) ->
  ByteCNN.num_recurrences np_log2 x = Raise AssertionError.
Proof.
  intros [H1 HE] Hnp. unfold ByteCNN.num_recurrences.
  set (L := Shape.size_last x) in *.
  destruct (Z.leb_spec L 0) as [Hneg |_]; [lia |].
  pose proof (Z.log2_nonneg L) as Hk0.
  destruct (Z.log2_spec L ltac:(lia)) as [Hlo Hhi].
  replace (Z.succ (Z.log2 L)) with (Z.log2 L + 1) in Hhi by lia.
  assert (Hlo' : 2 ^ Z.log2 L < L).
  { specialize (Hnp (Z.log2 L) Hk0). lia. }
  destruct (np_log2_bracket L (Z.log2 L) Hk0 (conj Hlo' Hhi) HE) as [Ha Hb].
  rewrite (py_int_between (np_log2 L) (Z.log2 L) Hk0 (Qlt_le_weak _ _ Ha) Hb).
  unfold py_float.
  destruct (Qeq_bool (inject_Z (Z.log2 L)) (np_log2 L)) eqn:Heq; [| reflexivity].
  apply Qeq_bool_iff in Heq. rewrite Heq in Ha.
  exfalso. exact (Qlt_irrefl _ Ha).
Qed.

(** C2 (amended).  For a batch whose trailing size [L] lies within a
    range [0 .. 2 ^ E] on which [np.log2] is exact on the powers of
    two and strictly increasing: when [L] is a power of two,
    [num_recurrences] returns the exponent, [log2 L]; for any other
    [L] it raises (the assertion fails, or [int] rejects the infinite
    logarithm of zero).  Outside such a range the rounding of
    [np.log2] lets a length that is no power of two pass. *)
Theorem num_recurrences_exactly_on_powers_of_two (x : Shape.shape) :
  0 <= Shape.size_last x <= 2 ^ E ->
  (forall k, 0 <= k -> Shape.size_last x = 2 ^ k ->
             ByteCNN.num_recurrences np_log2 x = Ok k)
  /\ ((forall k, 0 <= k -> Shape.size_last x <> 2 ^ k) ->
      ByteCNN.num_recurrences np_log2 x =
        Raise (if Shape.size_last x =? 0 then OverflowError
               else AssertionError)).
Proof.
  intros [H0 HE]. split.
  - intros k Hk HL. apply num_recurrences_pow2; [| exact HL].
    split; [exact Hk |].
    assert (HE0 : 0 <= E).
    { destruct (Z.lt_ge_cases E 0) as [Hn |]; [| lia].
      rewrite (Z.pow_neg_r 2 E Hn) in HE.
      assert (0 < 2 ^ k) by (apply Z.pow_pos_nonneg; lia). lia. }
    apply (Z.pow_le_mono_r_iff 2 k E); lia.
  - intros Hnp. destruct (Z.eqb_spec (Shape.size_last x) 0) as [Hz | Hnz].
    + unfold ByteCNN.num_recurrences. rewrite Hz. reflexivity.
    + apply num_recurrences_not_pow2; [lia | exact Hnp].
Qed.

(** *** Padding of a line *)

Lemma ceil_np_log2 (len : Z) :
  1 <= len <= 2 ^ E -> Qceiling (np_log2 len) = Z.log2_up len.
Proof.
  intros [H1 HE].
  assert (HE0 : 0 <= E).
  { destruct (Z.lt_ge_cases E 0) as [Hn |]; [| lia].
    rewrite (Z.pow_neg_r 2 E Hn) in HE. lia. }
  destruct (Z.eq_dec len 1) as [-> | Hne].
  - change (Qceiling (np_log2 (2 ^ 0)) = 0).
    rewrite (Qceiling_comp _ _ (np_log2_pow2 0 ltac:(lia))).
    now rewrite Qceiling_Z.
  - destruct (Z.log2_up_spec len ltac:(lia)) as [Hlo Hhi].
    pose proof (Z.log2_up_pos len ltac:(lia)) as He.
    set (e := Z.log2_up len) in *.
    replace (Z.pred e) with (e - 1) in Hlo by lia.
    apply Qceiling_between.
    + destruct (Z.eq_dec len (2 ^ e)) as [Heq | Hneq].
      * rewrite Heq. rewrite np_log2_pow2.
        { rewrite <- Zlt_Qlt. lia. }
        split; [lia |]. apply (Z.pow_le_mono_r_iff 2 e E); lia.
      * apply (np_log2_bracket len (e - 1)); [lia | | lia].
        replace (e - 1 + 1) with e by lia. lia.
    + destruct (Z.eq_dec len (2 ^ e)) as [Heq | Hneq].
      * rewrite Heq. rewrite np_log2_pow2; [apply Qle_refl |].
        split; [lia |]. apply (Z.pow_le_mono_r_iff 2 e E); lia.
      * apply Qlt_le_weak.
        assert (Hin : 2 ^ (e - 1) < len < 2 ^ (e - 1 + 1)).
        { replace (e - 1 + 1) with e by lia. lia. }
        destruct (np_log2_bracket len (e - 1) ltac:(lia) Hin HE) as [_ Hb].
        replace (e - 1 + 1) with e in Hb by lia. exact Hb.
Qed.

Lemma pad_line_eq (content : list Z) :
  let len := Z.of_nat (length content) + 1 in
  len <= 2 ^ E ->
  UTF8File.pad_line np_log2 content =
    content ++ UTF8File.EOS ::
      repeat UTF8File.EMPTY (Z.to_nat (2 ^ Z.log2_up len - len)).
Proof.
  intros len HE. unfold UTF8File.pad_line.
  assert (Hlen : Z.of_nat (length (content ++ [UTF8File.EOS])) = len).
  { rewrite length_app. cbn [length]. lia. }
  rewrite Hlen. unfold np_ceil.
  rewrite (ceil_np_log2 len) by lia.
  rewrite (py_int_comp _ _ (pow2_float_inject _ (Z.log2_up_nonneg len))).
  rewrite py_int_inject.
  now rewrite <- app_assoc.
Qed.

Lemma pad_line_length (content : list Z) :
  let len := Z.of_nat (length content) + 1 in
  len <= 2 ^ E ->
  Z.of_nat (length (UTF8File.pad_line np_log2 content)) = 2 ^ Z.log2_up len.
Proof.
  intros len HE. rewrite pad_line_eq by exact HE. fold len.
  rewrite length_app. cbn [length]. rewrite repeat_length.
  assert (Hle : len <= 2 ^ Z.log2_up len).
  { destruct (Z.eq_dec len 1) as [H1 | H1].
    - rewrite H1. cbn. lia.
    - apply Z.log2_up_spec. lia. }
  lia.
Qed.

(** *** The buckets built by [__init__] *)

Lemma bucket_append_In (k0 : Z) (r : UTF8File.row) (d : UTF8File.buckets)
    (k : Z) (rows : list UTF8File.row) (row : UTF8File.row) :
  In (k, rows) (UTF8File.bucket_append k0 r d) -> In row rows ->
  (exists rows', In (k, rows') d /\ In row rows') \/ (row = r /\ k = k0).
Proof.
  induction d as [| [k' rs] d IH]; cbn [UTF8File.bucket_append].
  - intros [Heq | []] Hrow. inversion Heq; subst.
    destruct Hrow as [-> | []]. now right.
  - destruct (Z.eqb_spec k0 k') as [-> | Hne].
    + intros [Heq | Hin] Hrow.
      * inversion Heq; subst. apply in_app_or in Hrow.
        destruct Hrow as [Hrow | [-> | []]]; [left | now right].
        exists rs. split; [now left | exact Hrow].
      * left. exists rows. split; [now right | exact Hrow].
    + intros [Heq | Hin] Hrow.
      * inversion Heq; subst. left. exists rows. split; [now left | exact Hrow].
      * destruct (IH Hin Hrow) as [[rows' [H1 H2]] | H]; [left | now right].
        exists rows'. split; [now right | exact H2].
Qed.

Lemma read_lines_stored (file : list (list Z)) :
  forall k rows row,
    In (k, rows) (UTF8File.read_lines np_log2 file) -> In row rows ->
    exists content,
      In content file /\ row = UTF8File.pad_line np_log2 content
      /\ k = Z.of_nat (length row).
Proof.
  unfold UTF8File.read_lines.
  assert (Hgen : forall (l : list (list Z)) (d : UTF8File.buckets),
    (forall c, In c l -> In c file) ->
    (forall k rows row, In (k, rows) d -> In row rows ->
       exists content, In content file
         /\ row = UTF8File.pad_line np_log2 content
         /\ k = Z.of_nat (length row)) ->
    forall k rows row,
      In (k, rows)
         (fold_left
            (fun d content =>
               let bytes_ := UTF8File.pad_line np_log2 content in
               UTF8File.bucket_append (Z.of_nat (length bytes_)) bytes_ d)
            l d) ->
      In row rows ->
      exists content, In content file
        /\ row = UTF8File.pad_line np_log2 content
        /\ k = Z.of_nat (length row)).
  { induction l as [| c l IH]; intros d Hsub Hd; cbn [fold_left].
    - exact Hd.
    - apply IH.
      + intros c' Hc'. apply Hsub. now right.
      + intros k rows row Hin Hrow.
        destruct (bucket_append_In _ _ _ _ _ _ Hin Hrow)
          as [[rows' [H1 H2]] | [-> ->]].
        * exact (Hd _ _ _ H1 H2).
        * exists c. split; [apply Hsub; now left | split; reflexivity]. }
  apply (Hgen file []).
  - auto.
  - intros k rows row [].
Qed.

(** C5 (amended).  For every line the loader stores the line's bytes,
    then EOS, then PAD symbols only, and the stored length is the
    smallest power of two that is at least the content length plus one;
    hence every
    sequence held in a bucket has this form, its length is a power of
    two (the key of its bucket) and exceeds the content length, and the
    padding lies after the EOS that closes the content: when the text
    itself holds no byte of the PAD value, no PAD occurs before that
    EOS. *)
Theorem padded_length_is_next_power_of_two (file : list (list Z)) :
  Forall (fun content => Z.of_nat (length content) + 1 <= 2 ^ E) file ->
  (forall content, In content file ->
     exists e pad,
       0 <= e
       /\ UTF8File.pad_line np_log2 content =
            content ++ UTF8File.EOS :: repeat UTF8File.EMPTY pad
       /\ Z.of_nat (length (UTF8File.pad_line np_log2 content)) = 2 ^ e
       /\ Z.of_nat (length content) + 1 <= 2 ^ e
       /\ (forall e', 0 <= e' ->
             Z.of_nat (length content) + 1 <= 2 ^ e' -> e <= e')
       /\ (~ In UTF8File.EMPTY content ->
           forall i, nth i (UTF8File.pad_line np_log2 content) 0
                     = UTF8File.EMPTY ->
                     (length content < i)%nat))
  /\ (forall k rows row,
        In (k, rows) (UTF8File.read_lines np_log2 file) -> In row rows ->
        exists content e pad,
          In content file
          /\ row = content ++ UTF8File.EOS :: repeat UTF8File.EMPTY pad
          /\ 0 <= e /\ Z.of_nat (length row) = 2 ^ e /\ k = 2 ^ e
          /\ Z.of_nat (length content) + 1 <= Z.of_nat (length row)).
Proof.
  intros Hfile. rewrite List.Forall_forall in Hfile.
  assert (Hline : forall content, In content file ->
     exists e pad,
       0 <= e
       /\ UTF8File.pad_line np_log2 content =
            content ++ UTF8File.EOS :: repeat UTF8File.EMPTY pad
       /\ Z.of_nat (length (UTF8File.pad_line np_log2 content)) = 2 ^ e
       /\ Z.of_nat (length content) + 1 <= 2 ^ e
       /\ (forall e', 0 <= e' ->
             Z.of_nat (length content) + 1 <= 2 ^ e' -> e <= e')
       /\ (~ In UTF8File.EMPTY content ->
           forall i, nth i (UTF8File.pad_line np_log2 content) 0
                     = UTF8File.EMPTY ->
                     (length content < i)%nat)).
  { intros content Hin. specialize (Hfile content Hin). cbv beta in Hfile.
    set (len := Z.of_nat (length content) + 1) in *.
    exists (Z.log2_up len), (Z.to_nat (2 ^ Z.log2_up len - len)).
    split; [apply Z.log2_up_nonneg |].
    split; [now apply pad_line_eq |].
    split; [now apply pad_line_length |].
    split.
    { destruct (Z.eq_dec len 1) as [H1 | H1].
      - rewrite H1. cbn. lia.
      - apply Z.log2_up_spec. lia. }
    split; [intros e' He' Hle; apply Z.log2_up_le_pow2; lia |].
    intros Hreserved i Hi. rewrite pad_line_eq in Hi by exact Hfile.
    destruct (Nat.lt_trichotomy i (length content)) as [Hlt | [Heq | Hgt]];
      [| | exact Hgt].
    - exfalso. rewrite app_nth1 in Hi by exact Hlt.
      apply Hreserved. rewrite <- Hi. now apply nth_In.
    - exfalso. rewrite Heq, nth_middle in Hi. discriminate. }
  split; [exact Hline |].
  intros k rows row Hin Hrow.
  destruct (read_lines_stored file k rows row Hin Hrow)
    as [content [Hc [-> ->]]].
  destruct (Hline content Hc) as [e [pad [He [Heq [Hlen [Hle _]]]]]].
  exists content, e, pad. repeat split; try assumption. lia.
Qed.

End Log2Accuracy.

(** ** The reference logarithm meets both requirements *)

Lemma pl_log2_pow2 (k : Z) :
  0 <= k -> (Reference.pl_log2 (2 ^ k) == inject_Z k)%Q.
Proof.
  intros Hk. unfold Reference.pl_log2. rewrite Z.log2_pow2 by exact Hk.
  assert (Hpos : 0 < 2 ^ k) by (apply Z.pow_pos_nonneg; lia).
  unfold Qeq. cbn [Qnum Qden inject_Z].
  rewrite Z2Pos.id by exact Hpos. lia.
Qed.

Lemma pl_log2_incr (a b : Z) :
  1 <= a < b -> (Reference.pl_log2 a < Reference.pl_log2 b)%Q.
Proof.
  intros [Ha Hab]. unfold Reference.pl_log2.
  destruct (Z.log2_spec a ltac:(lia)) as [Ha1 Ha2].
  destruct (Z.log2_spec b ltac:(lia)) as [Hb1 Hb2].
  pose proof (Z.log2_nonneg a) as Hka.
  pose proof (Z.log2_le_mono a b ltac:(lia)) as Hkab.
  set (ka := Z.log2 a) in *. set (kb := Z.log2 b) in *.
  assert (HA : 0 < 2 ^ ka) by (apply Z.pow_pos_nonneg; lia).
  assert (HB : 0 < 2 ^ kb) by (apply Z.pow_pos_nonneg; lia).
  unfold Qlt. cbn [Qnum Qden].
  rewrite !Z2Pos.id by assumption.
  destruct (Z.eq_dec ka kb) as [Heq | Hne].
  - rewrite <- Heq in *. nia.
  - assert (Hstep : 2 * 2 ^ ka <= 2 ^ kb).
    { replace (2 * 2 ^ ka) with (2 ^ (ka + 1)).
      - apply Z.pow_le_mono_r; lia.
      - rewrite Z.pow_add_r by lia. lia. }
    replace (Z.succ ka) with (ka + 1) in Ha2 by lia.
    rewrite Z.pow_add_r in Ha2 by lia.
    set (A := 2 ^ ka) in *. set (B := 2 ^ kb) in *.
    assert (H1 : (ka * A + (a - A)) * B < (ka + 1) * A * B) by nia.
    assert (H2 : (ka + 1) * A * B <= kb * A * B).
    { apply Z.mul_le_mono_nonneg_r; [lia |].
      apply Z.mul_le_mono_nonneg_r; lia. }
    assert (H3 : kb * A * B <= (kb * B + (b - B)) * A) by nia.
    lia.
Qed.

(** [num_recurrences] on lengths 64 and 100, through the theorem. *)
Lemma num_recurrences_exactly_on_powers_of_two_witness :
  ByteCNN.num_recurrences Reference.pl_log2 [10; 64] = Ok 6
  /\ ByteCNN.num_recurrences Reference.pl_log2 [10; 100] = Raise AssertionError.
Proof.
  split.
  - apply (proj1 (num_recurrences_exactly_on_powers_of_two
                    Reference.pl_log2 45
                    (fun k Hk => pl_log2_pow2 k (proj1 Hk))
                    (fun a b Hab _ => pl_log2_incr a b Hab)
                    [10; 64] ltac:(cbn; lia)) 6 ltac:(lia) eq_refl).
  - apply (proj2 (num_recurrences_exactly_on_powers_of_two
                    Reference.pl_log2 45
                    (fun k Hk => pl_log2_pow2 k (proj1 Hk))
                    (fun a b Hab _ => pl_log2_incr a b Hab)
                    [10; 100] ltac:(cbn; lia))).
    intros k Hk. cbn [Shape.size_last List.last].
    destruct (Z_le_gt_dec k 6) as [Hle | Hgt].
    + assert (2 ^ k <= 2 ^ 6) by (apply Z.pow_le_mono_r; lia). lia.
    + assert (2 ^ 7 <= 2 ^ k) by (apply Z.pow_le_mono_r; lia). lia.
Defined.

(** *** Lengths beyond the accurate range *)

(** [(1 + 1/a)^n] stays below [1 / (1 - n/a)]. *)
Lemma pow_succ_bound (a : Z) (m : nat) :
  Z.of_nat m <= a ->
  (a + 1) ^ Z.of_nat m * (a - Z.of_nat m) <= a ^ (Z.of_nat m + 1).
Proof.
  induction m as [| m IH]; intros Hle.
  - cbn [Z.of_nat]. rewrite Z.pow_0_r, Z.add_0_l, Z.pow_1_r. lia.
  - rewrite Nat2Z.inj_succ in Hle |- *.
    specialize (IH ltac:(lia)).
    set (M := Z.of_nat m) in *.
    assert (HM : 0 <= M) by (unfold M; lia).
    replace (Z.succ M + 1) with (Z.succ (Z.succ M)) by lia.
    replace (M + 1) with (Z.succ M) in IH by lia.
    rewrite (Z.pow_succ_r (a + 1) M) by exact HM.
    rewrite (Z.pow_succ_r a (Z.succ M)) by lia.
    rewrite (Z.pow_succ_r a M) in IH |- * by exact HM.
    set (p := (a + 1) ^ M) in *.
    set (q := a ^ M) in *.
    assert (Hp : 0 <= p) by (apply Z.pow_nonneg; lia).
    assert (Hstep : (a + 1) * (a - Z.succ M) <= a * (a - M)) by nia.
    transitivity (p * (a * (a - M))).
    + replace ((a + 1) * p * (a - Z.succ M))
        with (p * ((a + 1) * (a - Z.succ M))) by lia.
      apply Z.mul_le_mono_nonneg_l; [exact Hp | exact Hstep].
    + replace (p * (a * (a - M))) with (a * (p * (a - M))) by lia.
      apply Z.mul_le_mono_nonneg_l; [lia | exact IH].
Qed.

Lemma pow_succ_le_double (a n : Z) :
  0 < a -> 0 <= n -> 2 * n <= a -> (a + 1) ^ n <= 2 * a ^ n.
Proof.
  intros Ha Hn Hhalf.
  pose proof (pow_succ_bound a (Z.to_nat n)) as Hb.
  rewrite Z2Nat.id in Hb by exact Hn. specialize (Hb ltac:(lia)).
  replace (n + 1) with (Z.succ n) in Hb by lia.
  rewrite Z.pow_succ_r in Hb by exact Hn.
  set (p := (a + 1) ^ n) in *. set (q := a ^ n) in *.
  assert (Hp : 0 <= p) by (apply Z.pow_nonneg; lia).
  assert (Hq : 0 <= q) by (apply Z.pow_nonneg; lia).
  assert (H2 : p * a <= 2 * (p * (a - n))) by nia.
  assert (H3 : p * a <= 2 * q * a) by lia.
  apply (Z.mul_le_mono_pos_r _ _ a Ha). lia.
Qed.

(** The claim as worded fails on a length next to a large power of
    two.  The logarithm of [2^49 + 1] lies above 49 by at most [2^-48],
    half the spacing [2^-47] of the doubles between 32 and 64, so the
    double nearest to it is 49: [np.log2] returns [49.0], the assertion
    holds and [num_recurrences] returns 49 for a length that is no
    power of two. *)
Lemma num_recurrences_accepts_a_length_next_to_a_power_of_two :
  ByteCNN.num_recurrences Reference.double_log2 [1; 2 ^ 49 + 1] = Ok 49
  /\ (forall k, 0 <= k -> 2 ^ 49 + 1 <> 2 ^ k)
  /\ (2 ^ 49) ^ (2 ^ 48) < (2 ^ 49 + 1) ^ (2 ^ 48)
  /\ (2 ^ 49 + 1) ^ (2 ^ 48) <= 2 * (2 ^ 49) ^ (2 ^ 48)
  /\ ByteCNN.num_recurrences Reference.double_log2 [1; 2 ^ 49]
     = ByteCNN.num_recurrences Reference.double_log2 [1; 2 ^ 49 + 1]
  /\ ByteCNN.num_recurrences Reference.double_log2 [1; 100]
     = Raise AssertionError.
Proof.
  assert (Hpos : 0 < 2 ^ 49) by (apply Z.pow_pos_nonneg; lia).
  assert (Hexp : 0 < 2 ^ 48) by (apply Z.pow_pos_nonneg; lia).
  assert (Hhalf : 2 * 2 ^ 48 <= 2 ^ 49) by (vm_compute; discriminate).
  split; [vm_compute; reflexivity |].
  split.
  { intros k Hk Heq.
    destruct (Z_le_gt_dec k 49) as [Hle | Hgt].
    - assert (2 ^ k <= 2 ^ 49) by (apply Z.pow_le_mono_r; lia). lia.
    - assert (Hbig : 2 ^ 50 <= 2 ^ k) by (apply Z.pow_le_mono_r; lia).
      replace (2 ^ 50) with (2 * 2 ^ 49) in Hbig by reflexivity. lia. }
  split.
  { apply Z.pow_lt_mono_l; [exact Hexp | lia]. }
  split.
  { apply pow_succ_le_double; [exact Hpos | lia | exact Hhalf]. }
  split; vm_compute; reflexivity.
Qed.

Example pad_line_hi :
  UTF8File.pad_line Reference.pl_log2 [104; 105] = [104; 105; 0; 7].
Proof. vm_compute. reflexivity. Qed.

Example pad_line_empty : UTF8File.pad_line Reference.pl_log2 [] = [0].
Proof. vm_compute. reflexivity. Qed.

Example num_recurrences_of_zero_length :
  ByteCNN.num_recurrences Reference.pl_log2 [10; 0] = Raise OverflowError.
Proof. reflexivity. Qed.

(** A line whose text is the single byte 7: the stored row holds the PAD
    value at index 0, before its first EOS at index 1. *)
Lemma pad_value_in_text_precedes_eos :
  let row := UTF8File.pad_line Reference.pl_log2 [7] in
  row = [7; 0]
  /\ nth 0 row 0 = UTF8File.EMPTY
  /\ ByteCNN.index UTF8File.EOS row = Some 1%nat.
Proof. vm_compute. repeat split. Qed.

(** The line "hi" of the specification, through the theorem. *)
Lemma padded_length_is_next_power_of_two_witness :
  exists e pad,
    0 <= e
    /\ UTF8File.pad_line Reference.pl_log2 [104; 105] =
         [104; 105] ++ UTF8File.EOS :: repeat UTF8File.EMPTY pad
    /\ Z.of_nat (length (UTF8File.pad_line Reference.pl_log2 [104; 105])) = 2 ^ e
    /\ Z.of_nat (length [104; 105]) + 1 <= 2 ^ e
    /\ (forall e', 0 <= e' ->
          Z.of_nat (length [104; 105]) + 1 <= 2 ^ e' -> e <= e')
    /\ (~ In UTF8File.EMPTY [104; 105] ->
        forall i, nth i (UTF8File.pad_line Reference.pl_log2 [104; 105]) 0
                  = UTF8File.EMPTY ->
                  (length [104; 105] < i)%nat).
Proof.
  assert (Hfile : List.Forall
            (fun content : list Z => Z.of_nat (length content) + 1 <= 2 ^ 45)
            [[104; 105]]).
  { constructor; [| constructor]. cbn [length]. lia. }
  apply (proj1 (padded_length_is_next_power_of_two
                  Reference.pl_log2 45
                  (fun k Hk => pl_log2_pow2 k (proj1 Hk))
                  (fun a b Hab _ => pl_log2_incr a b Hab)
                  [[104; 105]] Hfile)).
  now left.
Defined.

(** ** Splitting a bucket into batches *)

Lemma list_sum_repeat (a m : nat) : list_sum (repeat a m) = (m * a)%nat.
Proof.
  induction m as [| m IH]; [reflexivity |].
  change (a + list_sum (repeat a m) = S m * a)%nat. rewrite IH. lia.
Qed.

Lemma section_sizes_sum (n k : nat) :
  (0 < k)%nat -> list_sum (UTF8File.section_sizes n k) = n.
Proof.
  intros Hk. unfold UTF8File.section_sizes.
  rewrite list_sum_app, !list_sum_repeat.
  pose proof (Nat.div_mod_eq n k) as Hdm.
  pose proof (Nat.mod_upper_bound n k ltac:(lia)) as Hub.
  nia.
Qed.

Lemma section_sizes_length (n k : nat) :
  (0 < k)%nat -> length (UTF8File.section_sizes n k) = k.
Proof.
  intros Hk. unfold UTF8File.section_sizes.
  rewrite length_app, !repeat_length.
  pose proof (Nat.mod_upper_bound n k ltac:(lia)). lia.
Qed.

Lemma section_sizes_near (n k s : nat) :
  In s (UTF8File.section_sizes n k) -> s = (n / k)%nat \/ s = S (n / k).
Proof.
  unfold UTF8File.section_sizes. intros Hin.
  apply in_app_or in Hin. destruct Hin as [Hin | Hin];
    apply repeat_spec in Hin; auto.
Qed.

Lemma split_sizes_concat {A} (sizes : list nat) (ary : list A) :
  concat (UTF8File.split_sizes ary sizes) = firstn (list_sum sizes) ary.
Proof.
  revert ary. induction sizes as [| s sizes IH]; intros ary.
  - reflexivity.
  - change (list_sum (s :: sizes)) with (s + list_sum sizes)%nat.
    cbn [UTF8File.split_sizes concat]. rewrite IH. apply take_take_drop.
Qed.

Lemma split_sizes_lengths {A} (sizes : list nat) (ary : list A) :
  (list_sum sizes <= length ary)%nat ->
  map (@length A) (UTF8File.split_sizes ary sizes) = sizes.
Proof.
  revert ary. induction sizes as [| s sizes IH]; intros ary Hle.
  - reflexivity.
  - change (list_sum (s :: sizes)) with (s + list_sum sizes)%nat in Hle.
    cbn [UTF8File.split_sizes map]. rewrite IH.
    + f_equal. rewrite length_firstn. lia.
    + rewrite length_skipn. lia.
Qed.

Lemma array_split_concat {A} (ary : list A) (k : nat) :
  (0 < k)%nat -> concat (UTF8File.array_split ary k) = ary.
Proof.
  intros Hk. unfold UTF8File.array_split.
  rewrite split_sizes_concat, section_sizes_sum by exact Hk.
  apply firstn_all.
Qed.

Lemma array_split_length {A} (ary : list A) (k : nat) :
  (0 < k)%nat -> length (UTF8File.array_split ary k) = k.
Proof.
  intros Hk.
  rewrite <- (length_map (@length A)).
  unfold UTF8File.array_split.
  rewrite split_sizes_lengths.
  - now apply section_sizes_length.
  - rewrite section_sizes_sum by exact Hk. lia.
Qed.

Lemma array_split_near {A} (ary : list A) (k : nat) (chunk : list A) :
  (0 < k)%nat -> In chunk (UTF8File.array_split ary k) ->
  length chunk = (length ary / k)%nat \/ length chunk = S (length ary / k).
Proof.
  intros Hk Hin. apply (section_sizes_near (length ary) k).
  rewrite <- (split_sizes_lengths (UTF8File.section_sizes (length ary) k) ary).
  - apply in_map. exact Hin.
  - rewrite section_sizes_sum by exact Hk. lia.
Qed.

Lemma eval_batches_ok (d : UTF8File.buckets) (bsz : Z) :
  bsz <> 0 ->
  UTF8File.eval_batches d bsz =
    Ok (flat_map
          (fun '(_, data) =>
             UTF8File.array_split data
               (Z.to_nat (Z.max 1 (Z.of_nat (length data) / bsz)))) d).
Proof.
  intros Hb. induction d as [| [len_ data] d IH]; cbn [UTF8File.eval_batches flat_map].
  - reflexivity.
  - destruct (Z.eqb_spec bsz 0) as [| _]; [contradiction |].
    rewrite IH. reflexivity.
Qed.

(** C9.  Evaluation-mode iteration does not read any random generator:
    two loaders holding the same file produce the same batches in the
    same order, whatever their seeds and the state of the module-level
    generator, which is left untouched.  The batches are those of the
    buckets, bucket after bucket; the chunks of a bucket are its rows in
    order with none missing, there are [max(1, n // bsz)] of them, and
    their sizes differ by at most one. *)
Theorem evaluation_iteration_is_deterministic
    (R : UTF8File.np_random) (f1 f2 : UTF8File.t R) (bsz : Z)
    (g1 g2 : UTF8File.rng_state R) :
  bsz <> 0 ->
  UTF8File.lines f1 = UTF8File.lines f2 ->
  exists batches,
    UTF8File.iter_epoch R f1 bsz true g1 = (Ok batches, g1)
    /\ UTF8File.iter_epoch R f2 bsz true g2 = (Ok batches, g2)
    /\ batches =
         flat_map
           (fun '(_, data) =>
              UTF8File.array_split data
                (Z.to_nat (Z.max 1 (Z.of_nat (length data) / bsz))))
           (UTF8File.lines f1)
    /\ (forall len_ data, In (len_, data) (UTF8File.lines f1) ->
          let k := Z.to_nat (Z.max 1 (Z.of_nat (length data) / bsz)) in
          let chunks := UTF8File.array_split data k in
          concat chunks = data
          /\ length chunks = k
          /\ (forall chunk, In chunk chunks ->
                length chunk = (length data / k)%nat
                \/ length chunk = S (length data / k))).
Proof.
  intros Hb Hlines.
  eexists. unfold UTF8File.iter_epoch. rewrite <- Hlines.
  rewrite (eval_batches_ok _ bsz Hb).
  split; [reflexivity |]. split; [reflexivity |]. split; [reflexivity |].
  intros len_ data _.
  set (k := Z.to_nat (Z.max 1 (Z.of_nat (length data) / bsz))).
  assert (Hk : (0 < k)%nat) by (unfold k; lia).
  split; [now apply array_split_concat |].
  split; [now apply array_split_length |].
  intros chunk Hin. now apply array_split_near.
Qed.

(** Two loaders over one file with different seeds, evaluation mode. *)
Lemma evaluation_iteration_is_deterministic_witness :
  let file := [[104; 105]; [72; 73]; [97; 98]; [97]; [99; 100]; [101; 102]] in
  let f1 := UTF8File.init Reference.pl_log2 Reference.lcg file 1111 in
  let f2 := UTF8File.init Reference.pl_log2 Reference.lcg file 2222 in
  exists batches,
    UTF8File.iter_epoch Reference.lcg f1 2 true 5 = (Ok batches, 5)
    /\ UTF8File.iter_epoch Reference.lcg f2 2 true 9 = (Ok batches, 9)
    /\ batches = [[[104; 105; 0; 7]; [72; 73; 0; 7]; [97; 98; 0; 7]];
                  [[99; 100; 0; 7]; [101; 102; 0; 7]];
                  [[97; 0]]].
Proof.
  intros file f1 f2.
  destruct (evaluation_iteration_is_deterministic
              Reference.lcg f1 f2 2 5 9 ltac:(discriminate) eq_refl)
    as [batches [H1 [H2 [H3 _]]]].
  exists batches. split; [exact H1 |]. split; [exact H2 |].
  rewrite H3. vm_compute. reflexivity.
Defined.

(** ** Training-mode iteration and the seed of the loader *)

(** The training branch reads [self.lines] and the module-level
    generator only: [self.rng] does not occur in it. *)
Lemma training_iteration_reads_no_loader_seed
    (R : UTF8File.np_random) (f1 f2 : UTF8File.t R) (bsz : Z)
    (g : UTF8File.rng_state R) :
  UTF8File.lines f1 = UTF8File.lines f2 ->
  UTF8File.iter_epoch R f1 bsz false g = UTF8File.iter_epoch R f2 bsz false g.
Proof.
  intros Hlines. unfold UTF8File.iter_epoch. now rewrite Hlines.
Qed.

(** C8.  Two loaders built over the same file with the same seed 1111
    yield different batch orders in training mode as soon as the
    module-level generator is in different states, and a loader built
    with any other seed yields the order of the first when that state is
    the same: the order is a function of the module-level generator, not
    of the seed given to the loader. *)
Theorem training_order_not_determined_by_loader_seed :
  let file := [[97; 98]; [99; 100]; [101; 102]; [103; 104]] in
  let load := UTF8File.init Reference.pl_log2 Reference.lcg file in
  fst (UTF8File.iter_epoch Reference.lcg (load 1111) 1 false 1)
    <> fst (UTF8File.iter_epoch Reference.lcg (load 1111) 1 false 2)
  /\ (forall seed,
        UTF8File.iter_epoch Reference.lcg (load seed) 1 false 1
        = UTF8File.iter_epoch Reference.lcg (load 1111) 1 false 1).
Proof.
  intros file load. split.
  - vm_compute. discriminate.
  - intros seed. now apply training_iteration_reads_no_loader_seed.
Qed.

(** ** Shapes through the encoder and the decoder *)

(** Decide the integer tests met while a shape is pushed through a
    layer. *)
Ltac ztest :=
  repeat match goal with
    | |- context [?a =? ?b] =>
        first [ rewrite (proj2 (Z.eqb_eq a b)) by lia
              | rewrite (proj2 (Z.eqb_neq a b)) by lia ]
    | |- context [?a <=? ?b] =>
        first [ rewrite (proj2 (Z.leb_le a b)) by lia
              | rewrite (proj2 (Z.leb_gt a b)) by lia ]
    | |- context [?a <? ?b] =>
        first [ rewrite (proj2 (Z.ltb_lt a b)) by lia
              | rewrite (proj2 (Z.ltb_ge a b)) by lia ]
    end.

Lemma expands_to_refl (s : Shape.shape) : Shape.expands_to s s = true.
Proof.
  induction s as [| a s IH]; cbn [Shape.expands_to]; [reflexivity |].
  now rewrite Z.eqb_refl, IH.
Qed.

Lemma iadd_same (s : Shape.shape) : Shape.iadd s s = Ok s.
Proof. unfold Shape.iadd. now rewrite expands_to_refl. Qed.

Section ShapeFacts.
Import Shape.
Variables N e : Z.

Lemma conv_proto_shape (L : Z) :
  1 <= L -> forward (conv_proto e) [N; e; L] = Ok [N; e; L].
Proof.
  intros HL. cbn [forward conv_proto conv1d_shape]. ztest.
  cbn [andb]. rewrite Z.div_1_r.
  replace (L + 2 * 1 - 3 + 1) with L by lia. reflexivity.
Qed.

Lemma residual_conv_shape (L : Z) (out_relu : bool) :
  1 <= L ->
  forward (Residual (conv_proto e) out_relu) [N; e; L]
  = Ok [N; e; L].
Proof.
  intros HL. cbn [forward]. fold (conv_proto e).
  change (conv1d_shape e e 3 1 1) with (forward (conv_proto e)).
  rewrite conv_proto_shape by exact HL. cbn [rbind].
  rewrite conv_proto_shape by exact HL. cbn [rbind].
  apply iadd_same.
Qed.

Lemma residual_linear_shape (out_relu : bool) :
  forward (Residual (linear_proto e) out_relu) [N; e * 4]
  = Ok [N; e * 4].
Proof.
  cbn [forward linear_proto]. unfold linear_shape.
  cbn [rev app]. rewrite Z.eqb_refl. cbn [rbind rev app].
  rewrite Z.eqb_refl. cbn [rbind]. apply iadd_same.
Qed.

Lemma sequential_app (ls1 ls2 : list layer) (s s1 : shape) :
  sequential ls1 s = Ok s1 ->
  sequential (ls1 ++ ls2) s = sequential ls2 s1.
Proof.
  revert s. induction ls1 as [| l ls1 IH]; intros s H; cbn in *.
  - now inversion H.
  - destruct (forward l s) as [s' | err]; cbn in *; [| discriminate].
    now apply IH.
Qed.

Lemma sequential_residual_list (proto : layer) (k : Z) (s : shape) :
  forward (Residual proto true) s = Ok s ->
  sequential (residual_list proto k) s = Ok s.
Proof.
  intros Hfix. unfold residual_list.
  induction (Z.to_nat k) as [| m IH]; cbn [repeat sequential].
  - reflexivity.
  - rewrite Hfix. cbn [rbind]. exact IH.
Qed.

(** One application of the encoder's recurrent block halves the
    length. *)
Lemma encoder_recurrent_halves (n L : Z) :
  1 <= L ->
  sequential (residual_list (conv_proto e) (n / 2) ++ [MaxPool1d 2])
    [N; e; 2 * L]
  = Ok [N; e; L].
Proof.
  intros HL.
  rewrite (sequential_app _ _ _ [N; e; 2 * L]).
  - cbn [sequential forward]. ztest. cbn [andb rbind].
    replace (2 * L - 2) with ((L - 1) * 2) by lia.
    rewrite Z.div_mul by lia.
    replace (L - 1 + 1) with L by lia. reflexivity.
  - apply sequential_residual_list, residual_conv_shape. lia.
Qed.

(** One application of the decoder's recurrent block doubles it. *)
Lemma decoder_recurrent_doubles (n L : Z) :
  1 <= L ->
  sequential
    ([expand_proto e; ReLU; conv_proto e; ReLU]
       ++ residual_list (conv_proto e) (n / 2 - 1))
    [N; e; L]
  = Ok [N; e; 2 * L].
Proof.
  intros HL.
  rewrite (sequential_app _ _ _ [N; e; 2 * L]).
  - apply sequential_residual_list, residual_conv_shape. lia.
  - cbn [sequential]. cbn [forward expand_proto conv1d_shape]. ztest.
    cbn [andb rbind size nth]. rewrite Z.div_1_r.
    replace (L + 2 * 1 - 3 + 1) with L by lia.
    rewrite Z.div_mul by lia.
    unfold view. cbn [numel fold_right]. ztest.
    cbn [rbind transpose_2_3 numel fold_right]. ztest. cbn [rbind].
    rewrite conv_proto_shape by lia. reflexivity.
Qed.

Lemma encoder_recurrence (n : Z) (j : nat) (m : Z) :
  0 <= m ->
  repeat_apply j
    (sequential (residual_list (conv_proto e) (n / 2) ++ [MaxPool1d 2]))
    [N; e; 2 ^ (m + Z.of_nat j)]
  = Ok [N; e; 2 ^ m].
Proof.
  intros Hm. induction j as [| j IH]; cbn [repeat_apply].
  - now rewrite Z.add_0_r.
  - replace (2 ^ (m + Z.of_nat (S j))) with (2 * 2 ^ (m + Z.of_nat j)).
    + rewrite encoder_recurrent_halves.
      * exact IH.
      * assert (0 < 2 ^ (m + Z.of_nat j)) by (apply Z.pow_pos_nonneg; lia).
        lia.
    + replace (m + Z.of_nat (S j)) with (Z.succ (m + Z.of_nat j)) by lia.
      rewrite Z.pow_succ_r by lia. reflexivity.
Qed.

Lemma decoder_recurrence (n : Z) (j : nat) (m : Z) :
  0 <= m ->
  repeat_apply j
    (sequential
       ([expand_proto e; ReLU; conv_proto e; ReLU]
          ++ residual_list (conv_proto e) (n / 2 - 1)))
    [N; e; 2 ^ m]
  = Ok [N; e; 2 ^ (m + Z.of_nat j)].
Proof.
  revert m. induction j as [| j IH]; intros m Hm; cbn [repeat_apply].
  - now rewrite Z.add_0_r.
  - rewrite decoder_recurrent_doubles.
    + cbn [rbind]. rewrite <- Z.pow_succ_r by exact Hm.
      rewrite IH by lia.
      replace (Z.succ m + Z.of_nat j) with (m + Z.of_nat (S j)) by lia.
      reflexivity.
    + assert (0 < 2 ^ m) by (apply Z.pow_pos_nonneg; lia). lia.
Qed.

End ShapeFacts.

Lemma decoder_forward_shape (n emsize bsz r : Z) (self : ByteCNNDecoder.t) :
  ByteCNNDecoder.init n emsize = Ok self -> 2 <= r ->
  ByteCNNDecoder.forward self [bsz; emsize * 4] r = Ok [bsz; emsize; 2 ^ r]
  /\ Shape.repeat_apply (Z.to_nat (r - 2))
       (Shape.sequential (ByteCNNDecoder.recurrent self)) [bsz; emsize; 4]
     = Ok [bsz; emsize; 2 ^ r].
Proof.
  intros Hinit Hr. unfold ByteCNNDecoder.init in Hinit.
  destruct (negb (n mod 2 =? 0)); [discriminate |].
  inversion Hinit as [Hself]. clear Hinit.
  assert (Hpow : 1 <= 2 ^ r).
  { assert (0 < 2 ^ r) by (apply Z.pow_pos_nonneg; lia). lia. }
  assert (Hrec :
    Shape.repeat_apply (Z.to_nat (r - 2))
      (Shape.sequential
         ([Shape.expand_proto emsize; Shape.ReLU; Shape.conv_proto emsize;
           Shape.ReLU]
            ++ Shape.residual_list (Shape.conv_proto emsize) (n / 2 - 1)))
      [bsz; emsize; 4]
    = Ok [bsz; emsize; 2 ^ r]).
  { replace r with (2 + Z.of_nat (Z.to_nat (r - 2))) at 2 by lia.
    apply (decoder_recurrence bsz emsize n (Z.to_nat (r - 2)) 2). lia. }
  split; [| exact Hrec].
  unfold ByteCNNDecoder.forward.
  cbn [ByteCNNDecoder.prefix ByteCNNDecoder.recurrent
       ByteCNNDecoder.postfix ByteCNNDecoder.emsize].
  rewrite sequential_residual_list by apply residual_linear_shape.
  cbn [rbind Shape.size nth]. unfold Shape.view.
  cbn [Shape.numel fold_right].
  replace (bsz * (emsize * 4 * 1)) with (bsz * (emsize * (4 * 1))) by lia.
  rewrite Z.eqb_refl. cbn [rbind]. cbn [app] in Hrec.
  rewrite Hrec. cbn [rbind].
  apply sequential_residual_list, residual_conv_shape. exact Hpow.
Qed.

(** *** Batches of byte sequences *)

Lemma sizes_of_batch (x : Shape.indices) (bsz L : Z) :
  Z.of_nat (length x) = bsz -> 0 < bsz ->
  (forall row, In row x -> Z.of_nat (length row) = L) ->
  Shape.sizes_of x = [bsz; L].
Proof.
  intros Hlen Hb Hrows. unfold Shape.sizes_of. rewrite Hlen.
  destruct x as [| row x]; [cbn in Hlen; lia |].
  cbn [hd]. now rewrite (Hrows row (or_introl eq_refl)).
Qed.

Lemma in_table_entries (t : Shape.embedding_table) (x : Shape.indices) :
  (forall row, In row x ->
     forall c, In c row -> 0 <= c < Shape.num_embeddings t) ->
  Shape.in_table t x = true.
Proof.
  intros H. unfold Shape.in_table. apply List.forallb_forall. intros row Hrow.
  apply List.forallb_forall. intros c Hc. specialize (H row Hrow c Hc).
  apply andb_true_intro. split; [apply Z.leb_le | apply Z.ltb_lt]; lia.
Qed.

(** *** What the layers accept *)

Lemma iadd_inv (out residual s' : Shape.shape) :
  Shape.iadd out residual = Ok s' ->
  s' = out /\ Shape.expands_to (rev residual) (rev out) = true.
Proof.
  unfold Shape.iadd.
  destruct (Shape.expands_to (rev residual) (rev out)); [| discriminate].
  intros H. injection H as <-. now split.
Qed.

Lemma residual_forward_inv (l : Shape.layer) (out_relu : bool)
    (s s' : Shape.shape) :
  Shape.forward (Shape.Residual l out_relu) s = Ok s' ->
  exists s1,
    Shape.forward l s = Ok s1 /\ Shape.forward l s1 = Ok s'
    /\ Shape.expands_to (rev s) (rev s') = true.
Proof.
  cbn [Shape.forward].
  destruct (Shape.forward l s) as [s1 | e]; cbn [rbind]; [| discriminate].
  destruct (Shape.forward l s1) as [s2 | e] eqn:H2; cbn [rbind];
    [| discriminate].
  intros H. apply iadd_inv in H. destruct H as [-> Hexp].
  exists s1. now repeat split.
Qed.

Lemma conv_proto_keeps (e : Z) (s s' : Shape.shape) :
  Shape.forward (Shape.conv_proto e) s = Ok s' -> s' = s.
Proof.
  cbn [Shape.forward Shape.conv_proto]. unfold Shape.conv1d_shape.
  destruct s as [| N [| C [| L [| ? ?]]]]; try discriminate.
  destruct (Z.eqb_spec C e) as [-> | _]; cbn [andb]; [| discriminate].
  destruct ((0 <? 1) && (0 <=? L + 2 * 1 - 3)); [| discriminate].
  intros H. injection H as <-. rewrite Z.div_1_r.
  now replace (L + 2 * 1 - 3 + 1) with L by lia.
Qed.

Lemma linear_proto_keeps (e : Z) (s s' : Shape.shape) :
  Shape.forward (Shape.linear_proto e) s = Ok s' -> s' = s.
Proof.
  cbn [Shape.forward Shape.linear_proto]. unfold Shape.linear_shape.
  destruct (rev s) as [| f before] eqn:Hrev; [discriminate |].
  destruct (Z.eqb_spec f (e * 4)) as [-> | _]; [| discriminate].
  intros H. injection H as <-.
  rewrite <- (rev_involutive s), Hrev. reflexivity.
Qed.

Lemma residual_keeps (l : Shape.layer) (out_relu : bool) :
  (forall s s', Shape.forward l s = Ok s' -> s' = s) ->
  forall s s',
    Shape.forward (Shape.Residual l out_relu) s = Ok s' -> s' = s.
Proof.
  intros Hl s s' H. apply residual_forward_inv in H.
  destruct H as [s1 [H1 [H2 _]]]. apply Hl in H1. subst s1.
  now apply Hl in H2.
Qed.

Lemma sequential_app_inv (ls1 ls2 : list Shape.layer) (s s' : Shape.shape) :
  Shape.sequential (ls1 ++ ls2) s = Ok s' ->
  exists s1, Shape.sequential ls1 s = Ok s1 /\ Shape.sequential ls2 s1 = Ok s'.
Proof.
  revert s. induction ls1 as [| l ls1 IH]; intros s H; cbn [app Shape.sequential] in *.
  - now exists s.
  - destruct (Shape.forward l s) as [s0 | e]; cbn [rbind] in *; [| discriminate].
    now apply IH.
Qed.

Lemma residual_list_keeps_shape (proto : Shape.layer) (k : Z) :
  (forall s s', Shape.forward proto s = Ok s' -> s' = s) ->
  forall s s',
    Shape.sequential (Shape.residual_list proto k) s = Ok s' -> s' = s.
Proof.
  intros Hl. unfold Shape.residual_list.
  induction (Z.to_nat k) as [| m IH]; intros s s'; cbn [repeat Shape.sequential].
  - intros H. now inversion H.
  - destruct (Shape.forward (Shape.Residual proto true) s) as [s1 | e] eqn:H1;
      cbn [rbind]; [| discriminate].
    apply (residual_keeps proto true Hl) in H1. subst s1. apply IH.
Qed.

Lemma forward_raises_runtime (l : Shape.layer) :
  forall (s : Shape.shape) (e : pyerr),
    Shape.forward l s = Raise e -> e = RuntimeError.
Proof.
  induction l as [cin cout k st p | cin cout k st p | fin fout
                  | | k | l IH out_relu];
    intros s e; cbn [Shape.forward].
  - unfold Shape.conv1d_shape.
    destruct s as [| a [| b [| c [| ? ?]]]]; try (intros H; now inversion H).
    destruct ((b =? cin) && (0 <? st) && (0 <=? c + 2 * p - k));
      intros H; now inversion H.
  - unfold Shape.conv1d_shape, Shape.view, Shape.transpose_2_3.
    destruct s as [| a [| b [| c [| ? ?]]]]; try (intros H; now inversion H).
    destruct ((b =? cin) && (0 <? st) && (0 <=? c + 2 * p - k));
      cbn [rbind]; [| intros H; now inversion H].
    destruct (_ =? _); cbn [rbind]; [| intros H; now inversion H].
    destruct (_ =? _); intros H; now inversion H.
  - unfold Shape.linear_shape.
    destruct (rev s) as [| f before]; [intros H; now inversion H |].
    destruct (f =? fin); intros H; now inversion H.
  - discriminate.
  - destruct s as [| a [| b [| c [| ? ?]]]]; try (intros H; now inversion H).
    destruct ((0 <? k) && (k <=? c)); intros H; now inversion H.
  - destruct (Shape.forward l s) as [s1 | e1] eqn:H1; cbn [rbind].
    + destruct (Shape.forward l s1) as [s2 | e2] eqn:H2; cbn [rbind].
      * unfold Shape.iadd. destruct (Shape.expands_to _ _);
          intros H; now inversion H.
      * intros H. inversion H; subst. now apply (IH s1).
    + intros H. inversion H; subst. now apply (IH s).
Qed.

Lemma sequential_raises_runtime (ls : list Shape.layer) :
  forall (s : Shape.shape) (e : pyerr),
    Shape.sequential ls s = Raise e -> e = RuntimeError.
Proof.
  induction ls as [| l ls IH]; intros s e; cbn [Shape.sequential].
  - discriminate.
  - destruct (Shape.forward l s) as [s1 | e1] eqn:H1; cbn [rbind].
    + apply IH.
    + intros H. inversion H; subst. now apply (forward_raises_runtime l s).
Qed.

Lemma repeat_apply_raises_runtime (ls : list Shape.layer) (k : nat) :
  forall (s : Shape.shape) (e : pyerr),
    Shape.repeat_apply k (Shape.sequential ls) s = Raise e -> e = RuntimeError.
Proof.
  induction k as [| k IH]; intros s e; cbn [Shape.repeat_apply].
  - discriminate.
  - destruct (Shape.sequential ls s) as [s1 | e1] eqn:H1; cbn [rbind].
    + apply IH.
    + intros H. inversion H; subst. now apply (sequential_raises_runtime ls s).
Qed.

(** *** Lengths the encoder accepts *)

Lemma encoder_recurrent_floor (N e n L : Z) :
  2 <= L ->
  Shape.sequential
    (Shape.residual_list (Shape.conv_proto e) (n / 2) ++ [Shape.MaxPool1d 2])
    [N; e; L]
  = Ok [N; e; L / 2].
Proof.
  intros HL.
  rewrite (sequential_app _ _ _ [N; e; L]).
  - cbn [Shape.sequential Shape.forward]. ztest. cbn [andb rbind].
    replace ((L - 2) / 2 + 1) with (L / 2); [reflexivity |].
    replace L with (L - 2 + 1 * 2) at 1 by lia.
    now rewrite Z.div_add by lia.
  - apply sequential_residual_list, residual_conv_shape. lia.
Qed.

Lemma encoder_recurrent_inv (N e n L : Z) (s' : Shape.shape) :
  Shape.sequential
    (Shape.residual_list (Shape.conv_proto e) (n / 2) ++ [Shape.MaxPool1d 2])
    [N; e; L]
  = Ok s' ->
  2 <= L /\ s' = [N; e; L / 2].
Proof.
  intros H. destruct (Z_le_gt_dec 2 L) as [HL | HL].
  - split; [exact HL |].
    rewrite encoder_recurrent_floor in H by exact HL. now inversion H.
  - exfalso. apply sequential_app_inv in H. destruct H as [s1 [H1 H2]].
    apply (residual_list_keeps_shape _ _ (conv_proto_keeps e)) in H1. subst s1.
    cbn [Shape.sequential Shape.forward] in H2.
    revert H2. ztest. cbn [andb rbind]. discriminate.
Qed.

Lemma encoder_recurrence_floor (N e n : Z) (k : nat) :
  forall L, 4 * 2 ^ Z.of_nat k <= L ->
    Shape.repeat_apply k
      (Shape.sequential
         (Shape.residual_list (Shape.conv_proto e) (n / 2)
            ++ [Shape.MaxPool1d 2])) [N; e; L]
    = Ok [N; e; L / 2 ^ Z.of_nat k].
Proof.
  induction k as [| k IH]; intros L HL; cbn [Shape.repeat_apply].
  - now rewrite Z.div_1_r.
  - rewrite Nat2Z.inj_succ, Z.pow_succ_r in * by lia.
    assert (Hpow : 0 < 2 ^ Z.of_nat k) by (apply Z.pow_pos_nonneg; lia).
    rewrite encoder_recurrent_floor by lia. cbn [rbind].
    rewrite IH.
    + rewrite Z.div_div by lia. reflexivity.
    + apply Z.div_le_lower_bound; lia.
Qed.

Lemma encoder_recurrence_inv (N e n : Z) (k : nat) :
  forall L s',
    Shape.repeat_apply k
      (Shape.sequential
         (Shape.residual_list (Shape.conv_proto e) (n / 2)
            ++ [Shape.MaxPool1d 2])) [N; e; L]
    = Ok s' ->
    s' = [N; e; L / 2 ^ Z.of_nat k].
Proof.
  induction k as [| k IH]; intros L s' H; cbn [Shape.repeat_apply] in H.
  - rewrite Z.div_1_r. now inversion H.
  - destruct (Shape.sequential _ [N; e; L]) as [s1 | err] eqn:H1;
      cbn [rbind] in H; [| discriminate].
    apply encoder_recurrent_inv in H1. destruct H1 as [HL ->].
    apply IH in H. rewrite H.
    rewrite Nat2Z.inj_succ, Z.pow_succ_r by lia.
    assert (Hpow : 0 < 2 ^ Z.of_nat k) by (apply Z.pow_pos_nonneg; lia).
    now rewrite Z.div_div by lia.
Qed.

Lemma encoder_forward_raises_runtime (self : ByteCNNEncoder.t)
    (x : Shape.indices) (r : Z) (e : pyerr) :
  ByteCNNEncoder.forward self x r = Raise e -> e = RuntimeError.
Proof.
  unfold ByteCNNEncoder.forward.
  destruct (Shape.lookup (ByteCNNEncoder.embedding self) x) as [x1 | e1] eqn:H1;
    cbn [rbind].
  2:{ intros H. inversion H; subst. unfold Shape.lookup in H1.
      destruct (Shape.in_table _ _); now inversion H1. }
  destruct (Shape.transpose_1_2 x1) as [x2 | e2] eqn:H2; cbn [rbind].
  2:{ intros H. inversion H; subst. unfold Shape.transpose_1_2 in H2.
      destruct x1 as [| a [| b [| c ?]]]; now inversion H2. }
  destruct (Shape.sequential (ByteCNNEncoder.prefix self) x2) as [x3 | e3] eqn:H3;
    cbn [rbind];
    [| intros H; inversion H; subst; exact (sequential_raises_runtime _ _ _ H3)].
  destruct (Shape.repeat_apply (Z.to_nat (r - 2))
              (Shape.sequential (ByteCNNEncoder.recurrent self)) x3)
    as [x4 | e4] eqn:H4; cbn [rbind];
    [| intros H; inversion H; subst;
       exact (repeat_apply_raises_runtime _ _ _ _ H4)].
  match goal with |- context [if ?c then _ else _] => destruct c end.
  - destruct (Shape.view_flat x4 (Shape.size x4 0)) as [x5 | e5] eqn:H5;
      cbn [rbind].
    + apply sequential_raises_runtime.
    + intros H. inversion H; subst. unfold Shape.view_flat in H5.
      destruct (Shape.size x4 0 <=? 0); [now inversion H5 |].
      destruct (_ =? 0); now inversion H5.
  - cbn [rbind]. intros H. now inversion H.
Qed.

Lemma encoder_postfix_keeps (n emsize : Z) (s s' : Shape.shape) :
  Shape.sequential
    (Shape.residual_list (Shape.linear_proto emsize) (n / 2 - 1)
       ++ [Shape.Residual (Shape.linear_proto emsize) false]) s = Ok s' ->
  s' = s /\ Shape.size_last s = emsize * 4.
Proof.
  intros H. apply sequential_app_inv in H. destruct H as [s1 [H1 H2]].
  apply (residual_list_keeps_shape _ _ (linear_proto_keeps emsize)) in H1.
  subst s1. cbn [Shape.sequential] in H2.
  destruct (Shape.forward _ s) as [s2 | e] eqn:Hres; [| discriminate].
  cbn [rbind] in H2. injection H2 as <-.
  pose proof (residual_keeps _ false (linear_proto_keeps emsize) s s2 Hres)
    as ->.
  split; [reflexivity |].
  apply residual_forward_inv in Hres. destruct Hres as [s1 [Hlin _]].
  cbn [Shape.forward Shape.linear_proto] in Hlin.
  unfold Shape.linear_shape in Hlin.
  destruct (rev s) as [| f before] eqn:Hrev; [discriminate |].
  destruct (Z.eqb_spec f (emsize * 4)) as [-> | _]; [| discriminate].
  unfold Shape.size_last.
  rewrite <- (rev_involutive s), Hrev. cbn [rev].
  apply List.last_last.
Qed.

Lemma view_flat_three (bsz emsize q : Z) :
  0 < bsz ->
  Shape.view_flat [bsz; emsize; q] bsz = Ok [bsz; emsize * q].
Proof.
  intros Hb. unfold Shape.view_flat. ztest. cbn [Shape.numel fold_right].
  replace (bsz * (emsize * (q * 1))) with (emsize * q * bsz) by lia.
  rewrite Z.mod_mul, Z.div_mul by lia. now rewrite Z.eqb_refl.
Qed.

(** Whenever the encoder returns, every byte was in its table and the
    pooling steps left exactly four positions. *)
Lemma encoder_forward_inv (n emsize bsz L r : Z) (self : ByteCNNEncoder.t)
    (x : Shape.indices) (s : Shape.shape) :
  ByteCNNEncoder.init n emsize = Ok self ->
  Shape.sizes_of x = [bsz; L] -> 0 < bsz ->
  ByteCNNEncoder.forward self x r = Ok s ->
  Shape.in_table (ByteCNNEncoder.embedding self) x = true
  /\ L / 2 ^ Z.max (r - 2) 0 = 4
  /\ s = [bsz; emsize * 4].
Proof.
  intros Hinit Hsizes Hb.
  assert (Hk : Z.max (r - 2) 0 = Z.of_nat (Z.to_nat (r - 2))) by lia.
  rewrite Hk. unfold ByteCNNEncoder.init in Hinit.
  destruct (negb (n mod 2 =? 0)); [discriminate |].
  destruct (Z.ltb_spec UTF8File.EMPTY emsize) as [He |]; cbn [negb] in Hinit;
    [| discriminate].
  unfold UTF8File.EMPTY in He.
  injection Hinit as <-.
  unfold ByteCNNEncoder.forward.
  cbn [ByteCNNEncoder.embedding ByteCNNEncoder.prefix
       ByteCNNEncoder.recurrent ByteCNNEncoder.postfix].
  unfold Shape.lookup. cbn [Shape.embedding_dim].
  destruct (Shape.in_table _ x); cbn [rbind]; [| discriminate].
  rewrite Hsizes. cbn [app rbind Shape.transpose_1_2].
  destruct (Shape.sequential _ [bsz; emsize; L]) as [s1 | e1] eqn:H1;
    cbn [rbind]; [| discriminate].
  apply (residual_list_keeps_shape _ _ (conv_proto_keeps emsize)) in H1.
  subst s1.
  destruct (Shape.repeat_apply _ _ [bsz; emsize; L]) as [s2 | e2] eqn:H2;
    cbn [rbind]; [| discriminate].
  apply encoder_recurrence_inv in H2. subst s2.
  cbn [Shape.size nth].
  match goal with |- context [if ?c then _ else _] => destruct c end;
    cbn [rbind]; [| discriminate].
  rewrite (view_flat_three _ _ _ Hb). cbn [rbind].
  intros Hpost. apply encoder_postfix_keeps in Hpost.
  destruct Hpost as [-> Hlast]. cbn in Hlast.
  assert (Hfour : L / 2 ^ Z.of_nat (Z.to_nat (r - 2)) = 4) by nia.
  split; [reflexivity |]. split; [exact Hfour |]. now rewrite Hfour.
Qed.

(** With a non-empty prefix the encoder returns whenever every byte is
    in its table and the pooling steps leave four positions. *)
Lemma encoder_forward_Ok (n emsize bsz L r : Z) (self : ByteCNNEncoder.t)
    (x : Shape.indices) :
  ByteCNNEncoder.init n emsize = Ok self -> 0 < n ->
  Shape.sizes_of x = [bsz; L] -> 0 < bsz ->
  Shape.in_table (ByteCNNEncoder.embedding self) x = true ->
  L / 2 ^ Z.max (r - 2) 0 = 4 ->
  ByteCNNEncoder.forward self x r = Ok [bsz; emsize * 4].
Proof.
  intros Hinit Hn Hsizes Hb Htable.
  assert (Hk : Z.max (r - 2) 0 = Z.of_nat (Z.to_nat (r - 2))) by lia.
  rewrite Hk. set (k := Z.to_nat (r - 2)). intros Hfour.
  assert (Hpow : 0 < 2 ^ Z.of_nat k) by (apply Z.pow_pos_nonneg; lia).
  assert (HL : 4 * 2 ^ Z.of_nat k <= L).
  { pose proof (Z.mul_div_le L (2 ^ Z.of_nat k) Hpow). nia. }
  unfold ByteCNNEncoder.init in Hinit.
  destruct (Z.eqb_spec (n mod 2) 0) as [Heven |]; cbn [negb] in Hinit;
    [| discriminate].
  destruct (negb (UTF8File.EMPTY <? emsize)); [discriminate |].
  injection Hinit as <-.
  unfold ByteCNNEncoder.forward.
  cbn [ByteCNNEncoder.embedding ByteCNNEncoder.prefix
       ByteCNNEncoder.recurrent ByteCNNEncoder.postfix] in *.
  unfold Shape.lookup. rewrite Htable, Hsizes.
  cbn [Shape.embedding_dim app rbind Shape.transpose_1_2].
  rewrite sequential_residual_list by (apply residual_conv_shape; lia).
  cbn [rbind]. fold k. rewrite encoder_recurrence_floor by exact HL.
  cbn [rbind Shape.size nth].
  assert (Hnil : ByteCNNEncoder.is_nil
                   (Shape.residual_list (Shape.conv_proto emsize) (n / 2))
                 = false).
  { unfold Shape.residual_list.
    assert (Hhalf : 1 <= n / 2).
    { pose proof (Z.div_mod n 2 ltac:(lia)) as Hdm.
      rewrite Heven in Hdm. clear - Hn Hdm. lia. }
    destruct (Z.to_nat (n / 2)) as [| m] eqn:Hm; [lia | reflexivity]. }
  rewrite Hnil. cbn [negb]. rewrite orb_true_r. cbn [orb].
  rewrite (view_flat_three _ _ _ Hb), Hfour. cbn [rbind].
  rewrite (sequential_app _ _ _ [bsz; emsize * 4]).
  - cbn [Shape.sequential]. rewrite residual_linear_shape. reflexivity.
  - apply sequential_residual_list, residual_linear_shape.
Qed.

(** The encoder on a [bsz x L] batch at depth [r], in closed form: every
    byte must be in the table, each pooling step halves the length
    rounding down, and the linear layers need exactly four positions. *)
Lemma encoder_forward_by_length
    (n emsize bsz L r : Z) (self : ByteCNNEncoder.t) (x : Shape.indices) :
  ByteCNNEncoder.init n emsize = Ok self -> 0 < n ->
  Shape.sizes_of x = [bsz; L] -> 0 < bsz ->
  ByteCNNEncoder.forward self x r
  = if Shape.in_table (ByteCNNEncoder.embedding self) x
       && (L / 2 ^ Z.max (r - 2) 0 =? 4)
    then Ok [bsz; emsize * 4] else Raise RuntimeError.
Proof.
  intros Hinit Hn Hsizes Hb.
  destruct (ByteCNNEncoder.forward self x r) as [s | e] eqn:Hfwd.
  - destruct (encoder_forward_inv n emsize bsz L r self x s Hinit Hsizes Hb Hfwd)
      as [Htable [Hfour ->]].
    now rewrite Htable, Hfour.
  - pose proof (encoder_forward_raises_runtime _ _ _ _ Hfwd) as He. subst e.
    destruct (Shape.in_table (ByteCNNEncoder.embedding self) x) eqn:Htable;
      [| reflexivity].
    destruct (Z.eqb_spec (L / 2 ^ Z.max (r - 2) 0) 4) as [Hfour | _];
      [| reflexivity].
    pose proof (encoder_forward_Ok n emsize bsz L r self x Hinit Hn Hsizes Hb
                  Htable Hfour) as Hok.
    exfalso. clear - Hok Hfwd. congruence.
Qed.

(** With a non-empty prefix and every byte in the table, [forward] is
    the recurrent stage applied [r - 2] times to the embedded batch,
    then the flattening and the linear layers. *)
Lemma encoder_forward_through_recurrent (n emsize bsz L r : Z)
    (self : ByteCNNEncoder.t) (x : Shape.indices) :
  ByteCNNEncoder.init n emsize = Ok self -> 0 < n ->
  Shape.sizes_of x = [bsz; L] -> 1 <= L ->
  Shape.in_table (ByteCNNEncoder.embedding self) x = true ->
  ByteCNNEncoder.forward self x r
  = (let! s := Shape.repeat_apply (Z.to_nat (r - 2))
                 (Shape.sequential (ByteCNNEncoder.recurrent self))
                 [bsz; emsize; L] in
     let! s := Shape.view_flat s (Shape.size s 0) in
     Shape.sequential (ByteCNNEncoder.postfix self) s).
Proof.
  intros Hinit Hn Hsizes HL Htable.
  unfold ByteCNNEncoder.init in Hinit.
  destruct (Z.eqb_spec (n mod 2) 0) as [Heven |]; cbn [negb] in Hinit;
    [| discriminate].
  destruct (negb (UTF8File.EMPTY <? emsize)); [discriminate |].
  injection Hinit as <-.
  unfold ByteCNNEncoder.forward.
  cbn [ByteCNNEncoder.embedding ByteCNNEncoder.prefix
       ByteCNNEncoder.recurrent ByteCNNEncoder.postfix] in *.
  unfold Shape.lookup. rewrite Htable, Hsizes.
  cbn [Shape.embedding_dim app rbind Shape.transpose_1_2].
  rewrite sequential_residual_list by (apply residual_conv_shape; lia).
  cbn [rbind].
  assert (Hnil : ByteCNNEncoder.is_nil
                   (Shape.residual_list (Shape.conv_proto emsize) (n / 2))
                 = false).
  { unfold Shape.residual_list.
    assert (Hhalf : 1 <= n / 2).
    { pose proof (Z.div_mod n 2 ltac:(lia)) as Hdm.
      rewrite Heven in Hdm. clear - Hn Hdm. lia. }
    destruct (Z.to_nat (n / 2)) as [| m] eqn:Hm; [lia | reflexivity]. }
  rewrite Hnil. cbn [negb]. rewrite orb_true_r. cbn [orb].
  reflexivity.
Qed.

Lemma pow2_quotient_four (r r' : Z) :
  2 <= r -> 2 <= r' -> 2 ^ r / 2 ^ Z.max (r' - 2) 0 = 4 -> r' = r.
Proof.
  intros Hr Hr'. rewrite Z.max_l by lia. intros Hq.
  destruct (Z_le_gt_dec (r' - 2) r) as [Hle | Hgt].
  - replace r with ((r - (r' - 2)) + (r' - 2)) in Hq at 1 by lia.
    rewrite Z.pow_add_r in Hq by lia.
    rewrite Z.div_mul in Hq
      by (apply Z.pow_nonzero; lia).
    change 4 with (2 ^ 2) in Hq.
    apply Z.pow_inj_r in Hq; lia.
  - rewrite Z.div_small in Hq; [discriminate |].
    split; [apply Z.pow_nonneg; lia | apply Z.pow_lt_mono_r; lia].
Qed.

(** C1.  For a batch [x] of [bsz] byte sequences of length [L = 2 ^ r]
    with [r >= 2], under a network with at least one block per stage
    ([n] even and positive) and a table covering the bytes, encoding
    with depth [r] and decoding the latent batch with the same [r]
    succeeds and gives logits whose trailing size is [L]: the encoder's
    [r - 2] recurrent applications halve [L] down to 4, and the
    decoder's [r - 2] recurrent applications double 4 back to [L].
    The encoder's [forward] is this recurrent stage, applied to the
    embedded batch as many times as the depth asks and followed by the
    flattening and the linear layers; so asked for another depth it
    does not arrive at four positions and raises.  The decoder's
    [forward] makes as many doublings as it is asked for, so another
    depth gives another length. *)
Theorem round_trip_restores_sequence_length
    (n emsize bsz r : Z) (x : Shape.indices) :
  n mod 2 = 0 -> 0 < n -> 256 <= emsize -> 0 < bsz -> 2 <= r ->
  Z.of_nat (length x) = bsz ->
  (forall row, In row x ->
     Z.of_nat (length row) = 2 ^ r /\ forall c, In c row -> 0 <= c < 256) ->
  exists encoder decoder latent logits,
    ByteCNNEncoder.init n emsize = Ok encoder
    /\ ByteCNNDecoder.init n emsize = Ok decoder
    /\ ByteCNNEncoder.forward encoder x r = Ok latent
    /\ ByteCNNDecoder.forward decoder latent r = Ok logits
    /\ Shape.size_last (Shape.sizes_of x) = 2 ^ r
    /\ Shape.size_last logits = Shape.size_last (Shape.sizes_of x)
    /\ Shape.repeat_apply (Z.to_nat (r - 2))
         (Shape.sequential (ByteCNNEncoder.recurrent encoder))
         [bsz; emsize; 2 ^ r]
       = Ok [bsz; emsize; 4]
    /\ Shape.repeat_apply (Z.to_nat (r - 2))
         (Shape.sequential (ByteCNNDecoder.recurrent decoder))
         [bsz; emsize; 4]
       = Ok [bsz; emsize; 2 ^ r]
    /\ (forall r',
          ByteCNNEncoder.forward encoder x r'
          = (let! s := Shape.repeat_apply (Z.to_nat (r' - 2))
                         (Shape.sequential (ByteCNNEncoder.recurrent encoder))
                         [bsz; emsize; 2 ^ r] in
             let! s := Shape.view_flat s (Shape.size s 0) in
             Shape.sequential (ByteCNNEncoder.postfix encoder) s))
    /\ (forall r', 2 <= r' -> r' <> r ->
          ByteCNNEncoder.forward encoder x r' = Raise RuntimeError)
    /\ (forall r', 2 <= r' ->
          exists logits',
            ByteCNNDecoder.forward decoder latent r' = Ok logits'
            /\ Shape.size_last logits' = 2 ^ r').
Proof.
  intros Hn Hpos Hem Hb Hr Hlen Hrows.
  destruct (ByteCNNEncoder.init n emsize) as [encoder | err] eqn:Henc.
  2: { unfold ByteCNNEncoder.init in Henc. rewrite Hn in Henc.
       unfold UTF8File.EMPTY in Henc.
       destruct (Z.ltb_spec 7 emsize); [discriminate | lia]. }
  destruct (ByteCNNDecoder.init n emsize) as [decoder | err] eqn:Hdec.
  2: { unfold ByteCNNDecoder.init in Hdec. rewrite Hn in Hdec. discriminate. }
  assert (Hsizes : Shape.sizes_of x = [bsz; 2 ^ r]).
  { apply sizes_of_batch; [exact Hlen | exact Hb |].
    intros row Hrow. exact (proj1 (Hrows row Hrow)). }
  assert (Hnum : Shape.num_embeddings (ByteCNNEncoder.embedding encoder)
                 = emsize).
  { unfold ByteCNNEncoder.init in Henc.
    destruct (negb (n mod 2 =? 0)); [discriminate |].
    destruct (negb (UTF8File.EMPTY <? emsize)); [discriminate |].
    now injection Henc as <-. }
  assert (Htable : Shape.in_table (ByteCNNEncoder.embedding encoder) x = true).
  { apply in_table_entries. intros row Hrow c Hc. rewrite Hnum.
    pose proof (proj2 (Hrows row Hrow) c Hc). lia. }
  pose proof (fun r' =>
    encoder_forward_by_length n emsize bsz (2 ^ r) r' encoder x
      Henc Hpos Hsizes Hb) as Hfwd.
  assert (Hrec :
    Shape.repeat_apply (Z.to_nat (r - 2))
      (Shape.sequential (ByteCNNEncoder.recurrent encoder))
      [bsz; emsize; 2 ^ r]
    = Ok [bsz; emsize; 4]).
  { unfold ByteCNNEncoder.init in Henc.
    destruct (negb (n mod 2 =? 0)); [discriminate |].
    destruct (negb (UTF8File.EMPTY <? emsize)); [discriminate |].
    injection Henc as <-. cbn [ByteCNNEncoder.recurrent].
    replace r with (2 + Z.of_nat (Z.to_nat (r - 2))) at 2 by lia.
    apply (encoder_recurrence bsz emsize n (Z.to_nat (r - 2)) 2). lia. }
  destruct (decoder_forward_shape n emsize bsz r decoder Hdec Hr) as [Hd1 Hd2].
  exists encoder, decoder, [bsz; emsize * 4], [bsz; emsize; 2 ^ r].
  split; [reflexivity |]. split; [reflexivity |].
  split.
  { rewrite Hfwd, Htable. cbn [andb].
    replace (2 ^ r / 2 ^ Z.max (r - 2) 0) with 4; [reflexivity |].
    rewrite Z.max_l by lia.
    replace r with (2 + (r - 2)) at 1 by lia.
    rewrite Z.pow_add_r by lia.
    rewrite Z.div_mul by (apply Z.pow_nonzero; lia). reflexivity. }
  split; [exact Hd1 |].
  split; [now rewrite Hsizes |].
  split; [now rewrite Hsizes |].
  split; [exact Hrec |]. split; [exact Hd2 |].
  split.
  { intros r'.
    apply (encoder_forward_through_recurrent n emsize bsz (2 ^ r) r' encoder x
             Henc Hpos Hsizes); [| exact Htable].
    assert (0 < 2 ^ r) by (apply Z.pow_pos_nonneg; lia). lia. }
  split.
  - intros r' Hr' Hne. rewrite Hfwd, Htable. cbn [andb].
    destruct (Z.eqb_spec (2 ^ r / 2 ^ Z.max (r' - 2) 0) 4) as [Hq | _];
      [| reflexivity].
    exfalso. apply Hne. exact (pow2_quotient_four r r' Hr Hr' Hq).
  - intros r' Hr'.
    exists [bsz; emsize; 2 ^ r']. split; [| reflexivity].
    exact (proj1 (decoder_forward_shape n emsize bsz r' decoder Hdec Hr')).
Qed.

(** Two sequences of 64 bytes, depth 6, the default architecture. *)
Lemma round_trip_restores_sequence_length_witness :
  let x := repeat (repeat 65 64) 2 in
  exists encoder decoder latent logits,
    ByteCNNEncoder.init 8 256 = Ok encoder
    /\ ByteCNNDecoder.init 8 256 = Ok decoder
    /\ ByteCNNEncoder.forward encoder x 6 = Ok latent
    /\ ByteCNNDecoder.forward decoder latent 6 = Ok logits
    /\ Shape.size_last (Shape.sizes_of x) = 2 ^ 6
    /\ Shape.size_last logits = Shape.size_last (Shape.sizes_of x)
    /\ Shape.repeat_apply (Z.to_nat (6 - 2))
         (Shape.sequential (ByteCNNEncoder.recurrent encoder))
         [2; 256; 2 ^ 6]
       = Ok [2; 256; 4]
    /\ Shape.repeat_apply (Z.to_nat (6 - 2))
         (Shape.sequential (ByteCNNDecoder.recurrent decoder))
         [2; 256; 4]
       = Ok [2; 256; 2 ^ 6]
    /\ (forall r',
          ByteCNNEncoder.forward encoder x r'
          = (let! s := Shape.repeat_apply (Z.to_nat (r' - 2))
                         (Shape.sequential (ByteCNNEncoder.recurrent encoder))
                         [2; 256; 2 ^ 6] in
             let! s := Shape.view_flat s (Shape.size s 0) in
             Shape.sequential (ByteCNNEncoder.postfix encoder) s))
    /\ (forall r', 2 <= r' -> r' <> 6 ->
          ByteCNNEncoder.forward encoder x r' = Raise RuntimeError)
    /\ (forall r', 2 <= r' ->
          exists logits',
            ByteCNNDecoder.forward decoder latent r' = Ok logits'
            /\ Shape.size_last logits' = 2 ^ r').
Proof.
  intros x.
  apply (round_trip_restores_sequence_length 8 256 2 6 x);
    [reflexivity | lia | lia | lia | lia | reflexivity |].
  intros row Hrow. apply repeat_spec in Hrow. subst row.
  split; [reflexivity |].
  intros c Hc. apply repeat_spec in Hc. subst c. lia.
Defined.

Example forward_shape_default :
  exists encoder decoder,
    ByteCNNEncoder.init 8 256 = Ok encoder
    /\ ByteCNNDecoder.init 8 256 = Ok decoder
    /\ ByteCNN.forward_shape Reference.pl_log2 encoder decoder
         (repeat (repeat 65 64) 2)
       = Ok [2; 256; 64].
Proof.
  do 2 eexists. split; [reflexivity |]. split; [reflexivity |].
  vm_compute. reflexivity.
Qed.

Example forward_shape_length_two :
  exists encoder decoder,
    ByteCNNEncoder.init 8 256 = Ok encoder
    /\ ByteCNNDecoder.init 8 256 = Ok decoder
    /\ ByteCNN.forward_shape Reference.pl_log2 encoder decoder
         [[65; 0]; [66; 0]]
       = Raise RuntimeError.
Proof.
  do 2 eexists. split; [reflexivity |]. split; [reflexivity |].
  vm_compute. reflexivity.
Qed.

(** With no block in the prefix ([n = 0]) and no recurrent step
    ([r = 2]) the flattening meets the transposed view and is refused;
    a byte outside a small table is refused by the lookup; and a table
    that cannot hold the padding row is not built. *)
Example encoder_edge_cases :
  (exists encoder,
     ByteCNNEncoder.init 0 256 = Ok encoder
     /\ ByteCNNEncoder.forward encoder [[65; 66; 67; 0]] 2
        = Raise RuntimeError
     /\ ByteCNNEncoder.forward encoder [[65; 66; 67; 68; 69; 70; 71; 0]] 3
        = Ok [1; 1024])
  /\ (exists encoder,
        ByteCNNEncoder.init 8 64 = Ok encoder
        /\ ByteCNNEncoder.forward encoder [[65; 66; 67; 0]] 2
           = Raise RuntimeError
        /\ ByteCNNEncoder.forward encoder [[10; 20; 30; 0]] 2 = Ok [1; 256])
  /\ ByteCNNEncoder.init 8 7 = Raise AssertionError.
Proof.
  split; [| split; [| reflexivity]].
  - eexists. split; [reflexivity |]. split; vm_compute; reflexivity.
  - eexists. split; [reflexivity |]. split; vm_compute; reflexivity.
Qed.

(** ** Inspection: [try_on] *)

Lemma argmax_from_greatest (xs pre : list Q) (best : Q) (besti : nat) :
  (besti < length pre)%nat ->
  nth besti pre 0%Q = best ->
  (forall x, In x pre -> (x <= best)%Q) ->
  let j := ByteCNN.argmax_from best (Z.of_nat besti)
             (Z.of_nat (length pre)) xs in
  0 <= j < Z.of_nat (length (pre ++ xs))
  /\ (forall x, In x (pre ++ xs) ->
        (x <= nth (Z.to_nat j) (pre ++ xs) 0%Q)%Q).
Proof.
  revert pre best besti.
  induction xs as [| x xs IH]; intros pre best besti Hi Hnth Hmax;
    cbn [ByteCNN.argmax_from].
  - rewrite app_nil_r, Nat2Z.id. split; [lia |].
    intros y Hy. rewrite Hnth. now apply Hmax.
  - assert (Hlen : Z.of_nat (length pre) + 1 = Z.of_nat (length (pre ++ [x]))).
    { rewrite length_app. cbn [length]. lia. }
    assert (Happ : pre ++ x :: xs = (pre ++ [x]) ++ xs).
    { now rewrite <- app_assoc. }
    rewrite Hlen, Happ.
    destruct (Qlt_le_dec best x) as [Hlt | Hle].
    + apply IH.
      * rewrite length_app. cbn [length]. lia.
      * apply nth_middle.
      * intros y Hy. apply in_app_or in Hy.
        destruct Hy as [Hy | [<- | []]]; [| apply Qle_refl].
        apply Qle_trans with best; [now apply Hmax | now apply Qlt_le_weak].
    + apply IH.
      * rewrite length_app. cbn [length]. lia.
      * rewrite app_nth1 by exact Hi. exact Hnth.
      * intros y Hy. apply in_app_or in Hy.
        destruct Hy as [Hy | [<- | []]]; [now apply Hmax | exact Hle].
Qed.

Lemma argmax_greatest (xs : list Q) :
  xs <> [] ->
  0 <= ByteCNN.argmax xs < Z.of_nat (length xs)
  /\ (forall x, In x xs ->
        (x <= nth (Z.to_nat (ByteCNN.argmax xs)) xs 0%Q)%Q).
Proof.
  destruct xs as [| x xs]; [congruence | intros _].
  unfold ByteCNN.argmax.
  apply (argmax_from_greatest xs [x] x 0).
  - cbn. lia.
  - reflexivity.
  - intros y [<- | []]. apply Qle_refl.
Qed.

Lemma index_first (v : Z) (pre post : list Z) :
  ~ In v pre -> ByteCNN.index v (pre ++ v :: post) = Some (length pre).
Proof.
  induction pre as [| c pre IH]; intros Hnot; cbn [app ByteCNN.index length].
  - now rewrite Z.eqb_refl.
  - destruct (Z.eqb_spec c v) as [-> | Hne].
    + exfalso. apply Hnot. now left.
    + rewrite IH; [reflexivity |]. intros Hin. apply Hnot. now right.
Qed.

Lemma index_absent (v : Z) (pred : list Z) :
  ~ In v pred -> ByteCNN.index v pred = None.
Proof.
  induction pred as [| c pred IH]; intros Hnot; cbn [ByteCNN.index].
  - reflexivity.
  - destruct (Z.eqb_spec c v) as [-> | Hne].
    + exfalso. apply Hnot. now left.
    + rewrite IH; [reflexivity |]. intros Hin. apply Hnot. now right.
Qed.

Lemma cut_at_first_eos (pre post : list Z) :
  ~ In UTF8File.EOS pre ->
  ByteCNN.cut_at_eos (pre ++ UTF8File.EOS :: post) = pre.
Proof.
  intros Hnot. unfold ByteCNN.cut_at_eos. rewrite index_first by exact Hnot.
  rewrite firstn_app, Nat.sub_diag, firstn_all. cbn. apply app_nil_r.
Qed.

Lemma cut_without_eos (pred : list Z) :
  ~ In UTF8File.EOS pred -> ByteCNN.cut_at_eos pred = pred.
Proof.
  intros Hnot. unfold ByteCNN.cut_at_eos. now rewrite index_absent.
Qed.

Lemma cut_at_eos_incl (pred : list Z) (c : Z) :
  In c (ByteCNN.cut_at_eos pred) -> In c pred.
Proof.
  unfold ByteCNN.cut_at_eos.
  destruct (ByteCNN.index UTF8File.EOS pred) as [i |]; [| trivial].
  intros Hin. rewrite <- (firstn_skipn i pred). apply in_or_app. now left.
Qed.

Lemma chr_all (l : list Z) :
  (forall c, In c l -> 0 <= c < 256) ->
  exists chars, rmapM PyStr.chr l = Ok chars.
Proof.
  induction l as [| c l IH]; intros Hrange; cbn [rmapM].
  - now exists [].
  - destruct IH as [chars Hchars].
    { intros c' Hc'. apply Hrange. now right. }
    unfold PyStr.chr at 1.
    pose proof (Hrange c ltac:(now left)) as Hc. ztest.
    cbn [andb rbind]. rewrite Hchars. cbn [rbind]. eauto.
Qed.

Lemma try_on_unfolds (np_log2 : Z -> Q) (params : Type)
    (net : params -> ByteCNN.batch -> Z -> result ByteCNN.tensor3)
    (self : params) (stream : list ByteCNN.batch)
    (tgts : list ByteCNN.tensor3) :
  rmapM (ByteCNN.run_net np_log2 params net self) stream = Ok tgts ->
  ByteCNN.try_on np_log2 params net self stream =
    (let! rendered :=
       rmapM (fun tgt => rmapM ByteCNN.render (ByteCNN.max_dim1 tgt)) tgts in
     Ok (concat rendered)).
Proof.
  revert tgts. induction stream as [| src stream IH]; intros tgts Hrun;
    cbn [rmapM ByteCNN.try_on] in *.
  - inversion Hrun. reflexivity.
  - destruct (ByteCNN.run_net np_log2 params net self src) as [tgt | err];
      cbn [rbind] in *; [| discriminate].
    destruct (rmapM (ByteCNN.run_net np_log2 params net self) stream)
      as [tgts' | err]; cbn [rbind] in *; [| discriminate].
    inversion Hrun; subst. cbn [rmapM rbind].
    destruct (rmapM ByteCNN.render (ByteCNN.max_dim1 tgt)) as [decoded | err];
      cbn [rbind]; [| reflexivity].
    rewrite (IH tgts' eq_refl).
    destruct (rmapM (fun tgt0 => rmapM ByteCNN.render (ByteCNN.max_dim1 tgt0)) tgts')
      as [more | err]; reflexivity.
Qed.

Lemma nth_map_seq {A} (f : nat -> A) (n i : nat) (d : A) :
  (i < n)%nat -> nth i (map f (seq 0 n)) d = f i.
Proof.
  intros Hi. rewrite (nth_indep _ d (f 0%nat)) by (now rewrite length_map, length_seq).
  rewrite (map_nth f (seq 0 n) 0%nat i). now rewrite seq_nth.
Qed.

Lemma max_dim1_at (tgt : ByteCNN.tensor3) (b l : nat) :
  (b < ByteCNN.size0 tgt)%nat -> (l < ByteCNN.size2 tgt)%nat ->
  nth l (nth b (ByteCNN.max_dim1 tgt) []) 0 =
    ByteCNN.argmax
      (map (fun c => ByteCNN.item tgt b c l) (seq 0 (ByteCNN.size1 tgt))).
Proof.
  intros Hb Hl. unfold ByteCNN.max_dim1.
  rewrite (nth_map_seq _ _ b []) by exact Hb.
  now rewrite (nth_map_seq _ _ l 0) by exact Hl.
Qed.

(** The claim of the specification as it is worded fails on its own
    example: the string returned for [72, 73, 0, 7] is not the two
    letters alone. *)
Lemma try_on_example_is_not_bare_text :
  ByteCNN.render [72; 73; 0; 7] <> Ok "HI"%string.
Proof. vm_compute. discriminate. Qed.

(** C4 (amended).  [try_on] renders, for every sequence of every batch,
    the bytes of greatest score at each position, cut before the first
    predicted EOS (or whole when no EOS is predicted), as the [repr] of
    that byte string: quoted and escaped.  For the predicted sequence
    [72, 73, 0, 7] the rendered string is ['HI'] with its two quote
    characters. *)
Theorem try_on_renders_repr_of_bytes_before_first_eos :
  (forall (np_log2 : Z -> Q) (params : Type)
          (net : params -> ByteCNN.batch -> Z -> result ByteCNN.tensor3)
          (self : params) (stream : list ByteCNN.batch)
          (tgts : list ByteCNN.tensor3),
      rmapM (ByteCNN.run_net np_log2 params net self) stream = Ok tgts ->
      ByteCNN.try_on np_log2 params net self stream =
        (let! rendered :=
           rmapM (fun tgt => rmapM ByteCNN.render (ByteCNN.max_dim1 tgt))
                 tgts in
         Ok (concat rendered)))
  /\ (forall (tgt : ByteCNN.tensor3) (b l : nat),
        (b < ByteCNN.size0 tgt)%nat -> (l < ByteCNN.size2 tgt)%nat ->
        (0 < ByteCNN.size1 tgt)%nat ->
        let p := nth l (nth b (ByteCNN.max_dim1 tgt) []) 0 in
        0 <= p < Z.of_nat (ByteCNN.size1 tgt)
        /\ (forall c, (c < ByteCNN.size1 tgt)%nat ->
              (ByteCNN.item tgt b c l
               <= ByteCNN.item tgt b (Z.to_nat p) l)%Q))
  /\ (forall pre post, ~ In UTF8File.EOS pre ->
        ByteCNN.cut_at_eos (pre ++ UTF8File.EOS :: post) = pre)
  /\ (forall pred, ~ In UTF8File.EOS pred -> ByteCNN.cut_at_eos pred = pred)
  /\ (forall pred, (forall c, In c pred -> 0 <= c < 256) ->
        exists chars,
          rmapM PyStr.chr (ByteCNN.cut_at_eos pred) = Ok chars
          /\ ByteCNN.render pred = Ok (PyStr.repr chars))
  /\ ByteCNN.render [72; 73; 0; 7] = Ok "'HI'"%string.
Proof.
  split; [exact try_on_unfolds |].
  split.
  { intros tgt b l Hb Hl Hc p. unfold p. rewrite max_dim1_at by assumption.
    set (xs := map (fun c => ByteCNN.item tgt b c l) (seq 0 (ByteCNN.size1 tgt))).
    assert (Hlen : length xs = ByteCNN.size1 tgt).
    { unfold xs. now rewrite length_map, length_seq. }
    assert (Hne : xs <> []).
    { intros Hnil. rewrite Hnil in Hlen. cbn in Hlen. lia. }
    destruct (argmax_greatest xs Hne) as [Hrange Hmax].
    rewrite Hlen in Hrange. split; [exact Hrange |].
    intros c Hlt.
    assert (Hat : forall i, (i < ByteCNN.size1 tgt)%nat ->
                            nth i xs 0%Q = ByteCNN.item tgt b i l).
    { intros i Hi. unfold xs.
      now apply (nth_map_seq (fun c => ByteCNN.item tgt b c l)). }
    rewrite <- (Hat c Hlt), <- (Hat (Z.to_nat (ByteCNN.argmax xs))) by lia.
    apply Hmax. apply nth_In. lia. }
  split; [exact cut_at_first_eos |].
  split; [exact cut_without_eos |].
  split; [| reflexivity].
  intros pred Hrange.
  destruct (chr_all (ByteCNN.cut_at_eos pred)) as [chars Hchars].
  { intros c Hc. apply Hrange. now apply cut_at_eos_incl. }
  exists chars. split; [exact Hchars |].
  unfold ByteCNN.render. now rewrite Hchars.
Qed.

(** The example of the specification, through the theorem. *)
Lemma try_on_renders_repr_of_bytes_before_first_eos_witness :
  ByteCNN.cut_at_eos [72; 73; 0; 7] = [72; 73]
  /\ exists chars,
       rmapM PyStr.chr (ByteCNN.cut_at_eos [72; 73; 0; 7]) = Ok chars
       /\ ByteCNN.render [72; 73; 0; 7] = Ok (PyStr.repr chars).
Proof.
  destruct try_on_renders_repr_of_bytes_before_first_eos
    as [_ [_ [Hcut [_ [Hrender _]]]]].
  split.
  - apply (Hcut [72; 73] [7]). cbn. intros [H | [H | []]]; discriminate.
  - apply (Hrender [72; 73; 0; 7]).
    intros c [<- | [<- | [<- | [<- | []]]]]; lia.
Defined.

(** ** The masked loss *)




(** ** The masked error count *)










Lemma mask_sum_pad_mask (src : ByteCNN.batch) :
  ByteCNN.mask_sum (ByteCNN.pad_mask src)
  = Z.of_nat (length (List.filter (fun c => negb (c =? UTF8File.EMPTY))
                                  (concat src))).
Proof.
  unfold ByteCNN.mask_sum, ByteCNN.pad_mask. f_equal.
  induction src as [| s src IH]; cbn [map concat]; [reflexivity |].
  rewrite !List.filter_app, !length_app, IH. f_equal.
  clear. induction s as [| c s IH]; cbn [map List.filter]; [reflexivity |].
  destruct (negb (c =? UTF8File.EMPTY)); cbn [length]; now rewrite IH.
Qed.



Lemma eval_step_adds_batch_stats (np_log2 : Z -> Q) (nll : list Q -> Z -> Q)
    (params : Type)
    (net : params -> ByteCNN.batch -> Z -> result ByteCNN.tensor3)
    (self : params) (st : ByteCNN.eval_state) (src : ByteCNN.batch) :
  ByteCNN.eval_step np_log2 nll params net self st src =
    (let! s := ByteCNN.batch_stats np_log2 nll params net self src in
     Ok {| ByteCNN.errs := ByteCNN.errs st + fst (snd s);
           ByteCNN.samples := ByteCNN.samples st + snd (snd s);
           ByteCNN.total_loss :=
             match ByteCNN.total_loss st with
             | ByteCNN.IntZero => ByteCNN.LossVar (fst s)
             | ByteCNN.LossVar t => ByteCNN.LossVar (t + fst s)%Q
             end;
           ByteCNN.batch_cnt := ByteCNN.batch_cnt st + 1 |}).
Proof.
  unfold ByteCNN.eval_step, ByteCNN.batch_stats.
  destruct (ByteCNN.run_net np_log2 params net self src) as [tgt | err];
    cbn [rbind]; [| reflexivity].
  destruct (ByteCNN.batch_loss nll tgt src) as [l | err];
    cbn [rbind]; [| reflexivity].
  destruct (ByteCNN.batch_errors tgt src) as [em | err]; reflexivity.
Qed.




(** ** Evaluation: [eval_on] *)

Section EvalFacts.
Variable np_log2 : Z -> Q.
Variable nll : list Q -> Z -> Q.
Variable params : Type.
Variable net : params -> ByteCNN.batch -> Z -> result ByteCNN.tensor3.
Variable self : params.

Local Abbreviation batch_stats :=
  (ByteCNN.batch_stats np_log2 nll params net self).
Local Abbreviation eval_loop :=
  (ByteCNN.eval_loop np_log2 nll params net self).
Local Abbreviation eval_on :=
  (ByteCNN.eval_on np_log2 nll params net self).

Lemma eval_loop_totals (stream : list ByteCNN.batch) :
  forall (stats : list (Q * (Z * Z))) (st : ByteCNN.eval_state),
    rmapM batch_stats stream = Ok stats ->
    exists st',
      eval_loop stream st = Ok st'
      /\ ByteCNN.errs st' =
           ByteCNN.errs st + ByteCNN.Zsum (map (fun s => fst (snd s)) stats)
      /\ ByteCNN.samples st' =
           ByteCNN.samples st + ByteCNN.Zsum (map (fun s => snd (snd s)) stats)
      /\ ByteCNN.batch_cnt st' =
           ByteCNN.batch_cnt st + Z.of_nat (length stats)
      /\ (stats = [] -> st' = st)
      /\ (stats <> [] ->
          exists v, ByteCNN.total_loss st' = ByteCNN.LossVar v
            /\ (v == match ByteCNN.total_loss st with
                     | ByteCNN.IntZero => 0
                     | ByteCNN.LossVar t => t
                     end + ByteCNN.Qsum (map fst stats))%Q).
Proof.
  induction stream as [| src stream IH]; intros stats st Hstats;
    cbn [rmapM ByteCNN.eval_loop] in *.
  - inversion Hstats; subst. exists st. cbn.
    repeat split; try lia. intros Hne. congruence.
  - rewrite eval_step_adds_batch_stats.
    destruct (batch_stats src) as [[l [e s]] | err]; cbn [rbind] in *;
      [| discriminate].
    destruct (rmapM batch_stats stream) as [stats' | err] eqn:Hrest;
      cbn [rbind] in *; [| discriminate].
    inversion Hstats; subst. clear Hstats. cbn [fst snd].
    set (st1 := {| ByteCNN.errs := ByteCNN.errs st + e;
                   ByteCNN.samples := ByteCNN.samples st + s;
                   ByteCNN.total_loss :=
                     match ByteCNN.total_loss st with
                     | ByteCNN.IntZero => ByteCNN.LossVar l
                     | ByteCNN.LossVar t => ByteCNN.LossVar (t + l)%Q
                     end;
                   ByteCNN.batch_cnt := ByteCNN.batch_cnt st + 1 |}).
    destruct (IH stats' st1 eq_refl)
      as [st' [Hloop [Herrs [Hsamples [Hcnt [Hnil Hcons]]]]]].
    subst st1.
    exists st'. cbn [ByteCNN.errs ByteCNN.samples ByteCNN.batch_cnt
                       ByteCNN.total_loss] in *.
    split; [exact Hloop |].
    cbn [map fst snd ByteCNN.Zsum ByteCNN.Qsum fold_right length].
    fold (ByteCNN.Zsum (map (fun s0 : Q * (Z * Z) => fst (snd s0)) stats')).
    fold (ByteCNN.Zsum (map (fun s0 : Q * (Z * Z) => snd (snd s0)) stats')).
    fold (ByteCNN.Qsum (map fst stats')).
    split; [lia |]. split; [lia |]. split; [lia |].
    split; [discriminate |]. intros _.
    destruct stats' as [| s1 stats'].
    + rewrite (Hnil eq_refl). cbn [ByteCNN.total_loss ByteCNN.Qsum map fold_right].
      destruct (ByteCNN.total_loss st) as [| t]; eexists; split;
        try reflexivity; ring.
    + destruct (Hcons ltac:(discriminate)) as [v [Hv Heq]].
      exists v. split; [exact Hv |]. rewrite Heq.
      destruct (ByteCNN.total_loss st) as [| t]; ring.
Qed.

Lemma eval_on_empty : eval_on [] = Raise AttributeError.
Proof. reflexivity. Qed.

Lemma eval_on_totals (stream : list ByteCNN.batch)
    (stats : list (Q * (Z * Z))) :
  rmapM batch_stats stream = Ok stats -> stats <> [] ->
  let errs := ByteCNN.Zsum (map (fun s => fst (snd s)) stats) in
  let samples := ByteCNN.Zsum (map (fun s => snd (snd s)) stats) in
  (samples = 0 -> eval_on stream = Raise ZeroDivisionError)
  /\ (samples <> 0 ->
      exists m, eval_on stream = Ok m
        /\ (ByteCNN.loss m ==
              ByteCNN.Qsum (map fst stats) / inject_Z (Z.of_nat (length stats)))%Q
        /\ ByteCNN.acc m =
             (100 - 100 * inject_Z errs / inject_Z samples)%Q).
Proof.
  intros Hstats Hne errs samples.
  destruct (eval_loop_totals stream stats
              {| ByteCNN.errs := 0; ByteCNN.samples := 0;
                 ByteCNN.total_loss := ByteCNN.IntZero;
                 ByteCNN.batch_cnt := 0 |} Hstats)
    as [st' [Hloop [Herrs [Hsamples [Hcnt [_ Hcons]]]]]].
  destruct (Hcons Hne) as [v [Hv Heq]].
  cbn [ByteCNN.errs ByteCNN.samples ByteCNN.batch_cnt ByteCNN.total_loss] in *.
  assert (Hlen : Z.of_nat (length stats) <> 0).
  { destruct stats; [congruence | cbn [length]; lia]. }
  unfold ByteCNN.eval_on. rewrite Hloop. cbn [rbind].
  unfold ByteCNN.eval_result. rewrite Hv, Hcnt, Hsamples, Herrs.
  rewrite !Z.add_0_l. fold errs samples.
  destruct (Z.eqb_spec (Z.of_nat (length stats)) 0) as [| _]; [contradiction |].
  cbn [rbind]. split.
  - intros Hz. rewrite Hz. reflexivity.
  - intros Hnz. destruct (Z.eqb_spec samples 0) as [| _]; [contradiction |].
    cbn [rbind]. eexists. split; [reflexivity |].
    cbn [ByteCNN.loss ByteCNN.acc]. split; [| reflexivity].
    rewrite Heq. now rewrite Qplus_0_l.
Qed.

Lemma batch_stats_samples (src : ByteCNN.batch) (l : Q) (e s : Z) :
  batch_stats src = Ok (l, (e, s)) ->
  s = Z.of_nat (length (List.filter (fun c => negb (c =? UTF8File.EMPTY))
                                    (concat src))).
Proof.
  unfold ByteCNN.batch_stats.
  destruct (ByteCNN.run_net np_log2 params net self src) as [tgt | err];
    cbn [rbind]; [| discriminate].
  destruct (ByteCNN.batch_loss nll tgt src) as [l' | err];
    cbn [rbind]; [| discriminate].
  unfold ByteCNN.batch_errors.
  destruct (ByteCNN.masked_select (ByteCNN.max_dim1 tgt) (ByteCNN.pad_mask src))
    as [p | err]; cbn [rbind]; [| discriminate].
  destruct (ByteCNN.masked_select src (ByteCNN.pad_mask src))
    as [q | err]; cbn [rbind]; [| discriminate].
  intros H. inversion H; subst. apply mask_sum_pad_mask.
Qed.

Lemma stream_samples (stream : list ByteCNN.batch) :
  forall stats : list (Q * (Z * Z)),
    rmapM batch_stats stream = Ok stats ->
    ByteCNN.Zsum (map (fun s => snd (snd s)) stats)
    = Z.of_nat (length (List.filter (fun c => negb (c =? UTF8File.EMPTY))
                                    (concat (concat stream)))).
Proof.
  induction stream as [| src stream IH]; intros stats Hstats;
    cbn [rmapM] in Hstats.
  - inversion Hstats. reflexivity.
  - destruct (batch_stats src) as [[l [e s]] | err] eqn:Hsrc;
      cbn [rbind] in Hstats; [| discriminate].
    destruct (rmapM batch_stats stream) as [stats' | err];
      cbn [rbind] in Hstats; [| discriminate].
    inversion Hstats; subst. cbn [map snd ByteCNN.Zsum fold_right concat].
    fold (ByteCNN.Zsum (map (fun s0 : Q * (Z * Z) => snd (snd s0)) stats')).
    rewrite (IH stats' eq_refl), (batch_stats_samples src l e s Hsrc).
    rewrite concat_app, List.filter_app, length_app. lia.
Qed.

End EvalFacts.

(** C7.  Over a non-empty stream whose batches pass the forward
    computation and hold at least one non-PAD target, [eval_on] returns
    the mean over the batches of their losses, and the accuracy
    [100 - 100 * errs / samples] in which [errs] and [samples] are the
    error and non-PAD position counts summed over all batches: the sums
    are divided, the per-batch rates are not averaged. *)
Theorem eval_on_divides_summed_counts
    (np_log2 : Z -> Q) (nll : list Q -> Z -> Q) (params : Type)
    (net : params -> ByteCNN.batch -> Z -> result ByteCNN.tensor3)
    (self : params) (stream : list ByteCNN.batch)
    (stats : list (Q * (Z * Z))) :
  rmapM (ByteCNN.batch_stats np_log2 nll params net self) stream = Ok stats ->
  stream <> [] ->
  ByteCNN.Zsum (map (fun s => snd (snd s)) stats) <> 0 ->
  exists m,
    ByteCNN.eval_on np_log2 nll params net self stream = Ok m
    /\ (ByteCNN.loss m ==
          ByteCNN.Qsum (map fst stats) / inject_Z (Z.of_nat (length stats)))%Q
    /\ ByteCNN.acc m =
         (100 - 100 * inject_Z (ByteCNN.Zsum (map (fun s => fst (snd s)) stats))
                / inject_Z (ByteCNN.Zsum (map (fun s => snd (snd s)) stats)))%Q
    /\ ByteCNN.Zsum (map (fun s => snd (snd s)) stats)
       = Z.of_nat (length (List.filter (fun c => negb (c =? UTF8File.EMPTY))
                                       (concat (concat stream)))).
Proof.
  intros Hstats Hstream Hsamples.
  assert (Hne : stats <> []).
  { intros ->. destruct stream as [| src stream]; [congruence |].
    cbn [rmapM] in Hstats.
    destruct (ByteCNN.batch_stats np_log2 nll params net self src);
      cbn [rbind] in Hstats; [| discriminate].
    destruct (rmapM (ByteCNN.batch_stats np_log2 nll params net self) stream);
      cbn [rbind] in Hstats; discriminate. }
  destruct (eval_on_totals np_log2 nll params net self stream stats Hstats Hne)
    as [_ Hok].
  destruct (Hok Hsamples) as [m [Hm [Hloss Hacc]]].
  exists m. split; [exact Hm |]. split; [exact Hloss |]. split; [exact Hacc |].
  now apply (stream_samples np_log2 nll params net self).
Qed.

(** Two batches of different sizes: one error among two counted
    positions, then two errors among three. *)
Lemma eval_on_divides_summed_counts_witness :
  exists m,
    ByteCNN.eval_on Reference.pl_log2 Reference.unit_nll unit
      Reference.zero_net tt [[[72; 0]]; [[72; 73; 0; 7]]] = Ok m
    /\ (ByteCNN.loss m == 1)%Q
    /\ (ByteCNN.acc m == 40)%Q.
Proof.
  destruct (eval_on_divides_summed_counts
              Reference.pl_log2 Reference.unit_nll unit Reference.zero_net tt
              [[[72; 0]]; [[72; 73; 0; 7]]]
              [((2 # 2)%Q, (1, 2)); ((3 # 3)%Q, (2, 3))]
              eq_refl ltac:(discriminate) ltac:(discriminate))
    as [m [Hm [Hloss [Hacc _]]]].
  exists m. split; [exact Hm |]. split.
  - rewrite Hloss. reflexivity.
  - rewrite Hacc. reflexivity.
Defined.

(** The mean of the two per-batch accuracies would be [125 / 3]. *)
Example eval_on_is_not_a_mean_of_batch_rates :
  forall m,
    ByteCNN.eval_on Reference.pl_log2 Reference.unit_nll unit
      Reference.zero_net tt [[[72; 0]]; [[72; 73; 0; 7]]] = Ok m ->
    ~ (ByteCNN.acc m == ((100 - 100 * 1 / 2) + (100 - 100 * 2 / 3)) / 2)%Q.
Proof.
  intros m Hm. vm_compute in Hm. inversion Hm; subst.
  cbn [ByteCNN.acc]. intros Heq. vm_compute in Heq. discriminate.
Qed.

(** The claim as worded fails at both ends: on the empty stream the
    error is not a division by zero, and a non-empty stream can still
    divide by zero. *)
Lemma eval_on_failures_are_not_as_claimed :
  ByteCNN.eval_on Reference.pl_log2 Reference.unit_nll unit
    Reference.zero_net tt [] <> Raise ZeroDivisionError
  /\ ByteCNN.eval_on Reference.pl_log2 Reference.unit_nll unit
       Reference.zero_net tt [[[7; 7; 7; 7]]] = Raise ZeroDivisionError.
Proof.
  split.
  - cbn. discriminate.
  - vm_compute. reflexivity.
Qed.

(** C10 (amended).  With no batch the loop body never runs,
    [total_loss] is still the integer 0 and [eval_on] raises on
    [total_loss.data], before any division, instead of returning
    metrics.  For a non-empty stream whose batches pass the forward
    computation the number of counted positions is the number of non-PAD
    targets of the stream; when it is not zero both divisions are
    defined and metrics are returned, and when it is zero the accuracy
    divides by zero. *)
Theorem eval_on_needs_a_batch_and_a_counted_position
    (np_log2 : Z -> Q) (nll : list Q -> Z -> Q) (params : Type)
    (net : params -> ByteCNN.batch -> Z -> result ByteCNN.tensor3)
    (self : params) :
  ByteCNN.eval_on np_log2 nll params net self [] = Raise AttributeError
  /\ (forall (stream : list ByteCNN.batch) (stats : list (Q * (Z * Z))),
        stream <> [] ->
        rmapM (ByteCNN.batch_stats np_log2 nll params net self) stream
          = Ok stats ->
        let counted :=
          Z.of_nat (length (List.filter (fun c => negb (c =? UTF8File.EMPTY))
                                        (concat (concat stream)))) in
        (counted <> 0 ->
           exists m, ByteCNN.eval_on np_log2 nll params net self stream = Ok m)
        /\ (counted = 0 ->
              ByteCNN.eval_on np_log2 nll params net self stream
              = Raise ZeroDivisionError)).
Proof.
  split; [reflexivity |].
  intros stream stats Hstream Hstats counted.
  assert (Hne : stats <> []).
  { intros ->. destruct stream as [| src stream]; [congruence |].
    cbn [rmapM] in Hstats.
    destruct (ByteCNN.batch_stats np_log2 nll params net self src);
      cbn [rbind] in Hstats; [| discriminate].
    destruct (rmapM (ByteCNN.batch_stats np_log2 nll params net self) stream);
      cbn [rbind] in Hstats; discriminate. }
  pose proof (stream_samples np_log2 nll params net self stream stats Hstats)
    as Hcount.
  destruct (eval_on_totals np_log2 nll params net self stream stats Hstats Hne)
    as [Hzero Hok].
  fold counted in Hcount. rewrite Hcount in Hzero, Hok.
  split.
  - intros Hnz. destruct (Hok Hnz) as [m [Hm _]]. now exists m.
  - exact Hzero.
Qed.

(** One batch holding one padded line. *)
Lemma eval_on_needs_a_batch_and_a_counted_position_witness :
  exists m,
    ByteCNN.eval_on Reference.pl_log2 Reference.unit_nll unit
      Reference.zero_net tt [[[72; 73; 0; 7]]] = Ok m.
Proof.
  destruct (eval_on_needs_a_batch_and_a_counted_position
              Reference.pl_log2 Reference.unit_nll unit Reference.zero_net tt)
    as [_ H].
  apply (H [[[72; 73; 0; 7]]] [((3 # 3)%Q, (2, 3))] ltac:(discriminate) eq_refl).
  discriminate.
Defined.

(** ** Loading a saved model: [load_model] *)

Lemma defaultdict_get_delete (p : gmap string string) (key : string) :
  delete key (snd (ByteCNN.defaultdict_get p key)) = delete key p.
Proof.
  unfold ByteCNN.defaultdict_get. destruct (p !! key); cbn [snd].
  - reflexivity.
  - apply delete_insert_eq.
Qed.

Section LoadFacts.
Variable pyobj : Type.
Variable model : Type.
Variable py_eval : string -> result pyobj.
Variable call : pyobj -> pyobj -> result model.
Variable load_state_dict : model -> string -> result model.
Variable open_lines : string -> result (list string).

Local Abbreviation load_model :=
  (ByteCNN.load_model pyobj model py_eval call load_state_dict open_lines).

(** The name [os] is not bound in the module. *)
Lemma load_model_as_written (path : string) :
  load_model ByteCNN.module_globals path = Raise NameError.
Proof. reflexivity. Qed.

(** Whatever the environment, the last test reads a key that line 315
    has deleted. *)
Lemma load_model_never_returns (globals : list string) (path : string)
    (m : model) :
  load_model globals path <> Ok m.
Proof.
  unfold ByteCNN.load_model.
  destruct (negb (existsb (String.eqb "os") globals)); [discriminate |].
  destruct (open_lines _) as [f | err]; cbn [rbind]; [| discriminate].
  destruct (ByteCNN.parse_info f ∅) as [d | err]; cbn [rbind]; [| discriminate].
  destruct (ByteCNN.defaultdict_get d "model_class") as [v1 p1].
  destruct (py_eval v1) as [cls | err]; cbn [rbind]; [| discriminate].
  destruct (ByteCNN.defaultdict_get (delete "model_class"%string p1) "model_kwargs")
    as [v2 p2].
  destruct (py_eval _) as [kw | err]; cbn [rbind]; [| discriminate].
  destruct (0 <? size (delete "model_kwargs"%string p2))%nat eqn:Hsize;
    [discriminate |].
  apply Nat.ltb_ge in Hsize.
  assert (Hempty : delete "model_kwargs"%string p2 = ∅).
  { apply map_size_empty_iff. lia. }
  rewrite Hempty. unfold ByteCNN.defaultdict_get.
  rewrite lookup_empty. cbn. discriminate.
Qed.

Lemma load_model_two_keys (globals : list string) (path : string)
    (f : list string) (d : gmap string string) (cls kw : pyobj) :
  existsb (String.eqb "os") globals = true ->
  open_lines (path ++ "/model.info")%string = Ok f ->
  ByteCNN.parse_info f ∅ = Ok d ->
  py_eval (fst (ByteCNN.defaultdict_get d "model_class")) = Ok cls ->
  py_eval ("dict("
           ++ fst (ByteCNN.defaultdict_get
                     (delete "model_class"%string
                        (snd (ByteCNN.defaultdict_get d "model_class")))
                     "model_kwargs")
           ++ ")")%string = Ok kw ->
  load_model globals path =
    if (0 <? size (delete "model_kwargs"%string
                     (delete "model_class"%string d)))%nat
    then Raise ValueError else Raise AssertionError.
Proof.
  intros Hos Hopen Hparse Hcls Hkw. unfold ByteCNN.load_model.
  rewrite Hos, Hopen. cbn [negb rbind]. rewrite Hparse. cbn [rbind].
  pose proof (defaultdict_get_delete d "model_class") as Hd1.
  destruct (ByteCNN.defaultdict_get d "model_class") as [v1 p1].
  cbn [fst snd] in *. rewrite Hcls. cbn [rbind].
  pose proof (defaultdict_get_delete (delete "model_class"%string p1)
                "model_kwargs") as Hd2.
  destruct (ByteCNN.defaultdict_get (delete "model_class"%string p1)
              "model_kwargs") as [v2 p2].
  cbn [fst snd] in *. rewrite Hkw. cbn [rbind].
  rewrite Hd2, Hd1.
  destruct (0 <? size (delete "model_kwargs"%string
                         (delete "model_class"%string d)))%nat eqn:Hsize;
    [reflexivity |].
  apply Nat.ltb_ge in Hsize.
  assert (Hempty : delete "model_kwargs"%string (delete "model_class"%string d)
                   = ∅).
  { apply map_size_empty_iff. lia. }
  rewrite Hempty. unfold ByteCNN.defaultdict_get.
  rewrite lookup_empty. reflexivity.
Qed.

End LoadFacts.

Lemma parse_reference_info :
  ByteCNN.parse_info Reference.model_info ∅ =
    Ok (<["model_kwargs"%string := "n=8,emsize=256"%string]>
          (<["model_class"%string := "ByteCNN"%string]> ∅)).
Proof. reflexivity. Qed.

(** C3.  On the descriptor holding exactly [model_class=ByteCNN] and
    [model_kwargs=n=8,emsize=256], with both [eval] calls succeeding,
    [load_model] raises: as the module stands the name [os] is unbound;
    were [os] imported, the key [model_class] is read again after its
    deletion, so the comparison with ['ByteCNN'] fails.  No descriptor
    and no environment make [load_model] return a model. *)
Theorem load_model_raises_on_well_formed_descriptor
    (pyobj model : Type) (py_eval : string -> result pyobj)
    (call : pyobj -> pyobj -> result model)
    (load_state_dict : model -> string -> result model)
    (open_lines : string -> result (list string))
    (path : string) (cls kw : pyobj) :
  open_lines (path ++ "/model.info")%string = Ok Reference.model_info ->
  py_eval "ByteCNN"%string = Ok cls ->
  py_eval "dict(n=8,emsize=256)"%string = Ok kw ->
  ByteCNN.load_model pyobj model py_eval call load_state_dict open_lines
    ByteCNN.module_globals path = Raise NameError
  /\ ByteCNN.load_model pyobj model py_eval call load_state_dict open_lines
       ("os"%string :: ByteCNN.module_globals) path = Raise AssertionError
  /\ (forall globals m,
        ByteCNN.load_model pyobj model py_eval call load_state_dict open_lines
          globals path <> Ok m).
Proof.
  intros Hopen Hcls Hkw.
  split; [reflexivity |].
  split; [| intros globals m; apply load_model_never_returns].
  set (d := <["model_kwargs"%string := "n=8,emsize=256"%string]>
              (<["model_class"%string := "ByteCNN"%string]>
                 (∅ : gmap string string))).
  assert (Hget1 : ByteCNN.defaultdict_get d "model_class"
                  = ("ByteCNN"%string, d)).
  { unfold ByteCNN.defaultdict_get, d.
    rewrite lookup_insert_ne by discriminate.
    now rewrite lookup_insert_eq. }
  assert (Hget2 : ByteCNN.defaultdict_get (delete "model_class"%string d)
                    "model_kwargs"
                  = ("n=8,emsize=256"%string, delete "model_class"%string d)).
  { unfold ByteCNN.defaultdict_get, d.
    rewrite lookup_delete_ne by discriminate.
    now rewrite lookup_insert_eq. }
  assert (Hleft : delete "model_kwargs"%string (delete "model_class"%string d)
                  = ∅).
  { unfold d. rewrite delete_insert_ne by discriminate.
    now rewrite !delete_insert_eq, !delete_empty. }
  rewrite (load_model_two_keys pyobj model py_eval call load_state_dict
             open_lines ("os"%string :: ByteCNN.module_globals) path
             Reference.model_info d cls kw eq_refl Hopen parse_reference_info).
  - rewrite Hleft. reflexivity.
  - rewrite Hget1. exact Hcls.
  - rewrite Hget1. cbn [snd]. rewrite Hget2. exact Hkw.
Qed.

(** An environment in which every step before the last test succeeds. *)
Lemma load_model_raises_on_well_formed_descriptor_witness :
  ByteCNN.load_model string unit (fun s => Ok s) (fun _ _ => Ok tt)
    (fun m _ => Ok m) (fun _ => Ok Reference.model_info)
    ("os"%string :: ByteCNN.module_globals) "run"%string
  = Raise AssertionError.
Proof.
  apply (load_model_raises_on_well_formed_descriptor
           string unit (fun s => Ok s) (fun _ _ => Ok tt)
           (fun m _ => Ok m) (fun _ => Ok Reference.model_info)
           "run"%string "ByteCNN"%string "dict(n=8,emsize=256)"%string
           eq_refl eq_refl eq_refl).
Defined.

(** Leftover keys are reported before the last test is reached. *)
Example load_model_extra_key :
  ByteCNN.load_model string unit (fun s => Ok s) (fun _ _ => Ok tt)
    (fun m _ => Ok m)
    (fun _ => Ok (Reference.model_info ++ ["lr=0.1"%string]))
    ("os"%string :: ByteCNN.module_globals) "run"%string
  = Raise ValueError.
Proof. vm_compute. reflexivity. Qed.

(** A line without [=] cannot be made into a dict entry. *)
Example load_model_malformed_line :
  ByteCNN.load_model string unit (fun s => Ok s) (fun _ _ => Ok tt)
    (fun m _ => Ok m)
    (fun _ => Ok ["model_class"%string])
    ("os"%string :: ByteCNN.module_globals) "run"%string
  = Raise ValueError.
Proof. vm_compute. reflexivity. Qed.

(* ===================================================================== *)
(** * Further properties of the script                                    *)
(* ===================================================================== *)

(** ** The buckets of a loader *)

Lemma lookup_bucket_append (k k0 : Z) (r : UTF8File.row) (d : UTF8File.buckets) :
  UTF8File.lookup_bucket k (UTF8File.bucket_append k0 r d) =
    if k =? k0
    then Ok (match UTF8File.lookup_bucket k0 d with
             | Ok rs => rs ++ [r]
             | Raise _ => [r]
             end)
    else UTF8File.lookup_bucket k d.
Proof.
  induction d as [| [k' rs] d IH];
    cbn [UTF8File.bucket_append UTF8File.lookup_bucket].
  - destruct (Z.eqb_spec k k0); reflexivity.
  - destruct (Z.eqb_spec k0 k') as [-> | Hne];
      cbn [UTF8File.lookup_bucket].
    + destruct (Z.eqb_spec k k'); reflexivity.
    + rewrite IH. destruct (Z.eqb_spec k k') as [-> | Hne'].
      * destruct (Z.eqb_spec k' k0); [congruence | reflexivity].
      * reflexivity.
Qed.

Lemma bucket_append_keys (k0 : Z) (r : UTF8File.row) (d : UTF8File.buckets) :
  map fst (UTF8File.bucket_append k0 r d) =
    if existsb (Z.eqb k0) (map fst d) then map fst d else map fst d ++ [k0].
Proof.
  induction d as [| [k' rs] d IH]; cbn [UTF8File.bucket_append map fst existsb].
  - reflexivity.
  - destruct (Z.eqb_spec k0 k') as [-> | Hne]; cbn [orb map fst].
    + reflexivity.
    + rewrite IH. now destruct (existsb (Z.eqb k0) (map fst d)).
Qed.

Lemma bucket_append_NoDup (k0 : Z) (r : UTF8File.row) (d : UTF8File.buckets) :
  List.NoDup (map fst d) ->
  List.NoDup (map fst (UTF8File.bucket_append k0 r d)).
Proof.
  intros Hnd. rewrite bucket_append_keys.
  destruct (existsb (Z.eqb k0) (map fst d)) eqn:Hex; [exact Hnd |].
  apply List.NoDup_app; [exact Hnd | repeat constructor; intros [] |].
  intros k Hin [Heq | []]. subst k.
  assert (Htrue : existsb (Z.eqb k0) (map fst d) = true).
  { apply existsb_exists. exists k0. split; [exact Hin | apply Z.eqb_refl]. }
  congruence.
Qed.

Lemma bucket_append_count (k0 : Z) (r : UTF8File.row) (d : UTF8File.buckets) :
  length (flat_map snd (UTF8File.bucket_append k0 r d))
  = S (length (flat_map snd d)).
Proof.
  induction d as [| [k' rs] d IH]; cbn [UTF8File.bucket_append flat_map snd].
  - reflexivity.
  - destruct (k0 =? k'); cbn [flat_map snd]; rewrite !length_app.
    + cbn [length]. lia.
    + rewrite IH. lia.
Qed.

Lemma read_lines_count (np_log2 : Z -> Q) (l : list (list Z)) :
  forall d : UTF8File.buckets,
    length (flat_map snd
              (fold_left
                 (fun d content =>
                    let bytes_ := UTF8File.pad_line np_log2 content in
                    UTF8File.bucket_append (Z.of_nat (length bytes_)) bytes_ d)
                 l d))
    = (length (flat_map snd d) + length l)%nat.
Proof.
  induction l as [| c l IH]; intros d; cbn [fold_left length]; [lia |].
  rewrite IH, bucket_append_count. lia.
Qed.

Lemma lookup_bucket_In (d : UTF8File.buckets) (k : Z) (rows : list UTF8File.row) :
  List.NoDup (map fst d) ->
  (In (k, rows) d <-> UTF8File.lookup_bucket k d = Ok rows).
Proof.
  induction d as [| [k' rs] d IH]; intros Hnd; cbn [UTF8File.lookup_bucket].
  - split; [intros [] | discriminate].
  - cbn [map fst] in Hnd. apply List.NoDup_cons_iff in Hnd.
    destruct Hnd as [Hnotin Hnd].
    destruct (Z.eqb_spec k k') as [-> | Hne].
    + split.
      * intros [Heq | Hin]; [now inversion Heq |].
        exfalso. apply Hnotin. apply (in_map fst) in Hin. exact Hin.
      * intros Heq. inversion Heq. now left.
    + rewrite <- (IH Hnd). split.
      * intros [Heq | Hin]; [inversion Heq; congruence | exact Hin].
      * intros Hin. now right.
Qed.

Lemma read_lines_fold (np_log2 : Z -> Q) (l : list (list Z)) :
  forall (P : list UTF8File.row) (d : UTF8File.buckets),
    List.NoDup (map fst d) ->
    (forall k, UTF8File.lookup_bucket k d =
               match List.filter (fun r => Z.of_nat (length r) =? k) P with
               | [] => Raise KeyError
               | r :: rs => Ok (r :: rs)
               end) ->
    let d' :=
      fold_left
        (fun d content =>
           let bytes_ := UTF8File.pad_line np_log2 content in
           UTF8File.bucket_append (Z.of_nat (length bytes_)) bytes_ d) l d in
    List.NoDup (map fst d')
    /\ (forall k, UTF8File.lookup_bucket k d' =
                  match List.filter (fun r => Z.of_nat (length r) =? k)
                                    (P ++ map (UTF8File.pad_line np_log2) l) with
                  | [] => Raise KeyError
                  | r :: rs => Ok (r :: rs)
                  end).
Proof.
  induction l as [| c l IH]; intros P d Hnd Hlook; cbn [fold_left map].
  - rewrite app_nil_r. split; assumption.
  - set (row := UTF8File.pad_line np_log2 c).
    replace (P ++ row :: map (UTF8File.pad_line np_log2) l)
      with ((P ++ [row]) ++ map (UTF8File.pad_line np_log2) l)
      by (now rewrite <- app_assoc).
    apply IH.
    + now apply bucket_append_NoDup.
    + intros k. rewrite lookup_bucket_append, List.filter_app.
      cbn [List.filter]. rewrite (Z.eqb_sym (Z.of_nat (length row)) k).
      destruct (Z.eqb_spec k (Z.of_nat (length row))) as [-> | Hne].
      * pose proof (Hlook (Z.of_nat (length row))) as HL.
        unfold UTF8File.row in *.
        destruct (List.filter
                    (fun r : list Z =>
                       Z.of_nat (length r) =? Z.of_nat (length row)) P)
          as [| r0 rs0]; rewrite HL; reflexivity.
      * rewrite app_nil_r. apply Hlook.
Qed.

(** X1.  The buckets built by the loader have distinct keys; the bucket
    of key [k] holds the padded lines of length [k], all of them and in
    the order of the file, and a key is present only when some line has
    that padded length. *)
Theorem buckets_hold_lines_of_one_length_in_file_order
    (np_log2 : Z -> Q) (file : list (list Z)) :
  let d := UTF8File.read_lines np_log2 file in
  let padded := map (UTF8File.pad_line np_log2) file in
  List.NoDup (map fst d)
  /\ (forall k, UTF8File.lookup_bucket k d =
                match List.filter (fun r => Z.of_nat (length r) =? k) padded with
                | [] => Raise KeyError
                | r :: rs => Ok (r :: rs)
                end)
  /\ (forall k rows, In (k, rows) d <-> UTF8File.lookup_bucket k d = Ok rows)
  /\ length (flat_map snd d) = length file.
Proof.
  intros d padded.
  destruct (read_lines_fold np_log2 file [] [] (List.NoDup_nil _)
              (fun k => eq_refl)) as [Hnd Hlook].
  fold (UTF8File.read_lines np_log2 file) in Hnd, Hlook. fold d in Hnd, Hlook.
  cbn [app] in Hlook. fold padded in Hlook.
  split; [exact Hnd |]. split; [exact Hlook |].
  split; [intros k rows; now apply lookup_bucket_In |].
  unfold d, UTF8File.read_lines. now rewrite read_lines_count.
Qed.

(** ** Training-mode iteration under a lawful generator *)

Lemma rmapM_app {A B} (f : A -> result B) (l1 l2 : list A) :
  rmapM f (l1 ++ l2) =
    (let! a := rmapM f l1 in let! b := rmapM f l2 in Ok (a ++ b)).
Proof.
  induction l1 as [| x l1 IH]; cbn [app rmapM rbind].
  - now destruct (rmapM f l2).
  - destruct (f x) as [y | e]; cbn [rbind]; [| reflexivity].
    rewrite IH. destruct (rmapM f l1) as [a | e]; cbn [rbind]; [| reflexivity].
    now destruct (rmapM f l2).
Qed.

Lemma rmapM_Ok_map {A B} (f : A -> result B) (g : A -> B) (l : list A) :
  (forall x, In x l -> f x = Ok (g x)) -> rmapM f l = Ok (map g l).
Proof.
  induction l as [| x l IH]; intros Hf; cbn [rmapM map]; [reflexivity |].
  rewrite (Hf x (or_introl eq_refl)). cbn [rbind].
  rewrite IH by (intros y Hy; apply Hf; now right). reflexivity.
Qed.

Lemma rmapM_Forall2 {A B} (f : A -> result B) (l : list A) :
  forall bs, rmapM f l = Ok bs <-> List.Forall2 (fun x b => f x = Ok b) l bs.
Proof.
  induction l as [| x l IH]; intros bs; cbn [rmapM].
  - split.
    + intros H. inversion H. constructor.
    + intros H. inversion H. reflexivity.
  - split.
    + destruct (f x) as [y | e] eqn:Hx; cbn [rbind]; [| discriminate].
      destruct (rmapM f l) as [ys | e] eqn:Hl; cbn [rbind]; [| discriminate].
      intros H. inversion H; subst. constructor; [exact Hx |].
      now apply IH.
    + intros H. inversion H as [| x0 b l0 bs0 Hx Hrest]; subst.
      rewrite Hx. cbn [rbind].
      apply IH in Hrest. rewrite Hrest. reflexivity.
Qed.

Lemma rmapM_Permutation {A B} (f : A -> result B) (l l' : list A) :
  Permutation l l' ->
  forall bs, rmapM f l = Ok bs ->
  exists bs', rmapM f l' = Ok bs' /\ Permutation bs bs'.
Proof.
  induction 1 as [| x l l' Hperm IH | x y l | l l' l'' H1 IH1 H2 IH2];
    intros bs Hbs.
  - exists bs. split; [exact Hbs | apply Permutation_refl].
  - cbn [rmapM] in *.
    destruct (f x) as [b | e]; cbn [rbind] in *; [| discriminate].
    destruct (rmapM f l) as [bs0 | e]; cbn [rbind] in *; [| discriminate].
    inversion Hbs; subst. destruct (IH bs0 eq_refl) as [bs' [Hbs' Hp]].
    rewrite Hbs'. cbn [rbind]. exists (b :: bs'). split; [reflexivity |].
    now constructor.
  - cbn [rmapM] in *.
    destruct (f y) as [b2 | e]; cbn [rbind] in *; [| discriminate].
    destruct (f x) as [b1 | e]; cbn [rbind] in *; [| discriminate].
    destruct (rmapM f l) as [bs0 | e]; cbn [rbind] in *; [| discriminate].
    inversion Hbs; subst. exists (b1 :: b2 :: bs0). split; [reflexivity |].
    apply perm_swap.
  - destruct (IH1 bs Hbs) as [bs1 [Hbs1 Hp1]].
    destruct (IH2 bs1 Hbs1) as [bs2 [Hbs2 Hp2]].
    exists bs2. split; [exact Hbs2 |]. now apply Permutation_trans with bs1.
Qed.

Lemma section_sizes_exact (n k : nat) :
  (0 < k)%nat -> (n mod k = 0)%nat ->
  UTF8File.section_sizes n k = repeat (n / k)%nat k.
Proof.
  intros Hk Hmod. unfold UTF8File.section_sizes. rewrite Hmod.
  cbn [repeat app]. now rewrite Nat.sub_0_r.
Qed.

Lemma array_split_exact {A} (ary : list A) (k : nat) (chunk : list A) :
  (0 < k)%nat -> (length ary mod k = 0)%nat ->
  In chunk (UTF8File.array_split ary k) ->
  length chunk = (length ary / k)%nat.
Proof.
  intros Hk Hmod Hin.
  assert (Hsizes : In (length chunk) (UTF8File.section_sizes (length ary) k)).
  { rewrite <- (split_sizes_lengths
                  (UTF8File.section_sizes (length ary) k) ary).
    - apply in_map. exact Hin.
    - rewrite section_sizes_sum by exact Hk. lia. }
  rewrite section_sizes_exact in Hsizes by assumption.
  now apply repeat_spec in Hsizes.
Qed.

Lemma take_rows_in_range (data : list UTF8File.row) (inds : list Z) :
  (forall i, In i inds -> 0 <= i < Z.of_nat (length data)) ->
  UTF8File.take_rows data inds =
    Ok (map (fun i => nth (Z.to_nat i) data []) inds).
Proof.
  intros Hrange. unfold UTF8File.take_rows. apply rmapM_Ok_map.
  intros i Hi. specialize (Hrange i Hi). ztest. reflexivity.
Qed.

Lemma rows_by_index (data : list UTF8File.row) :
  map (fun i => nth (Z.to_nat i) data [])
      (map Z.of_nat (seq 0 (length data)))
  = data.
Proof.
  rewrite map_map.
  apply (nth_ext _ _ [] []).
  - now rewrite length_map, length_seq.
  - intros i Hi. rewrite length_map, length_seq in Hi.
    rewrite (nth_map_seq (fun x => nth (Z.to_nat (Z.of_nat x)) data []))
      by exact Hi.
    now rewrite Nat2Z.id.
Qed.

Lemma bucket_index_batches (n bsz : Z) (perm : list Z) :
  0 < bsz -> 0 <= n -> n / bsz <> 0 ->
  Permutation perm (map Z.of_nat (seq 0 (Z.to_nat n))) ->
  let m := Z.to_nat (bsz * (n / bsz)) in
  exists parts,
    UTF8File.np_split (firstn m perm) (n / bsz) = Ok parts
    /\ Z.of_nat (length parts) = n / bsz
    /\ (forall p, In p parts ->
          Z.of_nat (length p) = bsz
          /\ (forall i, In i p -> 0 <= i < n))
    /\ concat parts = firstn m perm.
Proof.
  intros Hb Hn Hnb Hperm m.
  assert (Hq : 0 < n / bsz).
  { pose proof (Z.div_pos n bsz Hn Hb). lia. }
  assert (Hmn : bsz * (n / bsz) <= n) by (apply Z.mul_div_le; lia).
  assert (Hlenperm : length perm = Z.to_nat n).
  { rewrite (Permutation_length Hperm), length_map, length_seq. reflexivity. }
  assert (Hlen : length (firstn m perm) = m).
  { rewrite length_firstn, Hlenperm. unfold m. lia. }
  assert (HlenZ : Z.of_nat (length (firstn m perm)) = bsz * (n / bsz)).
  { rewrite Hlen. unfold m. lia. }
  assert (Hk : (0 < Z.to_nat (n / bsz))%nat) by lia.
  assert (Hmod : (length (firstn m perm) mod Z.to_nat (n / bsz) = 0)%nat).
  { rewrite Hlen. unfold m. rewrite Z2Nat.inj_mul by lia.
    apply Nat.Div0.mod_mul. }
  exists (UTF8File.array_split (firstn m perm) (Z.to_nat (n / bsz))).
  split.
  { unfold UTF8File.np_split. rewrite HlenZ.
    rewrite Z.mod_mul by lia. ztest. reflexivity. }
  split; [rewrite array_split_length by exact Hk; lia |].
  split; [| now apply array_split_concat].
  intros p Hp. split.
  - rewrite (array_split_exact _ _ p Hk Hmod Hp), Hlen. unfold m.
    rewrite Z2Nat.inj_mul by lia.
    rewrite Nat.div_mul by lia. lia.
  - intros i Hi.
    assert (Hin : In i perm).
    { assert (Hc : In i (concat (UTF8File.array_split (firstn m perm)
                                     (Z.to_nat (n / bsz))))).
      { apply in_concat. exists p. split; assumption. }
      rewrite array_split_concat in Hc by exact Hk.
      rewrite <- (firstn_skipn m perm). apply in_or_app. now left. }
    apply (Permutation_in _ Hperm) in Hin.
    apply in_map_iff in Hin. destruct Hin as [j [<- Hj]].
    apply in_seq in Hj. lia.
Qed.

Lemma get_num_batches_sum (R : UTF8File.np_random) (self : UTF8File.t R)
    (bsz : Z) :
  bsz <> 0 ->
  UTF8File.get_num_batches R self bsz =
    Ok (ByteCNN.Zsum
          (map (fun kd : Z * list UTF8File.row =>
                  Z.of_nat (length (snd kd)) / bsz) (UTF8File.lines self))).
Proof.
  intros Hb. unfold UTF8File.get_num_batches.
  assert (Hgen : forall (d : UTF8File.buckets) (acc : Z),
    fold_left
      (fun (a : result Z) '(_, data) =>
         let! s := a in
         if bsz =? 0 then Raise ZeroDivisionError
         else Ok (s + Z.of_nat (length data) / bsz)) d (Ok acc)
    = Ok (acc + ByteCNN.Zsum
                  (map (fun kd : Z * list UTF8File.row =>
                          Z.of_nat (length (snd kd)) / bsz) d))).
  { induction d as [| [k data] d IH]; intros acc;
      cbn [fold_left map snd ByteCNN.Zsum fold_right rbind].
    - f_equal. lia.
    - destruct (Z.eqb_spec bsz 0) as [| _]; [contradiction |].
      rewrite IH. f_equal.
      fold (ByteCNN.Zsum
              (map (fun kd : Z * list UTF8File.row =>
                      Z.of_nat (length (snd kd)) / bsz) d)). lia. }
  rewrite Hgen. f_equal.
Qed.

Section TrainingBatches.
Variable R : UTF8File.np_random.
Hypothesis Hlaw : NumpyLaws.lawful R.
Variable bsz : Z.
Hypothesis Hbsz : 0 < bsz.
Variable D : UTF8File.buckets.

Local Abbreviation gather :=
  (fun '(len_, inds) =>
     let! data := UTF8File.lookup_bucket len_ D in
     UTF8File.take_rows data inds).

Local Abbreviation full_batches d :=
  (ByteCNN.Zsum
     (map (fun kd : Z * list UTF8File.row =>
             Z.of_nat (length (snd kd)) / bsz) d)).

Lemma batch_indices_spec (d : UTF8File.buckets) :
  forall g : UTF8File.rng_state R,
    (forall k data, In (k, data) d -> UTF8File.lookup_bucket k D = Ok data) ->
    exists bi batches leftover,
      fst (UTF8File.batch_indices R d bsz g) = Ok bi
      /\ rmapM gather bi = Ok batches
      /\ Z.of_nat (length batches) = full_batches d
      /\ (forall b, In b batches ->
            Z.of_nat (length b) = bsz
            /\ exists k data,
                 In (k, data) d
                 /\ bsz <= Z.of_nat (length data)
                 /\ forall r, In r b -> In r data)
      /\ Permutation (concat batches ++ leftover) (flat_map snd d).
Proof.
  induction d as [| [k data] d IH]; intros g HD.
  - exists [], [], [].
    split; [reflexivity |]. split; [reflexivity |]. split; [reflexivity |].
    split; [intros b0 [] | constructor].
  - cbn [UTF8File.batch_indices].
    destruct (Z.eqb_spec bsz 0) as [| _]; [lia |].
    assert (HD' : forall k' data', In (k', data') d ->
                    UTF8File.lookup_bucket k' D = Ok data').
    { intros k' data' Hin. apply HD. now right. }
    cbn [map snd ByteCNN.Zsum fold_right flat_map].
    fold (ByteCNN.Zsum
            (map (fun kd : Z * list UTF8File.row =>
                    Z.of_nat (length (snd kd)) / bsz) d)).
    set (n := Z.of_nat (length data)).
    destruct (Z.eqb_spec (n / bsz) 0) as [Hzero | Hnz].
    + destruct (IH g HD') as [bi [batches [lo [Hbi [Hg [Hcnt [Hrows Hperm]]]]]]].
      exists bi, batches, (data ++ lo).
      split; [exact Hbi |]. split; [exact Hg |]. split; [lia |].
      split.
      * intros b Hb.
        destruct (Hrows b Hb) as [Hlen [k' [data' [Hin [Hfull Hr]]]]].
        split; [exact Hlen |]. exists k', data'.
        split; [now right |]. split; [exact Hfull | exact Hr].
      * rewrite Permutation_app_swap_app. now apply Permutation_app_head.
    + destruct Hlaw as [Hpermlaw _].
      pose proof (Hpermlaw n g) as Hp.
      destruct (UTF8File.permutation R n g) as [perm g1]. cbn [fst] in Hp.
      destruct (bucket_index_batches n bsz perm Hbsz ltac:(lia) Hnz Hp)
        as [parts [Hsplit [Hnparts [Hparts Hconcat]]]].
      rewrite Hsplit.
      destruct (IH g1 HD') as [bi [batches [lo [Hbi [Hg [Hcnt [Hrows Hperm]]]]]]].
      destruct (UTF8File.batch_indices R d bsz g1) as [rest g2].
      cbn [fst] in Hbi. subst rest. cbn [fst rbind].
      set (m := Z.to_nat (bsz * (n / bsz))) in *.
      set (row_at := fun i : Z => nth (Z.to_nat i) data []).
      assert (Hgather :
        rmapM gather (map (fun inds => (k, inds)) parts)
        = Ok (map (map row_at) parts)).
      { rewrite (rmapM_Ok_map gather
                   (fun ki : Z * list Z => map row_at (snd ki))).
        - now rewrite map_map.
        - intros [k' inds] Hin. apply in_map_iff in Hin.
          destruct Hin as [p [Heq Hp']]. injection Heq as Hk Hi.
          subst k' inds.
          rewrite (HD k data (or_introl eq_refl)). cbn [rbind snd].
          apply take_rows_in_range. intros i Hi.
          now apply (proj2 (Hparts p Hp')). }
      exists (map (fun inds => (k, inds)) parts ++ bi),
             (map (map row_at) parts ++ batches),
             (map row_at (skipn m perm) ++ lo).
      split; [reflexivity |].
      split; [rewrite rmapM_app, Hgather, Hg; reflexivity |].
      split.
      { rewrite length_app, length_map, Nat2Z.inj_add, Hnparts.
        apply (f_equal (Z.add (n / bsz))). exact Hcnt. }
      split.
      * intros b Hb. apply in_app_or in Hb. destruct Hb as [Hb | Hb].
        -- apply in_map_iff in Hb. destruct Hb as [p [<- Hp']].
           destruct (Hparts p Hp') as [Hlen Hrange].
           split; [now rewrite length_map |].
           exists k, data. split; [now left |].
           split.
           { fold n. destruct (Z_lt_le_dec n bsz) as [Hlt | Hle];
               [| exact Hle].
             exfalso. apply Hnz. apply Z.div_small. unfold n. lia. }
           intros r Hr. apply in_map_iff in Hr. destruct Hr as [i [<- Hi]].
           unfold row_at. apply nth_In. specialize (Hrange i Hi). lia.
        -- destruct (Hrows b Hb) as [Hlen [k' [data' [Hin [Hfull Hr]]]]].
           split; [exact Hlen |]. exists k', data'.
           split; [now right |]. split; [exact Hfull | exact Hr].
      * rewrite concat_app, <- concat_map, Hconcat.
        rewrite <- app_assoc.
        rewrite (Permutation_app_swap_app (concat batches)).
        rewrite app_assoc, <- map_app, firstn_skipn.
        apply Permutation_app; [| exact Hperm].
        rewrite (Permutation_map row_at Hp). unfold n.
        rewrite Nat2Z.id. unfold row_at. now rewrite rows_by_index.
Qed.

End TrainingBatches.

Lemma concat_Permutation {A} (l l' : list (list A)) :
  Permutation l l' -> Permutation (concat l) (concat l').
Proof.
  induction 1 as [| x l l' _ IH | x y l | l l' l'' _ IH1 _ IH2]; cbn [concat].
  - constructor.
  - now apply Permutation_app_head.
  - rewrite !app_assoc. apply Permutation_app_tail, Permutation_app_comm.
  - now apply Permutation_trans with (concat l').
Qed.

Lemma iter_epoch_training_spec (R : UTF8File.np_random)
    (self : UTF8File.t R) (bsz : Z) (g : UTF8File.rng_state R) :
  NumpyLaws.lawful R -> 0 < bsz ->
  List.NoDup (map fst (UTF8File.lines self)) ->
  exists batches leftover,
    fst (UTF8File.iter_epoch R self bsz false g) = Ok batches
    /\ UTF8File.get_num_batches R self bsz = Ok (Z.of_nat (length batches))
    /\ (forall b, In b batches ->
          Z.of_nat (length b) = bsz
          /\ exists k data,
               In (k, data) (UTF8File.lines self)
               /\ bsz <= Z.of_nat (length data)
               /\ forall r, In r b -> In r data)
    /\ Permutation (concat batches ++ leftover)
                   (flat_map snd (UTF8File.lines self)).
Proof.
  intros Hlaw Hb Hnd.
  destruct (batch_indices_spec R Hlaw bsz Hb (UTF8File.lines self)
              (UTF8File.lines self) g)
    as [bi [batches [lo [Hbi [Hg [Hcnt [Hrows Hperm]]]]]]].
  { intros k data Hin. now apply lookup_bucket_In. }
  unfold UTF8File.iter_epoch.
  destruct (UTF8File.batch_indices R (UTF8File.lines self) bsz g)
    as [r g1]. cbn [fst] in Hbi. subst r.
  destruct Hlaw as [_ Hshuffle].
  pose proof (Hshuffle _ bi g1) as Hsh.
  destruct (UTF8File.shuffle R bi g1) as [bi' g2]. cbn [fst] in Hsh |- *.
  destruct (rmapM_Permutation _ bi bi' (Permutation_sym Hsh) batches Hg)
    as [batches' [Hg' Hpb]].
  exists batches', lo.
  split; [exact Hg' |].
  split.
  { rewrite get_num_batches_sum by lia.
    rewrite <- (Permutation_length Hpb). f_equal. symmetry. exact Hcnt. }
  split.
  { intros b Hin. apply Hrows.
    now apply (Permutation_in _ (Permutation_sym Hpb)). }
  apply Permutation_trans with (concat batches ++ lo); [| exact Hperm].
  apply Permutation_app_tail, concat_Permutation. now apply Permutation_sym.
Qed.

(** The generator of the reference is lawful. *)
Lemma swap_head_Permutation {A} (l : list A) :
  forall (j : nat) (a y : A),
    l !! j = Some y -> Permutation (y :: <[j := a]> l) (a :: l).
Proof.
  induction l as [| b l IH]; intros [| j] a y Hj; try discriminate.
  - cbn in Hj. inversion Hj; subst. cbn. apply perm_swap.
  - cbn in Hj. cbn.
    apply Permutation_trans with (b :: y :: <[j := a]> l); [apply perm_swap |].
    apply Permutation_trans with (b :: a :: l); [| apply perm_swap].
    apply perm_skip. now apply IH.
Qed.

Lemma swap_Permutation {A} (l : list A) :
  forall (i j : nat) (x y : A),
    l !! i = Some x -> l !! j = Some y ->
    Permutation (<[i := y]> (<[j := x]> l)) l.
Proof.
  induction l as [| a l IH]; intros [| i] [| j] x y Hi Hj; try discriminate;
    cbn in Hi, Hj; cbn.
  - inversion Hi; inversion Hj; subst. apply Permutation_refl.
  - inversion Hi; subst. now apply swap_head_Permutation.
  - inversion Hj; subst. now apply swap_head_Permutation.
  - apply perm_skip. now apply IH.
Qed.

Lemma fisher_yates_Permutation {A} (i : nat) :
  forall (l : list A) (s : Z),
    Permutation (fst (Reference.fisher_yates i l s)) l.
Proof.
  induction i as [| i IH]; intros l s; cbn [Reference.fisher_yates].
  - apply Permutation_refl.
  - destruct (l !! S i) as [x |] eqn:Hi; [| apply Permutation_refl].
    destruct (l !! Z.to_nat (Reference.lcg_next s mod Z.of_nat (S i)))
      as [y |] eqn:Hj; [| apply Permutation_refl].
    eapply Permutation_trans; [apply IH |].
    now apply swap_Permutation.
Qed.

Lemma lcg_lawful : NumpyLaws.lawful Reference.lcg.
Proof.
  split.
  - intros n g. apply fisher_yates_Permutation.
  - intros A l g. apply fisher_yates_Permutation.
Qed.

Lemma read_lines_NoDup (np_log2 : Z -> Q) (file : list (list Z)) :
  List.NoDup (map fst (UTF8File.read_lines np_log2 file)).
Proof.
  exact (proj1 (read_lines_fold np_log2 file [] [] (List.NoDup_nil _)
                  (fun k => eq_refl))).
Qed.

Lemma bucket_append_rows (k0 : Z) (r : UTF8File.row) (d : UTF8File.buckets) :
  Permutation (flat_map snd (UTF8File.bucket_append k0 r d))
              (flat_map snd d ++ [r]).
Proof.
  induction d as [| [k' rs] d IH]; cbn [UTF8File.bucket_append flat_map snd].
  - apply Permutation_refl.
  - destruct (k0 =? k'); cbn [flat_map snd].
    + rewrite <- !app_assoc. apply Permutation_app_head.
      apply Permutation_app_comm.
    + rewrite <- app_assoc. now apply Permutation_app_head.
Qed.

Lemma read_lines_rows (np_log2 : Z -> Q) (file : list (list Z)) :
  Permutation (flat_map snd (UTF8File.read_lines np_log2 file))
              (map (UTF8File.pad_line np_log2) file).
Proof.
  unfold UTF8File.read_lines.
  assert (Hgen : forall (l : list (list Z)) (d : UTF8File.buckets),
    Permutation
      (flat_map snd
         (fold_left
            (fun d content =>
               let bytes_ := UTF8File.pad_line np_log2 content in
               UTF8File.bucket_append (Z.of_nat (length bytes_)) bytes_ d)
            l d))
      (flat_map snd d ++ map (UTF8File.pad_line np_log2) l)).
  { induction l as [| c l IH]; intros d; cbn [fold_left map].
    - rewrite app_nil_r. apply Permutation_refl.
    - eapply Permutation_trans; [apply IH |].
      eapply Permutation_trans;
        [apply Permutation_app_tail, bucket_append_rows |].
      rewrite <- app_assoc. apply Permutation_refl. }
  apply (Hgen file []).
Qed.

(** X2.  With a lawful generator and a positive batch size, a training
    epoch over a loaded file yields exactly [get_num_batches] batches;
    every batch holds exactly [bsz] rows, all of one length and all
    taken from one bucket that has at least [bsz] rows: smaller buckets
    give no batch and no batch is short. *)
Theorem training_epoch_yields_full_batches
    (np_log2 : Z -> Q) (R : UTF8File.np_random) (file : list (list Z))
    (seed bsz : Z) (g : UTF8File.rng_state R) :
  NumpyLaws.lawful R -> 0 < bsz ->
  let self := UTF8File.init np_log2 R file seed in
  exists batches,
    fst (UTF8File.iter_epoch R self bsz false g) = Ok batches
    /\ UTF8File.get_num_batches R self bsz = Ok (Z.of_nat (length batches))
    /\ (forall b, In b batches ->
          Z.of_nat (length b) = bsz
          /\ exists k data,
               In (k, data) (UTF8File.lines self)
               /\ bsz <= Z.of_nat (length data)
               /\ forall r, In r b -> In r data /\ Z.of_nat (length r) = k).
Proof.
  intros Hlaw Hb self.
  destruct (iter_epoch_training_spec R self bsz g Hlaw Hb
              (read_lines_NoDup np_log2 file))
    as [batches [lo [Hit [Hnum [Hrows _]]]]].
  exists batches. split; [exact Hit |]. split; [exact Hnum |].
  intros b Hin. destruct (Hrows b Hin) as [Hlen [k [data [Hkd [Hfull Hr]]]]].
  split; [exact Hlen |]. exists k, data. split; [exact Hkd |].
  split; [exact Hfull |].
  intros r Hr'. split; [now apply Hr |].
  destruct (read_lines_stored np_log2 file k data r Hkd (Hr r Hr'))
    as [c [_ [_ Hk]]]. now symmetry.
Qed.

(** Five lines of padded length 4 and one of length 2, batches of 2. *)
Lemma training_epoch_yields_full_batches_witness :
  let file := [[104; 105]; [72; 73]; [97; 98]; [97]; [99; 100]; [101; 102]] in
  let self := UTF8File.init Reference.pl_log2 Reference.lcg file 1111 in
  exists batches,
    fst (UTF8File.iter_epoch Reference.lcg self 2 false 1) = Ok batches
    /\ UTF8File.get_num_batches Reference.lcg self 2
       = Ok (Z.of_nat (length batches))
    /\ length batches = 2%nat.
Proof.
  intros file self.
  destruct (training_epoch_yields_full_batches
              Reference.pl_log2 Reference.lcg file 1111 2 1
              lcg_lawful ltac:(lia))
    as [batches [Hit [Hnum _]]].
  exists batches. split; [exact Hit |]. split; [exact Hnum |].
  assert (Hn : UTF8File.get_num_batches Reference.lcg self 2 = Ok 2)
    by (vm_compute; reflexivity).
  pose proof (eq_trans (eq_sym Hn) Hnum) as Heq.
  inversion Heq as [Hlen]. lia.
Defined.

(** X3.  With a lawful generator and a positive batch size, a training
    epoch uses every stored line at most once: the rows of its batches
    together with a remainder of dropped rows are a rearrangement of the
    padded lines of the file, and the remainder holds exactly the lines
    that did not fill a batch. *)
Theorem training_epoch_uses_each_line_at_most_once
    (np_log2 : Z -> Q) (R : UTF8File.np_random) (file : list (list Z))
    (seed bsz : Z) (g : UTF8File.rng_state R) :
  NumpyLaws.lawful R -> 0 < bsz ->
  let self := UTF8File.init np_log2 R file seed in
  exists batches dropped,
    fst (UTF8File.iter_epoch R self bsz false g) = Ok batches
    /\ Permutation (concat batches ++ dropped)
                   (map (UTF8File.pad_line np_log2) file)
    /\ Z.of_nat (length dropped)
       = Z.of_nat (length file) - bsz * Z.of_nat (length batches).
Proof.
  intros Hlaw Hb self.
  destruct (iter_epoch_training_spec R self bsz g Hlaw Hb
              (read_lines_NoDup np_log2 file))
    as [batches [lo [Hit [_ [Hrows Hperm]]]]].
  exists batches, lo. split; [exact Hit |].
  assert (Hall : Permutation (concat batches ++ lo)
                             (map (UTF8File.pad_line np_log2) file)).
  { eapply Permutation_trans; [exact Hperm |]. apply read_lines_rows. }
  split; [exact Hall |].
  apply Permutation_length in Hall.
  rewrite length_app, length_map in Hall.
  assert (Hcat : Z.of_nat (length (concat batches))
                 = bsz * Z.of_nat (length batches)).
  { clear - Hrows. induction batches as [| b batches IH]; cbn [concat length].
    - lia.
    - rewrite length_app, Nat2Z.inj_add.
      rewrite (proj1 (Hrows b (or_introl eq_refl))).
      rewrite IH by (intros b' Hb'; apply Hrows; now right). lia. }
  lia.
Qed.

(** The same file: four of its six lines are used, two are dropped. *)
Lemma training_epoch_uses_each_line_at_most_once_witness :
  let file := [[104; 105]; [72; 73]; [97; 98]; [97]; [99; 100]; [101; 102]] in
  let self := UTF8File.init Reference.pl_log2 Reference.lcg file 1111 in
  exists batches dropped,
    fst (UTF8File.iter_epoch Reference.lcg self 2 false 1) = Ok batches
    /\ Permutation (concat batches ++ dropped)
                   (map (UTF8File.pad_line Reference.pl_log2) file)
    /\ Z.of_nat (length dropped)
       = Z.of_nat (length file) - 2 * Z.of_nat (length batches).
Proof.
  intros file self.
  apply (training_epoch_uses_each_line_at_most_once
           Reference.pl_log2 Reference.lcg file 1111 2 1
           lcg_lawful ltac:(lia)).
Defined.

(** ** Degenerate batch sizes and the batches of evaluation mode *)

Lemma get_num_batches_raised (bsz : Z) (d : UTF8File.buckets) (e : pyerr) :
  fold_left
    (fun (acc : result Z) '(_, data) =>
       let! s := acc in
       if bsz =? 0 then Raise ZeroDivisionError
       else Ok (s + Z.of_nat (length data) / bsz)) d (Raise e)
  = Raise e.
Proof.
  induction d as [| [k data] d IH]; cbn [fold_left rbind]; [reflexivity |].
  exact IH.
Qed.

(** X4.  A batch size of zero is a division by zero as soon as the
    loader holds a bucket: in training mode, in evaluation mode and in
    [get_num_batches]; a loader without any line yields no batch in
    evaluation mode and counts zero batches, whatever the batch size. *)
Theorem zero_batch_size_divides_by_zero
    (R : UTF8File.np_random) (self : UTF8File.t R)
    (g : UTF8File.rng_state R) :
  (UTF8File.lines self <> [] ->
     forall evaluation,
       fst (UTF8File.iter_epoch R self 0 evaluation g) = Raise ZeroDivisionError)
  /\ (UTF8File.lines self <> [] ->
        UTF8File.get_num_batches R self 0 = Raise ZeroDivisionError)
  /\ (UTF8File.lines self = [] ->
        forall bsz,
          UTF8File.iter_epoch R self bsz true g = (Ok [], g)
          /\ UTF8File.get_num_batches R self bsz = Ok 0).
Proof.
  split; [| split].
  - intros Hne evaluation. unfold UTF8File.iter_epoch.
    destruct (UTF8File.lines self) as [| [k data] d]; [congruence |].
    destruct evaluation; reflexivity.
  - intros Hne. unfold UTF8File.get_num_batches.
    destruct (UTF8File.lines self) as [| [k data] d]; [congruence |].
    cbn [fold_left]. exact (get_num_batches_raised 0 d ZeroDivisionError).
  - intros Hnil bsz. unfold UTF8File.iter_epoch, UTF8File.get_num_batches.
    rewrite Hnil. split; reflexivity.
Qed.

(** A loader over one line, asked for batches of size zero. *)
Lemma zero_batch_size_divides_by_zero_witness :
  let self := UTF8File.init Reference.pl_log2 Reference.lcg [[104; 105]] 1 in
  fst (UTF8File.iter_epoch Reference.lcg self 0 false 5)
  = Raise ZeroDivisionError
  /\ UTF8File.get_num_batches Reference.lcg self 0 = Raise ZeroDivisionError.
Proof.
  intros self.
  destruct (zero_batch_size_divides_by_zero Reference.lcg self 5)
    as [Hiter [Hnum _]].
  split.
  - apply Hiter. vm_compute. discriminate.
  - apply Hnum. vm_compute. discriminate.
Defined.

Lemma read_lines_bucket_nonempty (np_log2 : Z -> Q) (file : list (list Z))
    (k : Z) (data : list UTF8File.row) :
  In (k, data) (UTF8File.read_lines np_log2 file) -> data <> [].
Proof.
  intros Hin.
  destruct (read_lines_fold np_log2 file [] [] (List.NoDup_nil _)
              (fun k => eq_refl)) as [Hnd Hlook].
  fold (UTF8File.read_lines np_log2 file) in Hnd, Hlook.
  apply (lookup_bucket_In _ k data Hnd) in Hin.
  rewrite Hlook in Hin.
  destruct (List.filter _ _) as [| r rs]; [discriminate |].
  inversion Hin. discriminate.
Qed.

Lemma eval_batches_In (d : UTF8File.buckets) (bsz : Z) (b : UTF8File.batch) :
  In b (flat_map
          (fun '(_, data) =>
             UTF8File.array_split data
               (Z.to_nat (Z.max 1 (Z.of_nat (length data) / bsz)))) d) ->
  exists k data,
    In (k, data) d
    /\ In b (UTF8File.array_split data
               (Z.to_nat (Z.max 1 (Z.of_nat (length data) / bsz)))).
Proof.
  intros Hin. apply in_flat_map in Hin.
  destruct Hin as [[k data] [Hkd Hb]]. now exists k, data.
Qed.

Lemma eval_chunk_nonempty (data : list UTF8File.row) (bsz : Z)
    (b : UTF8File.batch) :
  data <> [] -> bsz <> 0 ->
  In b (UTF8File.array_split data
          (Z.to_nat (Z.max 1 (Z.of_nat (length data) / bsz)))) ->
  b <> [] /\ forall r, In r b -> In r data.
Proof.
  intros Hdata Hbsz Hin.
  set (n := length data) in *.
  set (K := Z.to_nat (Z.max 1 (Z.of_nat n / bsz))) in *.
  assert (Hn : (0 < n)%nat).
  { unfold n. destruct data; [congruence | cbn; lia]. }
  assert (HK : (0 < K)%nat) by (unfold K; lia).
  assert (HKn : (K <= n)%nat).
  { unfold K. destruct (Z_lt_le_dec bsz 0) as [Hneg | Hpos].
    - assert (Z.of_nat n / bsz <= 0).
      { pose proof (Z.div_mod (Z.of_nat n) bsz ltac:(lia)) as Hdm.
        pose proof (Z.mod_neg_bound (Z.of_nat n) bsz Hneg) as Hmb.
        nia. }
      lia.
    - assert (Z.of_nat n / bsz <= Z.of_nat n).
      { apply Z.div_le_upper_bound; nia. }
      lia. }
  split.
  - destruct (array_split_near data K b HK Hin) as [Hlen | Hlen];
      fold n in Hlen.
    + assert (1 <= n / K)%nat.
      { apply Nat.div_le_lower_bound; lia. }
      intros ->. cbn in Hlen. lia.
    + intros ->. cbn in Hlen. lia.
  - intros r Hr. rewrite <- (array_split_concat data K HK).
    apply in_concat. exists b. split; assumption.
Qed.

(** ** What the layers accept *)

(** X5.  What a residual block returns.  When it returns, its result
    has the sizes its second layer produced, and the sizes of the
    argument expand to them; given what the two layers produce, the
    block returns exactly when the argument's sizes expand to the
    second layer's.  The blocks the network is built of, over
    [conv_proto] and over [linear_proto], and the stacks of them,
    therefore return the sizes they were given whenever they return. *)
Theorem residual_block_returns_sizes_of_second_layer :
  (forall l out_relu s s',
      Shape.forward (Shape.Residual l out_relu) s = Ok s' ->
      exists s1,
        Shape.forward l s = Ok s1 /\ Shape.forward l s1 = Ok s'
        /\ Shape.expands_to (rev s) (rev s') = true)
  /\ (forall l out_relu s s1 s2,
        Shape.forward l s = Ok s1 -> Shape.forward l s1 = Ok s2 ->
        Shape.forward (Shape.Residual l out_relu) s
        = if Shape.expands_to (rev s) (rev s2) then Ok s2
          else Raise RuntimeError)
  /\ (forall e out_relu k s s',
        (Shape.forward (Shape.Residual (Shape.conv_proto e) out_relu) s
         = Ok s' -> s' = s)
        /\ (Shape.forward (Shape.Residual (Shape.linear_proto e) out_relu) s
            = Ok s' -> s' = s)
        /\ (Shape.sequential (Shape.residual_list (Shape.conv_proto e) k) s
            = Ok s' -> s' = s)
        /\ (Shape.sequential (Shape.residual_list (Shape.linear_proto e) k) s
            = Ok s' -> s' = s)).
Proof.
  split; [| split].
  - exact residual_forward_inv.
  - intros l out_relu s s1 s2 H1 H2. cbn [Shape.forward].
    rewrite H1. cbn [rbind]. rewrite H2. cbn [rbind]. reflexivity.
  - intros e out_relu k s s'. split; [| split; [| split]].
    + apply residual_keeps, conv_proto_keeps.
    + apply residual_keeps, linear_proto_keeps.
    + apply residual_list_keeps_shape, conv_proto_keeps.
    + apply residual_list_keeps_shape, linear_proto_keeps.
Qed.

(** A block of expanding convolutions on one position returns four
    positions, a block of pooling layers is refused, and a block of
    convolutions of the network keeps the sizes. *)
Lemma residual_block_returns_sizes_of_second_layer_witness :
  Shape.forward
    (Shape.Residual (Shape.ExpandConv1d 2 4 3 1 1) true) [1; 2; 1]
  = Ok [1; 2; 4]
  /\ Shape.forward (Shape.Residual (Shape.MaxPool1d 2) true) [1; 256; 8]
     = Raise RuntimeError
  /\ forall s',
       Shape.forward (Shape.Residual (Shape.conv_proto 256) true)
         [1; 256; 8] = Ok s' -> s' = [1; 256; 8].
Proof.
  destruct residual_block_returns_sizes_of_second_layer
    as [_ [Hadd Hkeep]].
  split; [| split].
  - apply (Hadd _ _ [1; 2; 1] [1; 2; 2] [1; 2; 4]); reflexivity.
  - apply (Hadd _ _ [1; 256; 8] [1; 256; 4] [1; 256; 2]); reflexivity.
  - intros s'. exact (proj1 (Hkeep 256 true 0 [1; 256; 8] s')).
Defined.

(** X6.  The length the decoder produces is fixed by [r] alone: from a
    latent batch of the right width it returns [2 ^ max(r, 2)]
    positions for every integer [r], so a depth that differs from the
    encoder's is not detected there; a latent batch of any other width
    is refused. *)
Theorem decoder_length_is_fixed_by_depth (n emsize bsz : Z)
    (self : ByteCNNDecoder.t) :
  ByteCNNDecoder.init n emsize = Ok self ->
  (forall r,
     ByteCNNDecoder.forward self [bsz; emsize * 4] r
     = Ok [bsz; emsize; 2 ^ Z.max r 2])
  /\ (forall r w,
        0 < bsz -> w <> emsize * 4 ->
        ByteCNNDecoder.forward self [bsz; w] r = Raise RuntimeError).
Proof.
  intros Hinit. split.
  - intros r. destruct (Z_le_gt_dec 2 r) as [Hr | Hr].
    + rewrite Z.max_l by lia.
      exact (proj1 (decoder_forward_shape n emsize bsz r self Hinit Hr)).
    + rewrite Z.max_r by lia.
      rewrite <- (proj1 (decoder_forward_shape n emsize bsz 2 self Hinit
                           ltac:(lia))).
      unfold ByteCNNDecoder.forward.
      replace (Z.to_nat (r - 2)) with (Z.to_nat (2 - 2)) by lia.
      reflexivity.
  - intros r w Hb Hw. unfold ByteCNNDecoder.init in Hinit.
    destruct (negb (n mod 2 =? 0)); [discriminate |].
    injection Hinit as <-.
    unfold ByteCNNDecoder.forward.
    cbn [ByteCNNDecoder.prefix ByteCNNDecoder.emsize].
    unfold Shape.residual_list.
    destruct (Z.to_nat (n / 2)) as [| m]; cbn [repeat Shape.sequential rbind].
    + unfold Shape.view. cbn [Shape.size nth Shape.numel fold_right].
      destruct (Z.eqb_spec (bsz * (w * 1)) (bsz * (emsize * (4 * 1))))
        as [Heq | _]; [| reflexivity].
      exfalso. apply Hw. nia.
    + cbn [Shape.forward Shape.linear_proto]. unfold Shape.linear_shape at 1.
      cbn [rev app].
      destruct (Z.eqb_spec w (emsize * 4)) as [Heq | _]; [contradiction |].
      reflexivity.
Qed.

(** The default decoder, asked for depth 5 and for depth 0. *)
Lemma decoder_length_is_fixed_by_depth_witness :
  exists self,
    ByteCNNDecoder.init 8 256 = Ok self
    /\ ByteCNNDecoder.forward self [10; 256 * 4] 5 = Ok [10; 256; 2 ^ Z.max 5 2]
    /\ ByteCNNDecoder.forward self [10; 256 * 4] 0 = Ok [10; 256; 2 ^ Z.max 0 2]
    /\ ByteCNNDecoder.forward self [10; 1000] 5 = Raise RuntimeError.
Proof.
  destruct (ByteCNNDecoder.init 8 256) as [self | e] eqn:Hinit;
    [| vm_compute in Hinit; discriminate].
  exists self. split; [reflexivity |].
  destruct (decoder_length_is_fixed_by_depth 8 256 10 self Hinit)
    as [Hlen Hbad].
  split; [apply Hlen |]. split; [apply Hlen |].
  apply Hbad; [lia | discriminate].
Defined.

(** X7.  Which batches the encoder accepts.  With [k = max(r - 2, 0)]
    recurrent steps each pooling step halves the length rounding down,
    and the linear layers after them need exactly four positions: from
    a network with at least one block per stage ([n] positive), the
    encoder returns a [bsz x 4 emsize] batch when every byte of the
    batch names a row of the table and [4 * 2^k <= L < 5 * 2^k], and
    raises for every other batch.  So at depth [r >= 2] it takes every
    length from [2^r] to [2^r + 2^(r-2) - 1], not only [2^r]. *)
Theorem encoder_accepts_lengths_that_halve_to_four
    (n emsize bsz L r : Z) (self : ByteCNNEncoder.t) (x : Shape.indices) :
  ByteCNNEncoder.init n emsize = Ok self -> 0 < n -> 0 < bsz ->
  Z.of_nat (length x) = bsz ->
  (forall row, In row x -> Z.of_nat (length row) = L) ->
  let k := Z.max (r - 2) 0 in
  ByteCNNEncoder.forward self x r
  = if forallb (forallb (fun c => (0 <=? c) && (c <? emsize))) x
       && (4 * 2 ^ k <=? L) && (L <? 5 * 2 ^ k)
    then Ok [bsz; emsize * 4] else Raise RuntimeError.
Proof.
  intros Hinit Hn Hb Hlen Hrows k.
  pose proof (sizes_of_batch x bsz L Hlen Hb Hrows) as Hsizes.
  rewrite (encoder_forward_by_length n emsize bsz L r self x
             Hinit Hn Hsizes Hb).
  fold k.
  assert (Htable : Shape.in_table (ByteCNNEncoder.embedding self) x
                   = forallb (forallb (fun c => (0 <=? c) && (c <? emsize))) x).
  { unfold ByteCNNEncoder.init in Hinit.
    destruct (negb (n mod 2 =? 0)); [discriminate |].
    destruct (negb (UTF8File.EMPTY <? emsize)); [discriminate |].
    now injection Hinit as <-. }
  rewrite Htable.
  destruct (forallb _ x); cbn [andb]; [| reflexivity].
  assert (Hpow : 0 < 2 ^ k) by (apply Z.pow_pos_nonneg; lia).
  pose proof (Z.div_mod L (2 ^ k) ltac:(lia)) as Hdm.
  pose proof (Z.mod_pos_bound L (2 ^ k) Hpow) as Hmod.
  destruct (Z.eqb_spec (L / 2 ^ k) 4) as [Hfour | Hfour].
  - rewrite Hfour in Hdm.
    destruct (Z.leb_spec (4 * 2 ^ k) L); [| lia].
    destruct (Z.ltb_spec L (5 * 2 ^ k)); [reflexivity | lia].
  - destruct (Z.leb_spec (4 * 2 ^ k) L) as [Hlo |]; [| reflexivity].
    destruct (Z.ltb_spec L (5 * 2 ^ k)) as [Hhi |]; [| reflexivity].
    exfalso. apply Hfour.
    assert (4 <= L / 2 ^ k) by (apply Z.div_le_lower_bound; lia).
    assert (L / 2 ^ k < 5) by (apply Z.div_lt_upper_bound; lia).
    lia.
Qed.

(** The default encoder at depth 5: 32 and 39 bytes are accepted, 40
    and 16 are not, nor is a value that is no byte. *)
Lemma encoder_accepts_lengths_that_halve_to_four_witness :
  exists self,
    ByteCNNEncoder.init 8 256 = Ok self
    /\ ByteCNNEncoder.forward self (repeat (repeat 65 32) 2) 5
       = Ok [2; 256 * 4]
    /\ ByteCNNEncoder.forward self (repeat (repeat 65 39) 2) 5
       = Ok [2; 256 * 4]
    /\ ByteCNNEncoder.forward self (repeat (repeat 65 40) 2) 5
       = Raise RuntimeError
    /\ ByteCNNEncoder.forward self (repeat (repeat 65 16) 2) 5
       = Raise RuntimeError
    /\ ByteCNNEncoder.forward self (repeat (repeat 300 32) 2) 5
       = Raise RuntimeError.
Proof.
  destruct (ByteCNNEncoder.init 8 256) as [self | e] eqn:Hinit;
    [| vm_compute in Hinit; discriminate].
  exists self. split; [reflexivity |].
  assert (Hn : 0 < 8) by lia. assert (Hb : 0 < 2) by lia.
  assert (Hacc : forall (c : Z) (L : nat),
    ByteCNNEncoder.forward self (repeat (repeat c L) 2) 5
    = if forallb (forallb (fun c => (0 <=? c) && (c <? 256)))
           (repeat (repeat c L) 2)
         && (4 * 2 ^ Z.max (5 - 2) 0 <=? Z.of_nat L)
         && (Z.of_nat L <? 5 * 2 ^ Z.max (5 - 2) 0)
      then Ok [2; 256 * 4] else Raise RuntimeError).
  { intros c L.
    apply (encoder_accepts_lengths_that_halve_to_four 8 256 2 (Z.of_nat L) 5
             self (repeat (repeat c L) 2) Hinit Hn Hb eq_refl).
    intros row Hrow. apply repeat_spec in Hrow. subst row.
    now rewrite repeat_length. }
  repeat split; rewrite Hacc; reflexivity.
Defined.

(** ** What the model accepts, and what the loader feeds it *)

Lemma encoder_init_table (n emsize : Z) (self : ByteCNNEncoder.t) :
  ByteCNNEncoder.init n emsize = Ok self ->
  7 < emsize
  /\ forall x,
       Shape.in_table (ByteCNNEncoder.embedding self) x
       = forallb (forallb (fun c => (0 <=? c) && (c <? emsize))) x.
Proof.
  unfold ByteCNNEncoder.init.
  destruct (negb (n mod 2 =? 0)); [discriminate |].
  destruct (Z.ltb_spec UTF8File.EMPTY emsize) as [He |]; cbn [negb];
    [| discriminate].
  intros H. injection H as <-. split; [exact He | reflexivity].
Qed.

Section NetworkInput.
Variable np_log2 : Z -> Q.
Variable E : Z.

Hypothesis np_log2_pow2 :
  forall k, 0 <= k <= E -> (np_log2 (2 ^ k) == inject_Z k)%Q.
Hypothesis np_log2_incr :
  forall a b, 1 <= a < b -> b <= 2 ^ E -> (np_log2 a < np_log2 b)%Q.

Lemma pow2_exponent_bound (k : Z) : 0 <= k -> 2 ^ k <= 2 ^ E -> k <= E.
Proof.
  intros Hk Hle. destruct (Z_le_gt_dec k E) as [| Hgt]; [assumption |].
  exfalso. destruct (Z.lt_ge_cases E 0) as [Hneg | Hpos].
  - rewrite (Z.pow_neg_r 2 E Hneg) in Hle.
    assert (0 < 2 ^ k) by (apply Z.pow_pos_nonneg; lia). lia.
  - assert (2 ^ E < 2 ^ k) by (apply Z.pow_lt_mono_r; lia). lia.
Qed.

Lemma forward_shape_pow2 (n emsize bsz k : Z)
    (encoder : ByteCNNEncoder.t) (decoder : ByteCNNDecoder.t)
    (x : ByteCNN.batch) :
  ByteCNNEncoder.init n emsize = Ok encoder ->
  ByteCNNDecoder.init n emsize = Ok decoder ->
  0 < n -> Shape.sizes_of x = [bsz; 2 ^ k] -> 0 < bsz -> 0 <= k <= E ->
  ByteCNN.forward_shape np_log2 encoder decoder x
  = if (2 <=? k) && Shape.in_table (ByteCNNEncoder.embedding encoder) x
    then Ok [bsz; emsize; 2 ^ k] else Raise RuntimeError.
Proof.
  intros Henc Hdec Hn Hsizes Hb Hk. unfold ByteCNN.forward_shape.
  change (ByteCNN.shape_of x) with (Shape.sizes_of x). rewrite Hsizes.
  rewrite (num_recurrences_pow2 np_log2 E np_log2_pow2 [bsz; 2 ^ k] k Hk eq_refl).
  cbn [rbind].
  rewrite (encoder_forward_by_length n emsize bsz (2 ^ k) k encoder x
             Henc Hn Hsizes Hb).
  destruct (Z.leb_spec 2 k) as [H2 | H2]; cbn [andb].
  - replace (2 ^ k / 2 ^ Z.max (k - 2) 0) with 4.
    + destruct (Shape.in_table _ x); cbn [andb rbind]; [| reflexivity].
      exact (proj1 (decoder_forward_shape n emsize bsz k decoder Hdec H2)).
    + rewrite Z.max_l by lia.
      replace k with (2 + (k - 2)) at 1 by lia.
      rewrite Z.pow_add_r by lia.
      rewrite Z.div_mul by (apply Z.pow_nonzero; lia). reflexivity.
  - rewrite Z.max_r by lia. rewrite Z.div_1_r.
    assert (Hsmall : 2 ^ k = 1 \/ 2 ^ k = 2).
    { destruct (Z.eq_dec k 0) as [-> | Hne]; [now left |].
      right. replace k with 1 by lia. reflexivity. }
    destruct (Z.eqb_spec (2 ^ k) 4) as [Hfour | _]; [lia |].
    rewrite andb_false_r. reflexivity.
Qed.

Lemma forward_shape_short (n emsize bsz k : Z)
    (encoder : ByteCNNEncoder.t) (decoder : ByteCNNDecoder.t)
    (x : ByteCNN.batch) :
  ByteCNNEncoder.init n emsize = Ok encoder ->
  Shape.sizes_of x = [bsz; 2 ^ k] -> 0 < bsz -> 0 <= k <= E -> k < 2 ->
  ByteCNN.forward_shape np_log2 encoder decoder x = Raise RuntimeError.
Proof.
  intros Henc Hsizes Hb Hk Hshort. unfold ByteCNN.forward_shape.
  change (ByteCNN.shape_of x) with (Shape.sizes_of x). rewrite Hsizes.
  rewrite (num_recurrences_pow2 np_log2 E np_log2_pow2 [bsz; 2 ^ k] k Hk eq_refl).
  cbn [rbind].
  destruct (ByteCNNEncoder.forward encoder x k) as [s | e] eqn:Hfwd;
    cbn [rbind].
  - exfalso.
    destruct (encoder_forward_inv n emsize bsz (2 ^ k) k encoder x s
                Henc Hsizes Hb Hfwd) as [_ [Hfour _]].
    rewrite Z.max_r, Z.div_1_r in Hfour by lia.
    assert (Hsmall : 2 ^ k = 1 \/ 2 ^ k = 2).
    { destruct (Z.eq_dec k 0) as [-> | Hne]; [now left |].
      right. replace k with 1 by lia. reflexivity. }
    lia.
  - f_equal. exact (encoder_forward_raises_runtime _ _ _ _ Hfwd).
Qed.

(** X8.  The model's [forward] on a batch of [bsz] rows of [L] bytes,
    for every length the logarithm is accurate on and a network with
    at least one block per stage: a power of two from 4 on is encoded
    and decoded back to [L] positions when every byte of the batch
    names a row of the table, and raises in the lookup otherwise; the
    lengths 1 and 2 pass the assertion of [num_recurrences] and are
    then refused by the encoder; every other length fails the
    assertion. *)
Theorem forward_accepts_powers_of_two_from_four (n emsize bsz L : Z)
    (encoder : ByteCNNEncoder.t) (decoder : ByteCNNDecoder.t)
    (x : ByteCNN.batch) :
  ByteCNNEncoder.init n emsize = Ok encoder ->
  ByteCNNDecoder.init n emsize = Ok decoder ->
  0 < n -> 0 < bsz ->
  Z.of_nat (length x) = bsz ->
  (forall row, In row x -> Z.of_nat (length row) = L) ->
  1 <= L <= 2 ^ E ->
  ByteCNN.forward_shape np_log2 encoder decoder x
  = if L =? 2 ^ Z.log2 L
    then if (4 <=? L)
            && forallb (forallb (fun c => (0 <=? c) && (c <? emsize))) x
         then Ok [bsz; emsize; L] else Raise RuntimeError
    else Raise AssertionError.
Proof.
  intros Henc Hdec Hn Hb Hlen Hrows [HL1 HLE].
  pose proof (sizes_of_batch x bsz L Hlen Hb Hrows) as Hsizes.
  pose proof (Z.log2_nonneg L) as Hk0.
  destruct (Z.eqb_spec L (2 ^ Z.log2 L)) as [Hpow | Hnot].
  - set (k := Z.log2 L) in *.
    assert (HkE : k <= E) by (apply pow2_exponent_bound; lia).
    rewrite Hpow in Hsizes |- *.
    rewrite (forward_shape_pow2 n emsize bsz k encoder decoder x Henc Hdec Hn
               Hsizes Hb (conj Hk0 HkE)).
    rewrite (proj2 (encoder_init_table n emsize encoder Henc) x).
    destruct (Z.leb_spec 2 k) as [H2 | H2].
    + assert (2 ^ 2 <= 2 ^ k) by (apply Z.pow_le_mono_r; lia).
      destruct (Z.leb_spec 4 (2 ^ k)); [reflexivity | lia].
    + assert (2 ^ k <= 2 ^ 1) by (apply Z.pow_le_mono_r; lia).
      destruct (Z.leb_spec 4 (2 ^ k)); [lia | reflexivity].
  - unfold ByteCNN.forward_shape.
    change (ByteCNN.shape_of x) with (Shape.sizes_of x). rewrite Hsizes.
    rewrite (num_recurrences_not_pow2 np_log2 E np_log2_pow2 np_log2_incr
               [bsz; L]); [reflexivity | cbn; lia |].
    intros k Hk. cbn [Shape.size_last List.last]. intros Heq.
    apply Hnot. rewrite Heq at 2. now rewrite Z.log2_pow2.
Qed.

Lemma loaded_row_length (file : list (list Z)) (k : Z)
    (rows : list UTF8File.row) (row : UTF8File.row) :
  (forall c, In c file -> Z.of_nat (length c) + 1 <= 2 ^ E) ->
  In (k, rows) (UTF8File.read_lines np_log2 file) -> In row rows ->
  exists c,
    In c file /\ row = UTF8File.pad_line np_log2 c
    /\ k = Z.of_nat (length row)
    /\ Z.of_nat (length row) = 2 ^ Z.log2_up (Z.of_nat (length c) + 1)
    /\ 0 <= Z.log2_up (Z.of_nat (length c) + 1) <= E.
Proof.
  intros Hfile Hin Hrow.
  destruct (read_lines_stored np_log2 file k rows row Hin Hrow)
    as [c [Hc [Hpad Hk]]].
  exists c. split; [exact Hc |]. split; [exact Hpad |]. split; [exact Hk |].
  pose proof (pad_line_length np_log2 E np_log2_pow2 np_log2_incr c
                (Hfile c Hc)) as Hlen.
  cbv zeta in Hlen. rewrite <- Hpad in Hlen.
  split; [exact Hlen |].
  split; [apply Z.log2_up_nonneg |].
  apply Z.log2_up_le_pow2; [lia | exact (Hfile c Hc)].
Qed.

Lemma eval_batch_rows (file : list (list Z)) (bsz : Z) (b : UTF8File.batch) :
  (forall c, In c file -> Z.of_nat (length c) + 1 <= 2 ^ E) ->
  bsz <> 0 ->
  In b (flat_map
          (fun '(_, data) =>
             UTF8File.array_split data
               (Z.to_nat (Z.max 1 (Z.of_nat (length data) / bsz))))
          (UTF8File.read_lines np_log2 file)) ->
  b <> []
  /\ exists k,
       0 <= k <= E
       /\ forall row, In row b ->
            Z.of_nat (length row) = 2 ^ k
            /\ exists c, In c file /\ row = UTF8File.pad_line np_log2 c.
Proof.
  intros Hfile Hbsz Hin.
  destruct (eval_batches_In _ bsz b Hin) as [k0 [data [Hkd Hchunk]]].
  pose proof (read_lines_bucket_nonempty np_log2 file k0 data Hkd) as Hdata.
  destruct (eval_chunk_nonempty data bsz b Hdata Hbsz Hchunk) as [Hne Hsub].
  split; [exact Hne |].
  destruct b as [| r0 b']; [congruence |].
  destruct (loaded_row_length file k0 data r0 Hfile Hkd
              (Hsub r0 (or_introl eq_refl)))
    as [c0 [_ [_ [Hk0 [Hlen0 HE0]]]]].
  exists (Z.log2_up (Z.of_nat (length c0) + 1)).
  split; [exact HE0 |].
  intros row Hrow.
  destruct (loaded_row_length file k0 data row Hfile Hkd (Hsub row Hrow))
    as [c [Hc [Hpad [Hk _]]]].
  split; [lia | now exists c].
Qed.

Lemma pad_line_entries (content : list Z) (v : Z) :
  In v (UTF8File.pad_line np_log2 content) ->
  In v content \/ v = UTF8File.EOS \/ v = UTF8File.EMPTY.
Proof.
  unfold UTF8File.pad_line. intros Hin.
  apply in_app_or in Hin. destruct Hin as [Hin | Hin].
  - apply in_app_or in Hin. destruct Hin as [Hin | [<- | []]];
      [now left | right; now left].
  - apply repeat_spec in Hin. right. now right.
Qed.

(** X9.  What evaluation feeds the model.  Over a file whose lines fit
    the range on which the logarithm is accurate, evaluation-mode
    iteration yields only non-empty batches of padded lines of the
    file, all rows of a batch having one length [2^k]; on such a batch
    [num_recurrences] returns [k] and never fails its assertion.  When
    the network has at least one block per stage and the table has a
    row for every byte of the file, the model's [forward] gives
    [bsz x emsize x 2^k] logits when [k >= 2] and raises in the
    encoder when the rows hold one or two bytes. *)
Theorem evaluation_batches_are_powers_of_two
    (R : UTF8File.np_random) (file : list (list Z)) (seed bsz n emsize : Z)
    (g : UTF8File.rng_state R)
    (encoder : ByteCNNEncoder.t) (decoder : ByteCNNDecoder.t) :
  (forall c, In c file -> Z.of_nat (length c) + 1 <= 2 ^ E) ->
  bsz <> 0 ->
  ByteCNNEncoder.init n emsize = Ok encoder ->
  ByteCNNDecoder.init n emsize = Ok decoder ->
  0 < n ->
  (forall c, In c file -> forall v, In v c -> 0 <= v < emsize) ->
  exists batches,
    UTF8File.iter_epoch R (UTF8File.init np_log2 R file seed) bsz true g
    = (Ok batches, g)
    /\ forall b, In b batches ->
         b <> []
         /\ exists k,
              0 <= k <= E
              /\ (forall row, In row b ->
                    Z.of_nat (length row) = 2 ^ k
                    /\ exists c,
                         In c file /\ row = UTF8File.pad_line np_log2 c)
              /\ ByteCNN.num_recurrences np_log2 (ByteCNN.shape_of b) = Ok k
              /\ ByteCNN.forward_shape np_log2 encoder decoder b
                 = if 2 <=? k
                   then Ok [Z.of_nat (length b); emsize; 2 ^ k]
                   else Raise RuntimeError.
Proof.
  intros Hfile Hbsz Henc Hdec Hn Hbytes.
  eexists. unfold UTF8File.iter_epoch, UTF8File.init.
  cbn [UTF8File.lines].
  rewrite (eval_batches_ok _ bsz Hbsz). split; [reflexivity |].
  intros b Hin.
  destruct (eval_batch_rows file bsz b Hfile Hbsz Hin) as [Hne [k [Hk Hrows]]].
  split; [exact Hne |]. exists k.
  split; [exact Hk |]. split; [exact Hrows |].
  assert (Hb : 0 < Z.of_nat (length b))
    by (destruct b; [congruence | cbn [length]; lia]).
  assert (Hsizes : Shape.sizes_of b = [Z.of_nat (length b); 2 ^ k]).
  { apply sizes_of_batch; [reflexivity | exact Hb |].
    intros row Hrow. exact (proj1 (Hrows row Hrow)). }
  destruct (encoder_init_table n emsize encoder Henc) as [He Htab].
  assert (Htable : Shape.in_table (ByteCNNEncoder.embedding encoder) b = true).
  { rewrite Htab. apply List.forallb_forall. intros row Hrow.
    apply List.forallb_forall. intros v Hv.
    destruct (proj2 (Hrows row Hrow)) as [c [Hc ->]].
    assert (Hrange : 0 <= v < emsize).
    { destruct (pad_line_entries c v Hv) as [Hvc | [-> | ->]].
      - exact (Hbytes c Hc v Hvc).
      - unfold UTF8File.EOS. lia.
      - unfold UTF8File.EMPTY. lia. }
    apply andb_true_intro. split; [apply Z.leb_le | apply Z.ltb_lt]; lia. }
  split.
  - change (ByteCNN.shape_of b) with (Shape.sizes_of b). rewrite Hsizes.
    exact (num_recurrences_pow2 np_log2 E np_log2_pow2
             [Z.of_nat (length b); 2 ^ k] k Hk eq_refl).
  - rewrite (forward_shape_pow2 n emsize _ k encoder decoder b Henc Hdec Hn
               Hsizes Hb Hk).
    rewrite Htable, andb_true_r. reflexivity.
Qed.

(** X10.  A blank line, or a line of one byte, is stored as a row of
    one or two bytes, and the evaluation batch that holds it makes the
    model's [forward] raise: the encoder cannot bring such a row to
    four positions. *)
Theorem short_line_makes_evaluation_batch_fail
    (R : UTF8File.np_random) (file : list (list Z)) (seed bsz n emsize : Z)
    (g : UTF8File.rng_state R)
    (encoder : ByteCNNEncoder.t) (decoder : ByteCNNDecoder.t)
    (c : list Z) :
  (forall c, In c file -> Z.of_nat (length c) + 1 <= 2 ^ E) ->
  bsz <> 0 ->
  ByteCNNEncoder.init n emsize = Ok encoder ->
  ByteCNNDecoder.init n emsize = Ok decoder ->
  0 < emsize ->
  In c file -> (length c <= 1)%nat ->
  exists batches b,
    UTF8File.iter_epoch R (UTF8File.init np_log2 R file seed) bsz true g
    = (Ok batches, g)
    /\ In b batches
    /\ In (UTF8File.pad_line np_log2 c) b
    /\ ByteCNN.forward_shape np_log2 encoder decoder b = Raise RuntimeError.
Proof.
  intros Hfile Hbsz Henc Hdec He Hc Hshort.
  set (row := UTF8File.pad_line np_log2 c).
  assert (Hstored : In row (flat_map snd (UTF8File.read_lines np_log2 file))).
  { apply (Permutation_in _ (Permutation_sym (read_lines_rows np_log2 file))).
    apply in_map. exact Hc. }
  apply in_flat_map in Hstored. destruct Hstored as [[k0 data] [Hkd Hrow]].
  cbn [snd] in Hrow.
  set (K := Z.to_nat (Z.max 1 (Z.of_nat (length data) / bsz))).
  assert (HK : (0 < K)%nat) by (unfold K; lia).
  pose proof (array_split_concat data K HK) as Hcat.
  rewrite <- Hcat in Hrow. apply in_concat in Hrow.
  destruct Hrow as [b [Hb Hrb]].
  assert (Hin : In b (flat_map
                        (fun '(_, data) =>
                           UTF8File.array_split data
                             (Z.to_nat
                                (Z.max 1 (Z.of_nat (length data) / bsz))))
                        (UTF8File.read_lines np_log2 file))).
  { apply in_flat_map. exists (k0, data). split; [exact Hkd | exact Hb]. }
  eexists. exists b. unfold UTF8File.iter_epoch, UTF8File.init.
  cbn [UTF8File.lines].
  rewrite (eval_batches_ok _ bsz Hbsz).
  split; [reflexivity |]. split; [exact Hin |]. split; [exact Hrb |].
  destruct (eval_batch_rows file bsz b Hfile Hbsz Hin) as [Hne [k [Hk Hrows]]].
  assert (Hb0 : 0 < Z.of_nat (length b)).
  { destruct b; [contradiction | cbn [length]; lia]. }
  assert (Hsizes : Shape.sizes_of b = [Z.of_nat (length b); 2 ^ k]).
  { apply sizes_of_batch; [reflexivity | exact Hb0 |].
    intros r Hr. exact (proj1 (Hrows r Hr)). }
  pose proof (pad_line_length np_log2 E np_log2_pow2 np_log2_incr c
                (Hfile c Hc)) as Hlen.
  cbv zeta in Hlen. fold row in Hlen.
  rewrite (proj1 (Hrows row Hrb)) in Hlen.
  assert (Hk1 : Z.log2_up (Z.of_nat (length c) + 1) <= 1).
  { apply Z.log2_up_le_pow2; [lia |]. change (2 ^ 1) with 2. lia. }
  apply Z.pow_inj_r in Hlen; [| lia | lia | apply Z.log2_up_nonneg].
  apply (forward_shape_short n emsize _ k encoder decoder b Henc Hsizes Hb0 Hk).
  lia.
Qed.

End NetworkInput.

(** The default model on batches of two rows of 64, of 2 and of 100
    bytes, and on a row of 64 values one of which is no byte. *)
Lemma forward_accepts_powers_of_two_from_four_witness :
  exists encoder decoder,
    ByteCNNEncoder.init 8 256 = Ok encoder
    /\ ByteCNNDecoder.init 8 256 = Ok decoder
    /\ ByteCNN.forward_shape Reference.pl_log2 encoder decoder
         (repeat (repeat 65 64) 2)
       = Ok [2; 256; 64]
    /\ ByteCNN.forward_shape Reference.pl_log2 encoder decoder
         (repeat (repeat 65 2) 2)
       = Raise RuntimeError
    /\ ByteCNN.forward_shape Reference.pl_log2 encoder decoder
         (repeat (repeat 65 100) 2)
       = Raise AssertionError
    /\ ByteCNN.forward_shape Reference.pl_log2 encoder decoder
         (repeat (repeat 300 64) 2)
       = Raise RuntimeError.
Proof.
  destruct (ByteCNNEncoder.init 8 256) as [encoder | e] eqn:Henc;
    [| vm_compute in Henc; discriminate].
  destruct (ByteCNNDecoder.init 8 256) as [decoder | e] eqn:Hdec;
    [| vm_compute in Hdec; discriminate].
  exists encoder, decoder. split; [reflexivity |]. split; [reflexivity |].
  assert (Hn : 0 < 8) by lia. assert (Hb : 0 < 2) by lia.
  assert (H45 : 2 ^ 45 = 35184372088832) by reflexivity.
  assert (Hfwd : forall (c : Z) (L : nat),
    1 <= Z.of_nat L <= 2 ^ 45 ->
    ByteCNN.forward_shape Reference.pl_log2 encoder decoder
      (repeat (repeat c L) 2)
    = if Z.of_nat L =? 2 ^ Z.log2 (Z.of_nat L)
      then if (4 <=? Z.of_nat L)
              && forallb (forallb (fun c => (0 <=? c) && (c <? 256)))
                   (repeat (repeat c L) 2)
           then Ok [2; 256; Z.of_nat L] else Raise RuntimeError
      else Raise AssertionError).
  { intros c L HL.
    apply (forward_accepts_powers_of_two_from_four Reference.pl_log2 45
             (fun k Hk => pl_log2_pow2 k (proj1 Hk))
             (fun a b Hab _ => pl_log2_incr a b Hab)
             8 256 2 (Z.of_nat L) encoder decoder (repeat (repeat c L) 2)
             Henc Hdec Hn Hb eq_refl); [| exact HL].
    intros row Hrow. apply repeat_spec in Hrow. subst row.
    now rewrite repeat_length. }
  repeat split; rewrite Hfwd by (rewrite H45; cbn; lia); reflexivity.
Defined.

(** A file of a four-byte line, a blank line and a two-byte line, read
    in evaluation mode with batches of two. *)
Lemma evaluation_batches_are_powers_of_two_witness :
  let file := [[97; 98; 99; 100]; []; [104; 105]] in
  exists encoder decoder batches,
    ByteCNNEncoder.init 8 256 = Ok encoder
    /\ ByteCNNDecoder.init 8 256 = Ok decoder
    /\ UTF8File.iter_epoch Reference.lcg
         (UTF8File.init Reference.pl_log2 Reference.lcg file 1111) 2 true 1
       = (Ok batches, 1)
    /\ forall b, In b batches -> b <> [].
Proof.
  intros file.
  destruct (ByteCNNEncoder.init 8 256) as [encoder | e] eqn:Henc;
    [| vm_compute in Henc; discriminate].
  destruct (ByteCNNDecoder.init 8 256) as [decoder | e] eqn:Hdec;
    [| vm_compute in Hdec; discriminate].
  assert (H45 : 2 ^ 45 = 35184372088832) by reflexivity.
  assert (Hfile : forall c, In c file -> Z.of_nat (length c) + 1 <= 2 ^ 45).
  { intros c [<- | [<- | [<- | []]]]; rewrite H45; cbn [length]; lia. }
  assert (Hbsz : 2 <> 0) by lia. assert (Hn : 0 < 8) by lia.
  assert (Hbytes : forall c, In c file -> forall v, In v c -> 0 <= v < 256).
  { intros c [<- | [<- | [<- | []]]] v Hv; cbn [In] in Hv;
      repeat (destruct Hv as [<- | Hv]; [lia |]); destruct Hv. }
  destruct (evaluation_batches_are_powers_of_two Reference.pl_log2 45
              (fun k Hk => pl_log2_pow2 k (proj1 Hk))
              (fun a b Hab _ => pl_log2_incr a b Hab)
              Reference.lcg file 1111 2 8 256 1 encoder decoder
              Hfile Hbsz Henc Hdec Hn Hbytes) as [batches [Hit Hall]].
  exists encoder, decoder, batches.
  split; [reflexivity |]. split; [reflexivity |]. split; [exact Hit |].
  intros b Hb. exact (proj1 (Hall b Hb)).
Defined.

(** The same file: the batch holding the blank line is refused. *)
Lemma short_line_makes_evaluation_batch_fail_witness :
  let file := [[97; 98; 99; 100]; []; [104; 105]] in
  exists encoder decoder batches b,
    ByteCNNEncoder.init 8 256 = Ok encoder
    /\ ByteCNNDecoder.init 8 256 = Ok decoder
    /\ UTF8File.iter_epoch Reference.lcg
         (UTF8File.init Reference.pl_log2 Reference.lcg file 1111) 2 true 1
       = (Ok batches, 1)
    /\ In b batches
    /\ In (UTF8File.pad_line Reference.pl_log2 []) b
    /\ ByteCNN.forward_shape Reference.pl_log2 encoder decoder b
       = Raise RuntimeError.
Proof.
  intros file.
  destruct (ByteCNNEncoder.init 8 256) as [encoder | e] eqn:Henc;
    [| vm_compute in Henc; discriminate].
  destruct (ByteCNNDecoder.init 8 256) as [decoder | e] eqn:Hdec;
    [| vm_compute in Hdec; discriminate].
  assert (H45 : 2 ^ 45 = 35184372088832) by reflexivity.
  assert (Hfile : forall c, In c file -> Z.of_nat (length c) + 1 <= 2 ^ 45).
  { intros c [<- | [<- | [<- | []]]]; rewrite H45; cbn [length]; lia. }
  assert (Hbsz : 2 <> 0) by lia. assert (He : 0 < 256) by lia.
  assert (Hc : In [] file) by (right; left; reflexivity).
  assert (Hshort : (length (@nil Z) <= 1)%nat) by (cbn; lia).
  destruct (short_line_makes_evaluation_batch_fail Reference.pl_log2 45
              (fun k Hk => pl_log2_pow2 k (proj1 Hk))
              (fun a b Hab _ => pl_log2_incr a b Hab)
              Reference.lcg file 1111 2 8 256 1 encoder decoder []
              Hfile Hbsz Henc Hdec He Hc Hshort)
    as [batches [b [Hit [Hb [Hrow Hfail]]]]].
  exists encoder, decoder, batches, b.
  split; [reflexivity |]. split; [reflexivity |].
  split; [exact Hit |]. split; [exact Hb |]. split; [exact Hrow | exact Hfail].
Defined.

(** ** Error counts and rates of the passes *)

Lemma select_row_length {A} (r : list A) :
  forall mr : list bool,
    length r = length mr ->
    length (map fst (List.filter snd (combine r mr)))
    = length (List.filter (fun b : bool => b) mr).
Proof.
  induction r as [| x r IH]; intros [| m mr] Hlen; cbn in Hlen;
    try discriminate; [reflexivity |].
  cbn [combine List.filter snd]. destruct m; cbn [map length].
  - f_equal. apply IH. lia.
  - apply IH. lia.
Qed.

Lemma masked_select_length (x : list (list Z)) (mask : list (list bool))
    (sel : list Z) :
  ByteCNN.masked_select x mask = Ok sel ->
  Z.of_nat (length sel) = ByteCNN.mask_sum mask.
Proof.
  unfold ByteCNN.masked_select, ByteCNN.mask_sum.
  destruct (ByteCNN.same_sizes x mask) eqn:Hsame; [| discriminate].
  intros Hsel. injection Hsel as <-. f_equal.
  revert mask Hsame. induction x as [| r x IH]; intros [| mr mask] Hsame;
    try (cbn in Hsame; discriminate); [reflexivity |].
  unfold ByteCNN.same_sizes in Hsame. cbn [length combine forallb] in Hsame.
  apply andb_prop in Hsame. destruct Hsame as [Hlen Hall].
  apply andb_prop in Hall. destruct Hall as [Hrow Hall].
  apply Nat.eqb_eq in Hrow.
  cbn [combine flat_map concat].
  rewrite List.filter_app, !length_app.
  rewrite (select_row_length r mr Hrow). f_equal.
  apply IH. unfold ByteCNN.same_sizes. rewrite Hall, andb_true_r.
  apply Nat.eqb_eq. apply Nat.eqb_eq in Hlen. cbn in Hlen. lia.
Qed.

Lemma count_ne_bounds (a b : list Z) :
  0 <= ByteCNN.count_ne a b <= Z.of_nat (length b).
Proof.
  unfold ByteCNN.count_ne. split; [lia |].
  apply inj_le.
  etransitivity; [apply List.filter_length_le |].
  rewrite length_combine. lia.
Qed.

Lemma batch_errors_bounds (tgt : ByteCNN.tensor3) (src : ByteCNN.batch)
    (e s : Z) :
  ByteCNN.batch_errors tgt src = Ok (e, s) -> 0 <= e <= s.
Proof.
  unfold ByteCNN.batch_errors.
  destruct (ByteCNN.masked_select (ByteCNN.max_dim1 tgt) (ByteCNN.pad_mask src))
    as [p | err]; cbn [rbind]; [| discriminate].
  destruct (ByteCNN.masked_select src (ByteCNN.pad_mask src))
    as [q | err] eqn:Hq; cbn [rbind]; [| discriminate].
  intros H. injection H as <- <-.
  rewrite <- (masked_select_length _ _ _ Hq). apply count_ne_bounds.
Qed.

Lemma rate_bounds (e s : Z) :
  0 <= e <= s -> s <> 0 ->
  (0 <= 100 * inject_Z e / inject_Z s)%Q
  /\ (100 * inject_Z e / inject_Z s <= 100)%Q.
Proof.
  intros [He Hes] Hs.
  assert (Hpos : (0 < inject_Z s)%Q).
  { change 0%Q with (inject_Z 0). rewrite <- Zlt_Qlt. lia. }
  split.
  - apply Qle_shift_div_l; [exact Hpos |].
    rewrite Qmult_0_l. change 100%Q with (inject_Z 100).
    rewrite <- inject_Z_mult. change 0%Q with (inject_Z 0).
    rewrite <- Zle_Qle. lia.
  - apply Qle_shift_div_r; [exact Hpos |].
    change 100%Q with (inject_Z 100). rewrite <- !inject_Z_mult.
    rewrite <- Zle_Qle. lia.
Qed.

Section PassFacts.
Variable np_log2 : Z -> Q.
Variable nll : list Q -> Z -> Q.
Variable params : Type.
Variable net : params -> ByteCNN.batch -> Z -> result ByteCNN.tensor3.
Variable optimizer_step : params -> ByteCNN.batch -> params.

Lemma eval_step_counts (self : params) (st st' : ByteCNN.eval_state)
    (src : ByteCNN.batch) :
  ByteCNN.eval_step np_log2 nll params net self st src = Ok st' ->
  0 <= ByteCNN.errs st <= ByteCNN.samples st ->
  0 <= ByteCNN.errs st' <= ByteCNN.samples st'.
Proof.
  unfold ByteCNN.eval_step.
  destruct (ByteCNN.run_net np_log2 params net self src) as [tgt | err];
    cbn [rbind]; [| discriminate].
  destruct (ByteCNN.batch_loss nll tgt src) as [l | err];
    cbn [rbind]; [| discriminate].
  destruct (ByteCNN.batch_errors tgt src) as [[e s] | err] eqn:Hem;
    cbn [rbind]; [| discriminate].
  intros H Hst. injection H as <-.
  apply batch_errors_bounds in Hem.
  cbn [ByteCNN.errs ByteCNN.samples fst snd]. lia.
Qed.

Lemma eval_loop_counts (self : params) (stream : list ByteCNN.batch) :
  forall st st',
    ByteCNN.eval_loop np_log2 nll params net self stream st = Ok st' ->
    0 <= ByteCNN.errs st <= ByteCNN.samples st ->
    0 <= ByteCNN.errs st' <= ByteCNN.samples st'.
Proof.
  induction stream as [| src rest IH]; intros st st';
    cbn [ByteCNN.eval_loop].
  - intros H. now injection H as <-.
  - destruct (ByteCNN.eval_step np_log2 nll params net self st src)
      as [st1 | err] eqn:Hstep; cbn [rbind]; [| discriminate].
    intros Hloop Hst. apply (IH st1 st' Hloop).
    exact (eval_step_counts self st st1 src Hstep Hst).
Qed.

(** X11.  Whatever the network and the loss are, an accuracy returned
    by [eval_on] lies between 0 and 100: the wrong predictions are
    counted among the positions selected by the mask, and [x[mask]] has
    [mask.sum()] entries. *)
Theorem eval_on_accuracy_is_a_percentage (self : params)
    (stream : list ByteCNN.batch) (m : ByteCNN.metrics) :
  ByteCNN.eval_on np_log2 nll params net self stream = Ok m ->
  (0 <= ByteCNN.acc m)%Q /\ (ByteCNN.acc m <= 100)%Q.
Proof.
  unfold ByteCNN.eval_on.
  destruct (ByteCNN.eval_loop np_log2 nll params net self stream _)
    as [st | err] eqn:Hloop; cbn [rbind]; [| discriminate].
  apply eval_loop_counts in Hloop;
    [| cbn [ByteCNN.errs ByteCNN.samples]; lia].
  unfold ByteCNN.eval_result.
  destruct (ByteCNN.total_loss st) as [| t]; cbn [rbind]; [discriminate |].
  destruct (ByteCNN.batch_cnt st =? 0); cbn [rbind]; [discriminate |].
  destruct (Z.eqb_spec (ByteCNN.samples st) 0) as [| Hs]; cbn [rbind];
    [discriminate |].
  intros H. injection H as <-. cbn [ByteCNN.acc].
  destruct (rate_bounds _ _ Hloop Hs) as [Hlo Hhi].
  set (q := (100 * inject_Z (ByteCNN.errs st)
             / inject_Z (ByteCNN.samples st))%Q) in *.
  split.
  - exact (proj1 (Qle_minus_iff q 100) Hhi).
  - apply (Qle_trans _ (100 + 0)%Q); [| now rewrite Qplus_0_r].
    apply Qplus_le_compat; [apply Qle_refl |].
    exact (Qopp_le_compat 0 q Hlo).
Qed.

(** The running loop of [train_on], from any batch number and any
    accumulated lists. *)
Lemma train_loop_spec (stream : list ByteCNN.batch) :
  forall (batch_no : Z) (self : params) (ls es : list Q)
         (lg : list (Z * Q * Q)) (out : ByteCNN.train_out params),
    ByteCNN.train_loop np_log2 nll params net optimizer_step
      stream batch_no self ls es (Some lg) = Ok out ->
    exists ls' es',
      ByteCNN.losses out = ls ++ ls'
      /\ ByteCNN.err_rates out = es ++ es'
      /\ length ls' = length stream
      /\ length es' = length stream
      /\ ByteCNN.trained out = fold_left optimizer_step stream self
      /\ ByteCNN.logged out
         = lg ++ map (fun i => (batch_no + Z.of_nat i, nth i ls' 0%Q,
                                (100 - nth i es' 0%Q)%Q))
                     (seq 0 (length stream))
      /\ Forall (fun e => (0 <= e)%Q /\ (e <= 100)%Q) es'.
Proof.
  induction stream as [| src rest IH]; intros batch_no self ls es lg out;
    cbn [ByteCNN.train_loop].
  - intros H. injection H as <-. exists [], [].
    cbn [ByteCNN.losses ByteCNN.err_rates ByteCNN.trained ByteCNN.logged
         length seq map fold_left].
    rewrite !app_nil_r. repeat split. constructor.
  - destruct (ByteCNN.run_net np_log2 params net self src) as [tgt | err];
      cbn [rbind]; [| discriminate].
    destruct (ByteCNN.batch_loss nll tgt src) as [l | err];
      cbn [rbind]; [| discriminate].
    destruct (ByteCNN.batch_errors tgt src) as [[e s] | err] eqn:Hem;
      cbn [rbind]; [| discriminate].
    cbn [fst snd].
    destruct (Z.eqb_spec s 0) as [| Hs]; cbn [rbind]; [discriminate |].
    intros Hloop. apply IH in Hloop.
    destruct Hloop as [ls' [es' [Hls [Hes [Hll [Hle [Htr [Hlog Hrange]]]]]]]].
    exists (l :: ls'), ((100 * inject_Z e / inject_Z s)%Q :: es').
    rewrite Hls, Hes, <- !app_assoc. cbn [app length fold_left].
    split; [reflexivity |]. split; [reflexivity |].
    split; [now rewrite Hll |]. split; [now rewrite Hle |].
    split; [exact Htr |]. split.
    + rewrite Hlog, <- app_assoc. cbn [app seq map nth].
      rewrite Z.add_0_r. apply (f_equal2 (@app _) eq_refl).
      apply (f_equal (cons _)).
      rewrite <- seq_shift, map_map. apply map_ext. intros i.
      cbn [nth]. replace (batch_no + 1 + Z.of_nat i)
        with (batch_no + Z.of_nat (S i)) by lia.
      reflexivity.
    + constructor; [| exact Hrange].
      apply rate_bounds; [| exact Hs].
      exact (batch_errors_bounds tgt src e s Hem).
Qed.

(** X12.  What [train_on] returns when it returns: one loss and one
    error rate per batch of the iterator, every error rate between 0
    and 100; the weights after one optimizer step per batch, taken in
    the iterator's order; and one log entry per batch, numbered from 0,
    holding that batch's loss and [100 - err_rate]. *)
Theorem train_on_returns_one_entry_per_batch (self : params)
    (stream : list ByteCNN.batch) (lg : list (Z * Q * Q))
    (out : ByteCNN.train_out params) :
  ByteCNN.train_on np_log2 nll params net optimizer_step self stream (Some lg)
  = Ok out ->
  length (ByteCNN.losses out) = length stream
  /\ length (ByteCNN.err_rates out) = length stream
  /\ Forall (fun e => (0 <= e)%Q /\ (e <= 100)%Q) (ByteCNN.err_rates out)
  /\ ByteCNN.trained out = fold_left optimizer_step stream self
  /\ ByteCNN.logged out
     = lg ++ map (fun i => (Z.of_nat i, nth i (ByteCNN.losses out) 0%Q,
                            (100 - nth i (ByteCNN.err_rates out) 0%Q)%Q))
                 (seq 0 (length stream)).
Proof.
  unfold ByteCNN.train_on. intros H. apply train_loop_spec in H.
  destruct H as [ls' [es' [Hls [Hes [Hll [Hle [Htr [Hlog Hrange]]]]]]]].
  cbn [app] in Hls, Hes. rewrite Hls, Hes.
  split; [exact Hll |]. split; [exact Hle |]. split; [exact Hrange |].
  split; [exact Htr |]. rewrite Hlog. reflexivity.
Qed.

(** X13.  With its default [logger=None], [train_on] returns only on
    an empty iterator: on any other it raises, and when the first
    batch passes the network, the loss and the error rate, what it
    raises is the attribute error of [logger.train_log], after the
    optimizer has stepped. *)
Theorem train_on_needs_a_logger (self : params) (src : ByteCNN.batch)
    (rest : list ByteCNN.batch) :
  (forall out,
     ByteCNN.train_on np_log2 nll params net optimizer_step self
       (src :: rest) None <> Ok out)
  /\ (forall l e s,
        ByteCNN.batch_stats np_log2 nll params net self src = Ok (l, (e, s)) ->
        s <> 0 ->
        ByteCNN.train_on np_log2 nll params net optimizer_step self
          (src :: rest) None = Raise AttributeError)
  /\ ByteCNN.train_on np_log2 nll params net optimizer_step self [] None
     = Ok {| ByteCNN.losses := []; ByteCNN.err_rates := [];
             ByteCNN.trained := self; ByteCNN.logged := [] |}.
Proof.
  unfold ByteCNN.train_on, ByteCNN.batch_stats. cbn [ByteCNN.train_loop].
  split; [| split; [| reflexivity]].
  - intros out.
    destruct (ByteCNN.run_net np_log2 params net self src) as [tgt | err];
      cbn [rbind]; [| discriminate].
    destruct (ByteCNN.batch_loss nll tgt src) as [l | err];
      cbn [rbind]; [| discriminate].
    destruct (ByteCNN.batch_errors tgt src) as [[e s] | err];
      cbn [rbind]; [| discriminate].
    destruct (snd (e, s) =? 0); cbn [rbind]; discriminate.
  - intros l e s.
    destruct (ByteCNN.run_net np_log2 params net self src) as [tgt | err];
      cbn [rbind]; [| discriminate].
    destruct (ByteCNN.batch_loss nll tgt src) as [l' | err];
      cbn [rbind]; [| discriminate].
    destruct (ByteCNN.batch_errors tgt src) as [[e' s'] | err];
      cbn [rbind]; [| discriminate].
    intros H Hs. injection H as -> -> ->. cbn [snd].
    destruct (Z.eqb_spec s 0) as [| _]; [contradiction |]. reflexivity.
Qed.

End PassFacts.

(** Two batches under the network that always answers byte 0. *)
Lemma eval_on_accuracy_is_a_percentage_witness :
  exists m,
    ByteCNN.eval_on Reference.pl_log2 Reference.unit_nll unit
      Reference.zero_net tt [[[72; 0]]; [[72; 73; 0; 7]]] = Ok m
    /\ (0 <= ByteCNN.acc m)%Q /\ (ByteCNN.acc m <= 100)%Q.
Proof.
  destruct (ByteCNN.eval_on Reference.pl_log2 Reference.unit_nll unit
              Reference.zero_net tt [[[72; 0]]; [[72; 73; 0; 7]]])
    as [m | e] eqn:Hm; [| vm_compute in Hm; discriminate].
  exists m. split; [reflexivity |].
  exact (eval_on_accuracy_is_a_percentage Reference.pl_log2
           Reference.unit_nll unit Reference.zero_net tt _ m Hm).
Defined.

(** The same two batches in training, with a logger and an optimizer
    that counts its steps. *)
Lemma train_on_returns_one_entry_per_batch_witness :
  let stream := [[[72; 0]]; [[72; 73; 0; 7]]] in
  let net := fun (_ : nat) => Reference.zero_net tt in
  let step := fun (p : nat) (_ : ByteCNN.batch) => S p in
  exists out,
    ByteCNN.train_on Reference.pl_log2 Reference.unit_nll nat net step
      0%nat stream (Some []) = Ok out
    /\ length (ByteCNN.losses out) = 2%nat
    /\ ByteCNN.trained out = 2%nat
    /\ length (ByteCNN.logged out) = 2%nat.
Proof.
  intros stream net step.
  destruct (ByteCNN.train_on Reference.pl_log2 Reference.unit_nll nat net step
              0%nat stream (Some []))
    as [out | e] eqn:Hout; [| vm_compute in Hout; discriminate].
  exists out. split; [reflexivity |].
  destruct (train_on_returns_one_entry_per_batch Reference.pl_log2
              Reference.unit_nll nat net step 0%nat stream [] out Hout)
    as [Hl [_ [_ [Htr Hlog]]]].
  split; [exact Hl |]. split; [exact Htr |].
  rewrite Hlog. reflexivity.
Defined.

(** One batch and no logger. *)
Lemma train_on_needs_a_logger_witness :
  ByteCNN.train_on Reference.pl_log2 Reference.unit_nll unit
    Reference.zero_net (fun p _ => p) tt [[[72; 73; 0; 7]]] None
  = Raise AttributeError.
Proof.
  destruct (train_on_needs_a_logger Reference.pl_log2 Reference.unit_nll unit
              Reference.zero_net (fun p _ => p) tt [[72; 73; 0; 7]] [])
    as [_ [Hraise _]].
  apply (Hraise (3 # 3)%Q 2 3); [vm_compute; reflexivity | discriminate].
Defined.

(** ** What [try_on] returns *)

Lemma rmapM_total {A B} (f : A -> result B) (l : list A) :
  (forall x, In x l -> exists y, f x = Ok y) ->
  exists ys, rmapM f l = Ok ys /\ length ys = length l.
Proof.
  induction l as [| a l IH]; intros Hall; cbn [rmapM].
  - now exists [].
  - destruct (Hall a (or_introl eq_refl)) as [y Hy]. rewrite Hy. cbn [rbind].
    destruct IH as [ys [Hys Hlen]].
    { intros x Hx. apply Hall. now right. }
    rewrite Hys. cbn [rbind]. exists (y :: ys). split; [reflexivity |].
    cbn [length]. now rewrite Hlen.
Qed.

Lemma rmapM_length {A B} (f : A -> result B) (l : list A) :
  forall ys, rmapM f l = Ok ys -> length ys = length l.
Proof.
  induction l as [| a l IH]; intros ys; cbn [rmapM].
  - intros H. now injection H as <-.
  - destruct (f a) as [b | e]; cbn [rbind]; [| discriminate].
    destruct (rmapM f l) as [bs | e]; cbn [rbind]; [| discriminate].
    intros H. injection H as <-. cbn [length]. now rewrite (IH bs).
Qed.

Lemma max_dim1_length (tgt : ByteCNN.tensor3) :
  length (ByteCNN.max_dim1 tgt) = ByteCNN.size0 tgt.
Proof. unfold ByteCNN.max_dim1. now rewrite length_map, length_seq. Qed.

Lemma max_dim1_range (tgt : ByteCNN.tensor3) (pred : list Z) (c : Z) :
  (0 < ByteCNN.size1 tgt)%nat ->
  In pred (ByteCNN.max_dim1 tgt) -> In c pred ->
  0 <= c < Z.of_nat (ByteCNN.size1 tgt).
Proof.
  intros Hc Hpred Hin. unfold ByteCNN.max_dim1 in Hpred.
  apply in_map_iff in Hpred. destruct Hpred as [b [<- _]].
  apply in_map_iff in Hin. destruct Hin as [l [<- _]].
  set (xs := map (fun c0 => ByteCNN.item tgt b c0 l)
                 (seq 0 (ByteCNN.size1 tgt))).
  assert (Hlen : length xs = ByteCNN.size1 tgt).
  { unfold xs. now rewrite length_map, length_seq. }
  assert (Hne : xs <> []).
  { intros Hnil. rewrite Hnil in Hlen. cbn in Hlen. lia. }
  destruct (argmax_greatest xs Hne) as [Hrange _]. now rewrite Hlen in Hrange.
Qed.

Lemma render_total (pred : list Z) :
  (forall c, In c pred -> 0 <= c < 256) -> exists s, ByteCNN.render pred = Ok s.
Proof.
  intros Hbytes. unfold ByteCNN.render.
  destruct (chr_all (ByteCNN.cut_at_eos pred)) as [chars Hchars].
  { intros c Hc. apply Hbytes. now apply cut_at_eos_incl. }
  rewrite Hchars. cbn [rbind]. now eexists.
Qed.

Lemma repr_char_printable (q c : ascii) :
  q = "'"%char \/ q = PyStr.DQUOTE ->
  forallb Printable.printable (PyStr.repr_char q c) = true.
Proof.
  intros [-> | ->]; destruct c as [[] [] [] [] [] [] [] []]; reflexivity.
Qed.

Lemma repr_quoted_printable (chars : list ascii) :
  Printable.quoted (PyStr.repr chars)
  /\ forallb Printable.printable (list_ascii_of_string (PyStr.repr chars))
     = true.
Proof.
  unfold PyStr.repr, Printable.quoted.
  set (q := if (existsb (Ascii.eqb "'"%char) chars
                && negb (existsb (Ascii.eqb PyStr.DQUOTE) chars))%bool
            then PyStr.DQUOTE else "'"%char).
  assert (Hq : q = "'"%char \/ q = PyStr.DQUOTE).
  { unfold q. destruct (_ && _)%bool; [now right | now left]. }
  clearbody q.
  rewrite list_ascii_of_string_of_list_ascii. split.
  - exists q, (flat_map (PyStr.repr_char q) chars). now split.
  - cbn [app forallb]. rewrite forallb_app. cbn [forallb].
    assert (Hpq : Printable.printable q = true)
      by (destruct Hq as [-> | ->]; reflexivity).
    rewrite Hpq, andb_true_r. cbn [andb].
    induction chars as [| c chars IH]; [reflexivity |].
    cbn [flat_map]. rewrite forallb_app, IH, andb_true_r.
    apply repr_char_printable. exact Hq.
Qed.

Lemma render_quoted_printable (pred : list Z) (s : string) :
  ByteCNN.render pred = Ok s ->
  Printable.quoted s
  /\ forallb Printable.printable (list_ascii_of_string s) = true.
Proof.
  unfold ByteCNN.render.
  destruct (rmapM PyStr.chr (ByteCNN.cut_at_eos pred)) as [chars | e];
    cbn [rbind]; [| discriminate].
  intros H. injection H as <-. apply repr_quoted_printable.
Qed.

Section TryOnFacts.
Variable np_log2 : Z -> Q.
Variable params : Type.
Variable net : params -> ByteCNN.batch -> Z -> result ByteCNN.tensor3.
Variable self : params.

(** X14.  When every batch passes the network and the logits score at
    most 256 classes, [try_on] returns, and it returns one string for
    each sequence of each batch: no predicted byte is out of the range
    of [chr]. *)
Theorem try_on_returns_one_string_per_sequence
    (stream : list ByteCNN.batch) (tgts : list ByteCNN.tensor3) :
  rmapM (ByteCNN.run_net np_log2 params net self) stream = Ok tgts ->
  (forall tgt, In tgt tgts -> (0 < ByteCNN.size1 tgt <= 256)%nat) ->
  exists decoded,
    ByteCNN.try_on np_log2 params net self stream = Ok decoded
    /\ length decoded = list_sum (map ByteCNN.size0 tgts).
Proof.
  intros Hrun Hcls. rewrite (try_on_unfolds _ _ _ _ _ _ Hrun).
  clear Hrun. induction tgts as [| tgt tgts IH]; cbn [rmapM rbind].
  - now exists [].
  - destruct (rmapM_total ByteCNN.render (ByteCNN.max_dim1 tgt))
      as [ds [Hds Hlen]].
    { intros pred Hpred. apply render_total. intros c Hc.
      pose proof (Hcls tgt (or_introl eq_refl)) as [Hpos Hle].
      pose proof (max_dim1_range tgt pred c Hpos Hpred Hc). lia. }
    rewrite Hds. cbn [rbind].
    destruct IH as [decoded [Hdec Hcount]].
    { intros t Ht. apply Hcls. now right. }
    destruct (rmapM _ tgts) as [rendered | e]; cbn [rbind] in Hdec |- *;
      [| discriminate].
    injection Hdec as <-.
    eexists. split; [reflexivity |].
    cbn [concat map list_sum]. rewrite length_app, Hcount, Hlen.
    now rewrite max_dim1_length.
Qed.

(** X15.  Every string [try_on] returns is made of printable ASCII
    characters only and sits between two equal quote characters,
    whatever bytes the network predicts: [repr] escapes the rest. *)
Theorem try_on_returns_quoted_printable_text
    (stream : list ByteCNN.batch) :
  forall decoded,
    ByteCNN.try_on np_log2 params net self stream = Ok decoded ->
    forall s, In s decoded ->
      Printable.quoted s
      /\ forallb Printable.printable (list_ascii_of_string s) = true.
Proof.
  induction stream as [| src rest IH]; intros decoded; cbn [ByteCNN.try_on].
  - intros H. injection H as <-. intros s [].
  - destruct (ByteCNN.run_net np_log2 params net self src) as [tgt | e];
      cbn [rbind]; [| discriminate].
    destruct (rmapM ByteCNN.render (ByteCNN.max_dim1 tgt)) as [ds | e] eqn:Hds;
      cbn [rbind]; [| discriminate].
    destruct (ByteCNN.try_on np_log2 params net self rest) as [more | e];
      cbn [rbind]; [| discriminate].
    intros H. injection H as <-. intros s Hs.
    apply in_app_or in Hs. destruct Hs as [Hs | Hs].
    + apply rmapM_Forall2 in Hds.
      assert (Hex : exists pred, ByteCNN.render pred = Ok s).
      { clear - Hds Hs. induction Hds as [| pred d preds ds Hd _ IHd].
        - destruct Hs.
        - destruct Hs as [<- | Hs]; [now exists pred | now apply IHd]. }
      destruct Hex as [pred Hpred]. exact (render_quoted_printable pred s Hpred).
    + exact (IH more eq_refl s Hs).
Qed.

End TryOnFacts.

(** One batch of two sequences under the network that always answers
    byte 0. *)
Lemma try_on_returns_one_string_per_sequence_witness :
  exists decoded,
    ByteCNN.try_on Reference.pl_log2 unit Reference.zero_net tt
      [[[72; 73; 0; 7]; [1; 2; 3; 4]]] = Ok decoded
    /\ length decoded = 2%nat.
Proof.
  set (stream := [[[72; 73; 0; 7]; [1; 2; 3; 4]]]).
  set (tgt := {| ByteCNN.size0 := 2; ByteCNN.size1 := 256;
                 ByteCNN.size2 := 4;
                 ByteCNN.item :=
                   fun _ c _ => match c with O => 1%Q | _ => 0%Q end |}).
  assert (Hrun : rmapM (ByteCNN.run_net Reference.pl_log2 unit
                          Reference.zero_net tt) stream = Ok [tgt])
    by (vm_compute; reflexivity).
  assert (Hcls : forall t, In t [tgt] -> (0 < ByteCNN.size1 t <= 256)%nat).
  { intros t [<- | []]. cbn [tgt ByteCNN.size1]. lia. }
  destruct (try_on_returns_one_string_per_sequence Reference.pl_log2 unit
              Reference.zero_net tt stream [tgt] Hrun Hcls)
    as [decoded [Hdec Hlen]].
  exists decoded. split; [exact Hdec | exact Hlen].
Defined.

(** The same batch: both strings are quoted and printable. *)
Lemma try_on_returns_quoted_printable_text_witness :
  exists decoded,
    ByteCNN.try_on Reference.pl_log2 unit Reference.zero_net tt
      [[[72; 73; 0; 7]; [1; 2; 3; 4]]] = Ok decoded
    /\ forall s, In s decoded ->
         Printable.quoted s
         /\ forallb Printable.printable (list_ascii_of_string s) = true.
Proof.
  destruct (ByteCNN.try_on Reference.pl_log2 unit Reference.zero_net tt
              [[[72; 73; 0; 7]; [1; 2; 3; 4]]])
    as [decoded | e] eqn:Hdec; [| vm_compute in Hdec; discriminate].
  exists decoded. split; [reflexivity |].
  exact (try_on_returns_quoted_printable_text Reference.pl_log2 unit
           Reference.zero_net tt _ decoded Hdec).
Defined.

(** ** Reading a descriptor *)

Lemma lstrip_keeps (c : ascii) (s : list ascii) :
  PyStr.is_space c = false -> In c s -> In c (PyStr.lstrip s).
Proof.
  intros Hc. induction s as [| a s IH]; [intros [] |].
  intros Hin. cbn [PyStr.lstrip].
  destruct (PyStr.is_space a) eqn:Ha; [| exact Hin].
  destruct Hin as [-> | Hin]; [congruence | now apply IH].
Qed.

Lemma lstrip_incl (c : ascii) (s : list ascii) :
  In c (PyStr.lstrip s) -> In c s.
Proof.
  induction s as [| a s IH]; [intros [] |].
  cbn [PyStr.lstrip]. destruct (PyStr.is_space a); [| exact id].
  intros Hin. right. now apply IH.
Qed.

Lemma strip_mem (c : ascii) (s : list ascii) :
  PyStr.is_space c = false -> (In c (PyStr.strip s) <-> In c s).
Proof.
  intros Hc. unfold PyStr.strip. split; intros Hin.
  - apply in_rev, lstrip_incl, in_rev in Hin. now apply lstrip_incl.
  - apply in_rev. rewrite rev_involutive.
    apply lstrip_keeps; [exact Hc |]. apply in_rev.
    rewrite rev_involutive. now apply lstrip_keeps.
Qed.

Lemma split_eq_1_none (s : list ascii) :
  ~ In "="%char s -> PyStr.split_eq_1 s = (s, None).
Proof.
  induction s as [| c s IH]; intros Hno; cbn [PyStr.split_eq_1];
    [reflexivity |].
  destruct (Ascii.eqb_spec c "="%char) as [-> | _].
  - exfalso. apply Hno. now left.
  - rewrite IH; [reflexivity |]. intros Hin. apply Hno. now right.
Qed.

Lemma split_eq_1_some (s : list ascii) :
  In "="%char s -> exists k v, PyStr.split_eq_1 s = (k, Some v).
Proof.
  induction s as [| c s IH]; [intros [] |].
  intros Hin. cbn [PyStr.split_eq_1].
  destruct (Ascii.eqb_spec c "="%char) as [-> | Hne].
  - now exists [], s.
  - destruct Hin as [-> | Hin]; [congruence |].
    destruct (IH Hin) as [k [v Hkv]]. rewrite Hkv. now exists (c :: k), v.
Qed.

Lemma split_eq_1_first (k v : list ascii) :
  ~ In "="%char k -> PyStr.split_eq_1 (k ++ "="%char :: v) = (k, Some v).
Proof.
  induction k as [| c k IH]; intros Hno; cbn [app PyStr.split_eq_1].
  - reflexivity.
  - destruct (Ascii.eqb_spec c "="%char) as [-> | _].
    + exfalso. apply Hno. now left.
    + rewrite IH; [reflexivity |]. intros Hin. apply Hno. now right.
Qed.

Lemma lstrip_trimmed (c : ascii) (s : list ascii) :
  PyStr.is_space c = false -> PyStr.lstrip (c :: s) = c :: s.
Proof. intros Hc. cbn [PyStr.lstrip]. now rewrite Hc. Qed.

Lemma strip_line (whole : list ascii) :
  whole <> [] -> Descriptor.trimmed whole ->
  PyStr.strip (whole ++ [ascii_of_N 10]) = whole.
Proof.
  intros Hne Htrim. destruct whole as [| c w]; [congruence |].
  destruct Htrim as [Hfirst Hlast].
  unfold PyStr.strip. cbn [app]. rewrite (lstrip_trimmed c _ Hfirst).
  change (c :: w ++ [ascii_of_N 10]) with ((c :: w) ++ [ascii_of_N 10]).
  rewrite rev_app_distr. cbn [rev app].
  change (PyStr.lstrip (ascii_of_N 10 :: (rev w ++ [c])))
    with (PyStr.lstrip (rev w ++ [c])).
  change (rev w ++ [c]) with (rev (c :: w)).
  assert (Hrev : rev (c :: w)
                 = List.last (c :: w) c :: rev (removelast (c :: w))).
  { transitivity (rev (removelast (c :: w) ++ [List.last (c :: w) c])).
    - apply (f_equal (@rev ascii)). exact (app_removelast_last c Hne).
    - now rewrite rev_app_distr. }
  rewrite Hrev, (lstrip_trimmed _ _ Hlast), <- Hrev.
  apply rev_involutive.
Qed.

Lemma parse_info_raises (f : list string) :
  forall (d : gmap string string) (e : pyerr),
    ByteCNN.parse_info f d = Raise e -> e = ValueError.
Proof.
  induction f as [| line f IH]; intros d e; cbn [ByteCNN.parse_info].
  - discriminate.
  - destruct (PyStr.split_eq_1 _) as [k [v |]].
    + apply IH.
    + intros H. now injection H as <-.
Qed.

Lemma parse_info_bad_line (f : list string) (line : string) :
  In line f -> ~ In "="%char (list_ascii_of_string line) ->
  forall d, ByteCNN.parse_info f d = Raise ValueError.
Proof.
  intros Hin Hno d.
  destruct (ByteCNN.parse_info f d) as [d' | e] eqn:Hparse.
  - exfalso. revert d Hparse.
    induction f as [| l f IH]; [destruct Hin |].
    intros d. cbn [ByteCNN.parse_info].
    destruct Hin as [-> | Hin].
    + rewrite split_eq_1_none; [discriminate |].
      intros Heq. apply Hno. apply (strip_mem "="%char); [reflexivity | exact Heq].
    + destruct (PyStr.split_eq_1 _) as [k [v |]]; [| discriminate].
      apply IH. exact Hin.
  - f_equal. exact (parse_info_raises f d e Hparse).
Qed.

Lemma parse_info_good_lines (f : list string) :
  (forall line, In line f -> In "="%char (list_ascii_of_string line)) ->
  forall d, exists d', ByteCNN.parse_info f d = Ok d'.
Proof.
  induction f as [| l f IH]; intros Hall d; cbn [ByteCNN.parse_info].
  - now exists d.
  - destruct (split_eq_1_some (PyStr.strip (list_ascii_of_string l)))
      as [k [v Hkv]].
    { apply (strip_mem "="%char); [reflexivity |]. apply Hall. now left. }
    rewrite Hkv. apply IH. intros line Hline. apply Hall. now right.
Qed.

Section DescriptorFacts.
Variable pyobj : Type.
Variable model : Type.
Variable py_eval : string -> result pyobj.
Variable call : pyobj -> pyobj -> result model.
Variable load_state_dict : model -> string -> result model.
Variable open_lines : string -> result (list string).

(** X16.  A descriptor is read only if every one of its lines holds an
    equals sign: [parse_info] returns a dictionary exactly then, and a
    line without one, a blank line included, is a [ValueError], which
    is also what [load_model] raises on such a file once [os] is
    bound. *)
Theorem descriptor_line_without_equals_is_refused (f : list string) :
  (forall d,
     (forall line, In line f -> In "="%char (list_ascii_of_string line)) ->
     exists d', ByteCNN.parse_info f d = Ok d')
  /\ (forall d line,
        In line f -> ~ In "="%char (list_ascii_of_string line) ->
        ByteCNN.parse_info f d = Raise ValueError)
  /\ (forall globals path line,
        existsb (String.eqb "os") globals = true ->
        open_lines (path ++ "/model.info")%string = Ok f ->
        In line f -> ~ In "="%char (list_ascii_of_string line) ->
        ByteCNN.load_model pyobj model py_eval call load_state_dict open_lines
          globals path = Raise ValueError).
Proof.
  split; [| split].
  - intros d Hall. now apply parse_info_good_lines.
  - intros d line Hin Hno. exact (parse_info_bad_line f line Hin Hno d).
  - intros globals path line Hos Hopen Hin Hno.
    unfold ByteCNN.load_model. rewrite Hos, Hopen. cbn [negb rbind].
    now rewrite (parse_info_bad_line f line Hin Hno ∅).
Qed.

(** X17.  Lines written as [key=value] and a newline are read back as
    they were written: when no key holds an equals sign and no line
    starts or ends with white space, [parse_info] binds every key to
    its value, a later line replacing an earlier one with the same
    key.  Only the first equals sign of a line separates, so a value
    may hold others. *)
Theorem descriptor_lines_are_read_back
    (kvs : list (list ascii * list ascii)) (d : gmap string string) :
  (forall kv, In kv kvs ->
     ~ In "="%char (fst kv)
     /\ Descriptor.trimmed (fst kv ++ "="%char :: snd kv)) ->
  ByteCNN.parse_info (map Descriptor.line_of kvs) d
  = Ok (fold_left
          (fun d kv => <[string_of_list_ascii (fst kv)
                         := string_of_list_ascii (snd kv)]> d)
          kvs d).
Proof.
  revert d. induction kvs as [| [k v] kvs IH]; intros d Hall;
    cbn [map ByteCNN.parse_info fold_left]; [reflexivity |].
  destruct (Hall (k, v) (or_introl eq_refl)) as [Hno Htrim].
  cbn [fst snd] in Hno, Htrim.
  unfold Descriptor.line_of at 1. cbn [fst snd].
  rewrite list_ascii_of_string_of_list_ascii.
  replace (k ++ "="%char :: v ++ [ascii_of_N 10])
    with ((k ++ "="%char :: v) ++ [ascii_of_N 10])
    by (now rewrite <- app_assoc).
  rewrite strip_line; [| now destruct k | exact Htrim].
  rewrite (split_eq_1_first k v Hno).
  apply IH. intros kv Hkv. apply Hall. now right.
Qed.

(** X18.  Once [os] is bound and both [eval] calls succeed, what
    [load_model] raises is decided by the keys of the descriptor: a
    key other than [model_class] and [model_kwargs] gives the
    [ValueError] of line 318, and a descriptor without such a key
    reaches the assertion of line 320, which fails. *)
Theorem load_model_outcome_by_keys (globals : list string) (path : string)
    (f : list string) (d : gmap string string) (cls kw : pyobj) :
  existsb (String.eqb "os") globals = true ->
  open_lines (path ++ "/model.info")%string = Ok f ->
  ByteCNN.parse_info f ∅ = Ok d ->
  py_eval (fst (ByteCNN.defaultdict_get d "model_class")) = Ok cls ->
  py_eval ("dict("
           ++ fst (ByteCNN.defaultdict_get
                     (delete "model_class"%string
                        (snd (ByteCNN.defaultdict_get d "model_class")))
                     "model_kwargs")
           ++ ")")%string = Ok kw ->
  ((exists key, is_Some (d !! key)
                /\ key <> "model_class"%string
                /\ key <> "model_kwargs"%string) ->
   ByteCNN.load_model pyobj model py_eval call load_state_dict open_lines
     globals path = Raise ValueError)
  /\ ((forall key, is_Some (d !! key) ->
         key = "model_class"%string \/ key = "model_kwargs"%string) ->
      ByteCNN.load_model pyobj model py_eval call load_state_dict open_lines
        globals path = Raise AssertionError).
Proof.
  intros Hos Hopen Hparse Hcls Hkw.
  rewrite (load_model_two_keys pyobj model py_eval call load_state_dict
             open_lines globals path f d cls kw Hos Hopen Hparse Hcls Hkw).
  set (rest := delete "model_kwargs"%string (delete "model_class"%string d)).
  split.
  - intros [key [[v Hv] [Hc Hk]]].
    assert (Hrest : rest !! key = Some v).
    { unfold rest. now rewrite !lookup_delete_ne by congruence. }
    destruct (Nat.ltb_spec 0 (size rest)) as [| Hsize]; [reflexivity |].
    assert (Hempty : rest = ∅) by (apply map_size_empty_iff; lia).
    rewrite Hempty, lookup_empty in Hrest. discriminate.
  - intros Hkeys.
    assert (Hempty : rest = ∅).
    { apply map_empty. intros key.
      destruct (rest !! key) as [v |] eqn:Hv; [| reflexivity].
      exfalso. unfold rest in Hv.
      destruct (decide (key = "model_kwargs"%string)) as [-> | Hk].
      { rewrite lookup_delete_eq in Hv. discriminate. }
      rewrite lookup_delete_ne in Hv by congruence.
      destruct (decide (key = "model_class"%string)) as [-> | Hc].
      { rewrite lookup_delete_eq in Hv. discriminate. }
      rewrite lookup_delete_ne in Hv by congruence.
      destruct (Hkeys key (ex_intro _ v Hv)); contradiction. }
    rewrite Hempty. reflexivity.
Qed.

End DescriptorFacts.

(** The reference descriptor followed by a blank line. *)
Lemma descriptor_line_without_equals_is_refused_witness :
  ByteCNN.load_model string unit (fun s => Ok s) (fun _ _ => Ok tt)
    (fun m _ => Ok m)
    (fun _ => Ok (Reference.model_info ++ [Reference.newline]))
    ("os"%string :: ByteCNN.module_globals) "run"%string
  = Raise ValueError.
Proof.
  apply (proj2 (proj2 (descriptor_line_without_equals_is_refused
                         string unit (fun s => Ok s) (fun _ _ => Ok tt)
                         (fun m _ => Ok m)
                         (fun _ => Ok (Reference.model_info
                                         ++ [Reference.newline]))
                         (Reference.model_info ++ [Reference.newline])))
           ("os"%string :: ByteCNN.module_globals) "run"%string
           Reference.newline).
  - reflexivity.
  - reflexivity.
  - right. right. left. reflexivity.
  - intros [H | []]. discriminate.
Defined.

(** The two lines of the reference descriptor; the second value holds
    two equals signs. *)
Lemma descriptor_lines_are_read_back_witness :
  let kvs :=
    [(list_ascii_of_string "model_class", list_ascii_of_string "ByteCNN");
     (list_ascii_of_string "model_kwargs",
      list_ascii_of_string "n=8,emsize=256")] in
  map Descriptor.line_of kvs = Reference.model_info
  /\ ByteCNN.parse_info (map Descriptor.line_of kvs) ∅
     = Ok (<["model_kwargs"%string := "n=8,emsize=256"%string]>
             (<["model_class"%string := "ByteCNN"%string]> ∅)).
Proof.
  intros kvs. split; [reflexivity |].
  apply (descriptor_lines_are_read_back kvs ∅).
  intros kv [<- | [<- | []]]; (split; [| split; reflexivity]);
    cbn [fst list_ascii_of_string In]; intros Hin;
    repeat (destruct Hin as [Hin | Hin]; [discriminate |]); exact Hin.
Defined.

(** The reference descriptor with a third line [seed=1111]. *)
Lemma load_model_outcome_by_keys_witness :
  ByteCNN.load_model string unit (fun s => Ok s) (fun _ _ => Ok tt)
    (fun m _ => Ok m)
    (fun _ => Ok (Reference.model_info
                    ++ [("seed=1111" ++ Reference.newline)%string]))
    ("os"%string :: ByteCNN.module_globals) "run"%string
  = Raise ValueError.
Proof.
  set (f := Reference.model_info ++ [("seed=1111" ++ Reference.newline)%string]).
  set (d := <["seed"%string := "1111"%string]>
              (<["model_kwargs"%string := "n=8,emsize=256"%string]>
                 (<["model_class"%string := "ByteCNN"%string]>
                    (∅ : gmap string string)))).
  assert (Hparse : ByteCNN.parse_info f ∅ = Ok d) by reflexivity.
  apply (proj1 (load_model_outcome_by_keys
                  string unit (fun s => Ok s) (fun _ _ => Ok tt)
                  (fun m _ => Ok m) (fun _ => Ok f)
                  ("os"%string :: ByteCNN.module_globals) "run"%string
                  f d _ _ eq_refl eq_refl Hparse eq_refl eq_refl)).
  exists "seed"%string. split; [| split; discriminate].
  exists "1111"%string. unfold d. apply lookup_insert_eq.
Defined.

(** ** The expanding convolution, on values *)

Lemma flat_index_bound (a n b m : nat) :
  (a < n)%nat -> (b < m)%nat -> (a * m + b < n * m)%nat.
Proof. intros Ha Hb. nia. Qed.

Lemma expand_view_numel (B C L : nat) :
  (C mod 2 = 0)%nat ->
  ExpandConv1d.numel [B; C; L] = ExpandConv1d.numel [B; (C / 2)%nat; 2%nat; L].
Proof.
  intros Heven. cbn [ExpandConv1d.numel fold_right].
  pose proof (Nat.div_mod_eq C 2) as Hc. rewrite Heven in Hc.
  rewrite Hc at 1. rewrite Nat.add_0_r. lia.
Qed.

(** X19.  [ExpandConv1d] doubles the length by interleaving the
    channels of its convolution two by two: with [y] the convolution's
    [B x C x L] output and [C] even, the result has sizes
    [B x C/2 x 2L] and its entry at channel [k] and position [2i + j]
    is the entry of [y] at channel [2k + j] and position [i].  With an
    odd [C] the first [view] is refused. *)
Theorem expand_conv_interleaves_channel_pairs
    (conv1d : ExpandConv1d.tensor -> result ExpandConv1d.tensor)
    (x y : ExpandConv1d.tensor) (B C L : nat) :
  conv1d x = Ok y -> ExpandConv1d.dims y = [B; C; L] ->
  ((C mod 2 = 0)%nat ->
   exists out,
     ExpandConv1d.forward conv1d x = Ok out
     /\ ExpandConv1d.dims out = [B; (C / 2)%nat; (2 * L)%nat]
     /\ forall b k i j,
          (b < B)%nat -> (k < C / 2)%nat -> (i < L)%nat -> (j < 2)%nat ->
          ExpandConv1d.item out b k (2 * i + j)
          = ExpandConv1d.item y b (2 * k + j) i)
  /\ ((C mod 2 = 1)%nat -> (0 < B)%nat -> (0 < L)%nat ->
      ExpandConv1d.forward conv1d x = Raise RuntimeError).
Proof.
  intros Hconv Hdims. unfold ExpandConv1d.forward.
  rewrite Hconv. cbn [rbind]. rewrite Hdims. split.
  - intros Heven.
    assert (Hnum : ExpandConv1d.numel [B; (C / 2)%nat; L; 2%nat]
                   = ExpandConv1d.numel [B; (C / 2)%nat; (2 * L)%nat])
      by (cbn [ExpandConv1d.numel fold_right]; lia).
    eexists. split.
    { unfold ExpandConv1d.view at 1. rewrite Hdims.
      rewrite (expand_view_numel B C L Heven), Nat.eqb_refl. cbn [rbind].
      unfold ExpandConv1d.transpose_2_3. cbn [ExpandConv1d.dims rbind].
      unfold ExpandConv1d.view. cbn [ExpandConv1d.dims ExpandConv1d.data].
      rewrite Hnum, Nat.eqb_refl. reflexivity. }
    split; [reflexivity |].
    intros b k i j Hb Hk Hi Hj.
    unfold ExpandConv1d.item. cbn [ExpandConv1d.dims ExpandConv1d.data].
    rewrite Hdims.
    set (h := (C / 2)%nat) in *.
    set (ab := (b * h + k)%nat).
    assert (HC : C = (2 * h)%nat).
    { pose proof (Nat.div_mod_eq C 2) as Hc. rewrite Heven in Hc.
      unfold h. lia. }
    assert (Hidx : (ab * (2 * L) + (2 * i + j)
                    = (ab * L + i) * 2 + j)%nat) by lia.
    rewrite Hidx.
    assert (Hab : (ab < B * h)%nat) by (apply flat_index_bound; assumption).
    assert (Hrow : (ab * L + i < B * h * L)%nat)
      by (apply flat_index_bound; assumption).
    rewrite nth_map_seq by (apply flat_index_bound; assumption).
    assert (Hj' : (((ab * L + i) * 2 + j) mod 2 = j)%nat).
    { symmetry. apply (Nat.mod_unique _ 2 (ab * L + i)); lia. }
    assert (Hq : (((ab * L + i) * 2 + j) / 2 = ab * L + i)%nat).
    { symmetry. apply (Nat.div_unique _ 2 _ j); lia. }
    assert (Hi' : ((ab * L + i) mod L = i)%nat).
    { symmetry. apply (Nat.mod_unique _ L ab); lia. }
    assert (Hab' : (((ab * L + i) * 2 + j) / (2 * L) = ab)%nat).
    { symmetry. apply (Nat.div_unique _ (2 * L) _ (2 * i + j)); lia. }
    cbv zeta. rewrite Hj', Hq, Hi', Hab'.
    apply (f_equal (fun n => nth n (ExpandConv1d.data y) 0%Q)).
    unfold ab. clearbody h. rewrite HC.
    apply (f_equal (fun n => (n * L + i)%nat)). lia.
  - intros Hodd HB HL. unfold ExpandConv1d.view at 1. rewrite Hdims.
    destruct (Nat.eqb_spec (ExpandConv1d.numel [B; C; L])
                (ExpandConv1d.numel [B; (C / 2)%nat; 2%nat; L]))
      as [Heq | _]; [| reflexivity].
    exfalso. cbn [ExpandConv1d.numel fold_right] in Heq.
    pose proof (Nat.div_mod_eq C 2) as Hc. rewrite Hodd in Hc.
    set (h := (C / 2)%nat) in *. nia.
Qed.

(** Two channels of two positions under the identity in place of the
    convolution: rows [1, 2] and [3, 4] become the row [1, 3, 2, 4]. *)
Lemma expand_conv_interleaves_channel_pairs_witness :
  let x := {| ExpandConv1d.dims := [1; 2; 2]%nat;
              ExpandConv1d.data := [1; 2; 3; 4]%Q |} in
  exists out,
    ExpandConv1d.forward Ok x = Ok out
    /\ ExpandConv1d.item out 0 0 1 = 3%Q
    /\ ExpandConv1d.item out 0 0 2 = 2%Q.
Proof.
  intros x.
  destruct (proj1 (expand_conv_interleaves_channel_pairs Ok x x 1 2 2
                     eq_refl eq_refl) eq_refl)
    as [out [Hout [_ Hitem]]].
  exists out. split; [exact Hout |]. split.
  - apply (Hitem 0%nat 0%nat 0%nat 1%nat); cbn; lia.
  - apply (Hitem 0%nat 0%nat 1%nat 0%nat); cbn; lia.
Defined.
